(** * Papr: a shallow embedding of [papr.hpp] and its verified properties

    The header implements the .papr format: [Papr::Internal::Tokenize] and
    [Papr::Internal::Trim] (lexing), [Papr::Parse] (alignment driven tree
    builder over a frame stack), [Papr::Node::Simplify] (canonical shape),
    [Papr::Internal::SerializeRecursive] / [Papr::Serialize] (rendering) and
    the accessors of [Papr::Node].

    Conventions of the embedding
    - [std::string] is [list ascii] ([char] is eight bits wide);
    - [size_t] and [uint32_t] values are integers of [Z]; every operation
      that can leave the range in the source is wrapped with [wrap64] or
      [wrap32]; [(int)] is [int_cast];
    - a call that can throw [std::out_of_range], an [assert] and the one
      [while] loop whose termination is not syntactic live in the monad
      [res];
    - a [Node*] into the tree under construction is the path (child
      indices) from the root to the node;
    - a [Node&] returned by an accessor is an [option Node], [None] being
      the reference to the shared object [Node::INVALID]; the content that
      object has at the time of a call is a parameter, [sentinel]. *)

From Stdlib Require Import String.
From Stdlib Require Import ZArith List Ascii Bool Lia.
Import ListNotations.

#[local] Open Scope list_scope.

#[local] Open Scope Z_scope.
#[local] Open Scope bool_scope.

#[local] Set Warnings "-register-all".

(* ------------------------------------------------------------------------- *)
(** ** Machine integers *)

Definition wrap32 (z : Z) : Z := z mod 2 ^ 32.
Definition wrap64 (z : Z) : Z := z mod 2 ^ 64.

(** [(int) v] for a [size_t] value [v]: keep the low 32 bits, read them as a
    two's complement number. *)
Definition int_cast (z : Z) : Z :=
  let w := wrap32 z in if w <? 2 ^ 31 then w else w - 2 ^ 32.

(** [std::string::npos], the value [(size_t) -1]. *)
Definition npos : Z := 2 ^ 64 - 1.

(* ------------------------------------------------------------------------- *)
(** ** Outcomes of a computation *)

Inductive res (A : Type) : Type :=
| Ok (a : A)        (* normal completion *)
| OutOfRange        (* [std::out_of_range] thrown by [substr] or [erase] *)
| AssertFailed      (* an [assert] does not hold *)
| NoFuel            (* the iteration bound of a [while] loop was reached *)
| Undefined.        (* the behaviour of the source is undefined *)

Arguments Ok {A} a.
Arguments OutOfRange {A}.
Arguments AssertFailed {A}.
Arguments NoFuel {A}.
Arguments Undefined {A}.

Definition bind {A B : Type} (m : res A) (k : A -> res B) : res B :=
  match m with
  | Ok a => k a
  | OutOfRange => OutOfRange
  | AssertFailed => AssertFailed
  | NoFuel => NoFuel
  | Undefined => Undefined
  end.

Notation "x <- m ;; k" := (bind m (fun x => k))
  (at level 61, m at next level, right associativity).

(* ------------------------------------------------------------------------- *)
(** ** Characters and [std::string] *)

Module Str.

Definition string : Type := list ascii.

Definition NUL : ascii := "000"%char.
Definition LF : ascii := "010"%char.
Definition SPACE : ascii := " "%char.
Definition DQUOTE : ascii := "034"%char.
Definition HASH : ascii := "#"%char.
Definition COLON : ascii := ":"%char.
Definition BACKSLASH : ascii := "092"%char.

Definition eqc (a b : ascii) : bool := Ascii.eqb a b.

(** [s.length()] *)
Definition len (s : string) : Z := Z.of_nat (length s).

(** [s.substr( pos, n )] *)
Definition substr (s : string) (pos n : Z) : res string :=
  if len s <? pos then OutOfRange
  else Ok (firstn (Z.to_nat n) (skipn (Z.to_nat pos) s)).

(** [s.erase( pos, n )] *)
Definition erase (s : string) (pos n : Z) : res string :=
  if len s <? pos then OutOfRange
  else Ok (firstn (Z.to_nat pos) s ++ skipn (Z.to_nat pos + Z.to_nat n) s).

(** Index in [s] of the first [c], counted from [i]; [npos] when absent. *)
Fixpoint find_aux (c : ascii) (s : string) (i : Z) : Z :=
  match s with
  | [] => npos
  | x :: s' => if eqc x c then i else find_aux c s' (i + 1)
  end.

(** [s.find( c, pos )] *)
Definition find (s : string) (c : ascii) (pos : Z) : Z :=
  find_aux c (skipn (Z.to_nat pos) s) pos.

(** [s.starts_with( c )] *)
Definition starts_with (s : string) (c : ascii) : bool :=
  match s with
  | [] => false
  | x :: _ => eqc x c
  end.

(** [s.ends_with( c )] *)
Definition ends_with (s : string) (c : ascii) : bool :=
  match rev s with
  | [] => false
  | x :: _ => eqc x c
  end.

(** A literal of the host language as a [std::string]. *)
Definition lit (s : String.string) : string := String.list_ascii_of_string s.

End Str.

Import Str.

(* ------------------------------------------------------------------------- *)
(** ** Nodes *)

Inductive NodeType : Type := None_ | Group | Key | Value.

Definition NodeType_eqb (a b : NodeType) : bool :=
  match a, b with
  | None_, None_ | Group, Group | Key, Key | Value, Value => true
  | _, _ => false
  end.

(** [struct Papr::Node]; the children vector owns its elements, none of
    which is ever null once a member function has returned. *)
Inductive Node : Type :=
| mkNode (m_type : NodeType) (m_text : string) (m_children : list Node).

Definition m_type (n : Node) : NodeType := let (t, _, _) := n in t.
Definition m_text (n : Node) : string := let (_, s, _) := n in s.
Definition m_children (n : Node) : list Node := let (_, _, c) := n in c.

(** The content the static member [Node::INVALID] is initialised with: a
    default constructed node.  The member is not [const], and [operator[]]
    returns it as [Node&], so a caller can change what it holds.  A
    function that reads the sentinel object takes the content it has at the
    time of the call as the parameter [sentinel]. *)
Definition INVALID : Node := mkNode None_ [] [].

Definition MakeGroup : Node := mkNode Group [] [].
Definition MakeKey (key : string) : Node := mkNode Key key [].
Definition MakeValue (value : string) : Node := mkNode Value value [].

(** [AddNode]: the copy of [node] becomes the last child. *)
Definition AddNode (n node : Node) : Node :=
  mkNode (m_type n) (m_text n) (m_children n ++ [node]).

(* ------------------------------------------------------------------------- *)
(** ** Tokens *)

Inductive TokenType : Type := TNone | Text | Colon.

(** The enumerators are bit flags: [1 << 0], [1 << 1], [1 << 2]. *)
Definition TokenType_flag (t : TokenType) : Z :=
  match t with
  | TNone => Z.shiftl 1 0
  | Text => Z.shiftl 1 1
  | Colon => Z.shiftl 1 2
  end.

Record Token : Type := mkToken
  { type : TokenType; text : string; column : Z; line : Z }.

(** [Token { }]: the default member initialisers. *)
Definition Token_default : Token :=
  {| type := TNone; text := []; column := 0; line := 0 |}.

(* ------------------------------------------------------------------------- *)
(** ** [Papr::Internal::Trim] *)

(** The [for] loop of [Trim]: [start] is the index of the first character
    that is not a space, [end_] the index of the last one. *)
Fixpoint Trim_scan (token : string) (i start end_ : Z)
    (hasFoundFirstChar : bool) : Z * Z :=
  match token with
  | [] => (start, end_)
  | c :: token' =>
      let first := negb (eqc c SPACE) && negb hasFoundFirstChar in
      let start := if first then i else start in
      let hasFoundFirstChar := if first then true else hasFoundFirstChar in
      let end_ := if negb (eqc c SPACE) then i else end_ in
      Trim_scan token' (i + 1) start end_ hasFoundFirstChar
  end.

(** The [while] loop of [Trim]: after every newline of [result] at most
    [tokenStartCol] characters of the following line are erased.  [fuel]
    bounds the number of iterations. *)
Fixpoint Trim_dedent (fuel : nat) (tokenStartCol : Z) (result : string)
    (newLinePos : Z) : res string :=
  if newLinePos =? npos then Ok result
  else
    match fuel with
    | O => NoFuel
    | S fuel' =>
        let start := newLinePos + 1 in
        if len result <=? start then Ok result
        else
          let next := find result LF start in
          let length := if next =? npos then len result - start
                        else next - start in
          result' <- erase result start (Z.min tokenStartCol length) ;;
          Trim_dedent fuel' tokenStartCol result' (find result' LF start)
    end.

Definition Trim (token : string) (tokenStartCol : Z) : res string :=
  let '(start, end_) :=
    Trim_scan token 0 0 (wrap64 (len token - 1)) false in
  result <- substr token start (wrap64 (end_ - start + 1)) ;;
  if starts_with result DQUOTE then
    result <- substr result 1
      (wrap64 (len result - (if ends_with result DQUOTE then 2 else 1))) ;;
    Trim_dedent (S (length result)) tokenStartCol result (find result LF 0)
  else Ok result.

(* ------------------------------------------------------------------------- *)
(** ** [Papr::Internal::Tokenize] *)

(** The local variables of [Tokenize] that live across iterations. *)
Record TokState : Type := mkTokState
  { tokens : list Token;
    partialToken : string;
    charCol : Z;
    charLine : Z;
    tokenStartCol : Z;
    tokenStartLine : Z;
    inQuotes : bool;
    tokenHasContent : bool;
    inComment : bool }.

Definition TokState_init : TokState :=
  {| tokens := []; partialToken := [];
     charCol := 0; charLine := 1;
     tokenStartCol := 0; tokenStartLine := 0;
     inQuotes := false; tokenHasContent := false; inComment := false |}.

Definition isDelimiter (c : ascii) : bool :=
  eqc c COLON || eqc c LF || eqc c HASH || eqc c NUL.

(** One iteration of the [for] loop of [Tokenize] on the current character
    [c], the next one [nc] and the previous one [pc]. *)
Definition Tokenize_step (pc c nc : ascii) (st : TokState) : res TokState :=
  let 'mkTokState tokens partialToken charCol charLine tokenStartCol
                  tokenStartLine inQuotes tokenHasContent inComment := st in
  (* Track column and line number for the new character parsed *)
  let charCol := wrap32 (charCol + 1) in
  let charLine := if eqc c LF then wrap32 (charLine + 1) else charLine in
  let charCol := if eqc c LF then 0 else charCol in
  (* Is c the first non-space character in this token? *)
  let isFirstCharInToken :=
    negb tokenHasContent && negb (eqc c SPACE) && negb (eqc c LF) in
  let tokenHasContent := if isFirstCharInToken then true else tokenHasContent in
  let tokenStartCol := if isFirstCharInToken then charCol else tokenStartCol in
  let tokenStartLine :=
    if isFirstCharInToken then charLine else tokenStartLine in
  (* Only tokens starting with a double quote are in quotes *)
  let inQuotes :=
    if isFirstCharInToken && eqc c DQUOTE then true else inQuotes in
  let inQuotes :=
    if inQuotes && eqc c DQUOTE && negb isFirstCharInToken
       && negb (eqc pc BACKSLASH)
    then false else inQuotes in
  (* Handle single line comments *)
  let inComment := if negb inQuotes && eqc c HASH then true else inComment in
  let endOfComment := inComment && eqc c LF in
  let partialToken := if endOfComment then [] else partialToken in
  let tokenHasContent := if endOfComment then false else tokenHasContent in
  let inComment := if endOfComment then false else inComment in
  if negb inComment && (inQuotes || negb (isDelimiter c)) then
    let partialToken := partialToken ++ [c] in
    (* Is the next character a delimiter ending this token? *)
    if negb inQuotes && isDelimiter nc && tokenHasContent then
      t_text <- Trim partialToken tokenStartCol ;;
      let t := {| type := Text; text := t_text;
                  line := tokenStartLine; column := tokenStartCol |} in
      Ok (mkTokState (tokens ++ [t]) [] charCol charLine tokenStartCol
            tokenStartLine inQuotes false inComment)
    else
      Ok (mkTokState tokens partialToken charCol charLine tokenStartCol
            tokenStartLine inQuotes tokenHasContent inComment)
  else if negb inComment && eqc c COLON then
    let t := {| type := Colon; text := [];
                line := charLine; column := charCol |} in
    Ok (mkTokState (tokens ++ [t]) [] charCol charLine tokenStartCol
          tokenStartLine inQuotes false inComment)
  else
    Ok (mkTokState tokens partialToken charCol charLine tokenStartCol
          tokenStartLine inQuotes tokenHasContent inComment).

(** The [for] loop of [Tokenize] from index [i] on, [data] being the
    characters at the indices [i], [i + 1], ...; [prev] is the character at
    [i - 1] and [after] the one behind the last character of [data] (['\0']
    at the end of the input).  The previous character [pc] is read only when
    [(int)( i - 1 )] is not negative. *)
Fixpoint Tokenize_loop (after : ascii) (i : Z) (prev : ascii) (data : string)
    (st : TokState) : res TokState :=
  match data with
  | [] => Ok st
  | c :: data' =>
      let nc := match data' with [] => after | n :: _ => n end in
      let pc := if 0 <=? int_cast (wrap64 (i - 1)) then prev else NUL in
      st' <- Tokenize_step pc c nc st ;;
      Tokenize_loop after (i + 1) c data' st'
  end.

Definition Tokenize (data : string) : res (list Token) :=
  st <- Tokenize_loop NUL 0 NUL data TokState_init ;;
  Ok (tokens st).

(* ------------------------------------------------------------------------- *)
(** ** [Papr::Node::Simplify] *)

(** The loop that builds [combined_text]; [size] is [m_children.size()],
    which is at least two where the loop runs. *)
Fixpoint combine_text (children : list Node) (size count : Z)
    (combined_text : string) : string :=
  match children with
  | [] => combined_text
  | child :: children' =>
      combine_text children' size (count + 1)
        (combined_text ++ m_text child
           ++ (if count <? size - 1 then [SPACE] else []))
  end.

Definition is_type (t : NodeType) (n : Node) : bool :=
  NodeType_eqb (m_type n) t.

(** The three rewrites of [Simplify], in the order of the source;
    [this_type] and [this_children] are the members [m_type] and
    [m_children] of the node [Simplify] is called on. *)

(** A key node whose only child is a group takes over the children of the
    group. *)
Definition collapse_group (this_type : NodeType) (this_children : list Node)
    : list Node :=
  match this_children with
  | [group_node] =>
      if NodeType_eqb this_type Key && is_type Group group_node
      then m_children group_node else this_children
  | _ => this_children
  end.

(** A key or a group node with only a list of value nodes is combined into
    one value. *)
Definition combine_values (this_type : NodeType) (this_children : list Node)
    : list Node :=
  if (NodeType_eqb this_type Key || NodeType_eqb this_type Group)
     && (1 <? Z.of_nat (length this_children))
  then
    let are_all_value_nodes := forallb (is_type Value) this_children in
    if are_all_value_nodes
    then
      [MakeValue
         (combine_text this_children (Z.of_nat (length this_children)) 0 [])]
    else this_children
  else this_children.

(** A key node without any children becomes a value node. *)
Definition key_to_value (this_type : NodeType) (this_children : list Node)
    : NodeType :=
  if NodeType_eqb this_type Key && (Z.of_nat (length this_children) =? 0)
  then Value else this_type.

Fixpoint Simplify (n : Node) : Node :=
  let this_children := map Simplify (m_children n) in
  let this_children := collapse_group (m_type n) this_children in
  let this_children := combine_values (m_type n) this_children in
  let this_type := key_to_value (m_type n) this_children in
  mkNode this_type (m_text n) this_children.

Definition SimplifyCopy (n : Node) : Node := Simplify n.

(* ------------------------------------------------------------------------- *)
(** ** [Papr::Parse] *)

(** A [Node*] into the tree that hangs from [root]: the indices of the
    children to descend into. *)
Definition NodePtr : Type := list nat.

Fixpoint node_at (root : Node) (p : NodePtr) : option Node :=
  match p with
  | [] => Some root
  | i :: p' =>
      match nth_error (m_children root) i with
      | Some child => node_at child p'
      | None => None
      end
  end.

Fixpoint update_nth (i : nat) (f : Node -> Node) (l : list Node) : list Node :=
  match l, i with
  | [], _ => []
  | x :: l', O => f x :: l'
  | x :: l', S i' => x :: update_nth i' f l'
  end.

(** [p->AddNode( node )], seen from the root. *)
Fixpoint AddNode_at (root : Node) (p : NodePtr) (node : Node) : Node :=
  match p with
  | [] => AddNode root node
  | i :: p' =>
      mkNode (m_type root) (m_text root)
        (update_nth i (fun child => AddNode_at child p' node) (m_children root))
  end.

(** The pointer [AddNode] returns: the new last child of [*p]. *)
Definition last_child_ptr (root : Node) (p : NodePtr) : NodePtr :=
  match node_at root p with
  | Some n => p ++ [length (m_children n)]
  | None => p
  end.

Record InternalStackData : Type := mkFrame
  { token : Token; node : NodePtr }.

(** [seekFn]; the head of the list is [stack.back()].  The result is the
    node found ([nullptr] is [None]) and the stack the search leaves.
    [frame_matches] is the test of its [if]. *)
Definition frame_matches (col token_type_flag : Z) (back : InternalStackData)
    : bool :=
  (column (token back) <? col)
  && negb (Z.land (TokenType_flag (type (token back))) token_type_flag =? 0).

Fixpoint seekFn (col token_type_flag : Z) (stack : list InternalStackData)
    : option NodePtr * list InternalStackData :=
  match stack with
  | [] => (None, [])
  | back :: stack' =>
      if frame_matches col token_type_flag back
      then (Some (node back), stack)
      else seekFn col token_type_flag stack'
  end.

(** The flags a text token and a colon token search the stack with. *)
Definition text_anchor_flag : Z :=
  Z.lor (TokenType_flag Colon) (TokenType_flag TNone).
Definition colon_anchor_flag : Z := TokenType_flag Text.

(** The frame the stack starts with: a default token and the root. *)
Definition root_frame : InternalStackData := mkFrame Token_default [].

(** The [for] loop over the tokens.  [None] is [return Node::INVALID],
    [Some root] the tree built when the tokens are used up; a token of kind
    [None] violates the [assert] at the head of the loop body. *)
Fixpoint Parse_loop (toks : list Token) (root : Node)
    (stack : list InternalStackData) : res (option Node) :=
  match toks with
  | [] => Ok (Some root)
  | token :: toks' =>
      match type token with
      | TNone => AssertFailed
      | Text =>
          match seekFn (column token) text_anchor_flag stack with
          | (Some node_to_attach_to, stack) =>
              let node := last_child_ptr root node_to_attach_to in
              let root :=
                AddNode_at root node_to_attach_to (MakeKey (text token)) in
              Parse_loop toks' root (mkFrame token node :: stack)
          | (None, _) => Ok None
          end
      | Colon =>
          match seekFn (column token) colon_anchor_flag stack with
          | (Some node_to_attach_to, stack) =>
              let node := last_child_ptr root node_to_attach_to in
              let root := AddNode_at root node_to_attach_to MakeGroup in
              Parse_loop toks' root (mkFrame token node :: stack)
          | (None, _) => Ok None
          end
      end
  end.

(** The tree builder on a token sequence: the root is a default constructed
    node, the stack starts with the frame of the root. *)
Definition build (toks : list Token) : res (option Node) :=
  Parse_loop toks (mkNode None_ [] []) [root_frame].

(** The body of [Papr::Parse], up to the [return] statement it leaves by:
    [Some root] is [return root] with the tree built, [None] is
    [return Node::INVALID].  What the caller of [Parse] holds is
    [Parse_call] below. *)
Definition Parse (data : string) : res (option Node) :=
  toks <- Tokenize data ;;
  r <- build toks ;;
  match r with
  | Some root => Ok (Some (Simplify root))
  | None => Ok None
  end.

(** The call [Parse( data )] as the caller sees it.  The return type of
    [Parse] is [Node], not [Node&]: either [return] statement constructs a
    new object from its operand, [return Node::INVALID] from the content
    the sentinel has at that time.  The result is a reference in the sense
    of the accessors below: the object returned is never the sentinel
    itself, so it is [Some], whichever statement was taken. *)
Definition Parse_call (sentinel : Node) (data : string)
    : res (option Node) :=
  r <- Parse data ;;
  Ok (Some (match r with
            | Some root => root
            | None => sentinel
            end)).

(* ------------------------------------------------------------------------- *)
(** ** [Papr::Serialize] *)

Definition add_spaces_fn (text : string) (count : Z) : string :=
  text ++ repeat SPACE (Z.to_nat count).

(** The [for] loop of [sanitize_string]. *)
Fixpoint sanitize_loop (text : string) (col : Z) (out : string) : string :=
  match text with
  | [] => out
  | c :: text' =>
      let out :=
        if eqc c DQUOTE then out ++ [BACKSLASH; DQUOTE]
        else if eqc c LF then add_spaces_fn (out ++ [LF]) col
        else out ++ [c] in
      sanitize_loop text' col out
  end.

Definition sanitize_string (text : string) (col : Z) : string :=
  if negb (find text COLON 0 =? npos)
     || negb (find text HASH 0 =? npos)
     || negb (find text LF 0 =? npos)
     || starts_with text DQUOTE
     || starts_with text SPACE
     || ends_with text SPACE
  then DQUOTE :: sanitize_loop text col [] ++ [DQUOTE]
  else text.

Fixpoint SerializeRecursive (depth : Z) (node : Node) (out : string) : string :=
  (fix children_loop (children : list Node) (child_count : Z) (out : string)
     : string :=
     match children with
     | [] => out
     | child :: children' =>
         let out :=
           match m_type child with
           | Key =>
               let key := m_text child in
               let sanitized_key := sanitize_string key (wrap32 (depth + 1)) in
               let out :=
                 if negb (child_count =? 0) then add_spaces_fn out depth
                 else out in
               let out := out ++ sanitized_key ++ [COLON; SPACE] in
               SerializeRecursive (wrap32 (depth + len sanitized_key + 2))
                 child out
           | Value =>
               let value := m_text child in
               let sanitized_value :=
                 sanitize_string value (wrap32 (depth + 1)) in
               let out :=
                 if negb (child_count =? 0) then add_spaces_fn out depth
                 else out in
               out ++ sanitized_value ++ [LF]
           | Group =>
               let out :=
                 if negb (child_count =? 0)
                 then add_spaces_fn out (wrap32 (depth - 2)) ++ [COLON; SPACE]
                 else out in
               SerializeRecursive depth child out
           | None_ => out
           end in
         children_loop children' (wrap32 (child_count + 1)) out
     end) (m_children node) 0 out.

Definition Serialize (node : Node) : string :=
  let simplified := SimplifyCopy node in
  SerializeRecursive 0 simplified [].

(* ------------------------------------------------------------------------- *)
(** ** Accessors of [Papr::Node]

    A [Node&] result is an [option Node]: [None] is the reference to the
    object [Node::INVALID], [Some child] the reference to another object,
    with the content of that object.  [IsInvalid] compares addresses
    ([this == &INVALID]), not contents. *)

Definition IsInvalid (r : option Node) : bool :=
  match r with
  | None => true
  | Some _ => false
  end.

(** [operator[]( size_t index )]; [index] is a [size_t], hence not
    negative. *)
Definition index_at (n : Node) (index : Z) : option Node :=
  if index <? Z.of_nat (length (m_children n))
  then nth_error (m_children n) (Z.to_nat index)
  else None.

(** The loop of [operator[]( const std::string& key )]. *)
Fixpoint index_key_loop (children : list Node) (key : string) : option Node :=
  match children with
  | [] => None
  | child :: children' =>
      if NodeType_eqb (m_type child) Key
      then
        if list_eq_dec ascii_dec (m_text child) key then Some child
        else index_key_loop children' key
      else index_key_loop children' key
  end.

(** [operator[]( const std::string& key )] *)
Definition index_key (n : Node) (key : string) : option Node :=
  index_key_loop (m_children n) key.

Definition HasKey (n : Node) : bool := NodeType_eqb (m_type n) Key.

Definition HasValue (n : Node) : bool :=
  if NodeType_eqb (m_type n) Key || NodeType_eqb (m_type n) Group then
    if Z.of_nat (length (m_children n)) =? 1 then
      match nth_error (m_children n) 0 with
      | Some child_value_node => NodeType_eqb (m_type child_value_node) Value
      | None => false
      end
    else false
  else false.

(** [GetKey] and [GetValue] return a string: on a miss [INVALID.m_text],
    the text the sentinel holds at that time. *)
Definition GetKey (sentinel : Node) (n : Node) : string :=
  if NodeType_eqb (m_type n) Key then m_text n else m_text sentinel.

Definition GetValue (sentinel : Node) (n : Node) : string :=
  if HasValue n then
    match nth_error (m_children n) 0 with
    | Some child => m_text child
    | None => m_text sentinel
    end
  else m_text sentinel.

(** [RemoveNodeAtIndex]: [m_children.erase( m_children.begin() + idx )],
    which is defined only for an iterator that can be dereferenced, that is
    for a [size_t] [idx] below the number of children. *)
Definition RemoveNodeAtIndex (n : Node) (idx : Z) : res Node :=
  if (0 <=? idx) && (idx <? Z.of_nat (length (m_children n)))
  then
    Ok (mkNode (m_type n) (m_text n)
          (firstn (Z.to_nat idx) (m_children n)
             ++ skipn (S (Z.to_nat idx)) (m_children n)))
  else Undefined.

(* ------------------------------------------------------------------------- *)
(** ** Notions the statements below are phrased with *)

(** The texts of the nodes of [l], in order, with one space between two
    neighbours. *)
Fixpoint join_with_space (l : list string) : string :=
  match l with
  | [] => []
  | [s] => s
  | s :: l' => s ++ [SPACE] ++ join_with_space l'
  end.

(** No group node of the tree has a single child that is a group. *)
Fixpoint no_group_chain (n : Node) : bool :=
  negb (is_type Group n
        && match m_children n with
           | [c] => is_type Group c
           | _ => false
           end)
  && forallb no_group_chain (m_children n).

(** The input holds spaces, line feeds and comments only.  [in_comment]
    tells whether the scan is behind a [#] of the current line. *)
Fixpoint no_content (in_comment : bool) (data : string) : bool :=
  match data with
  | [] => true
  | c :: data' =>
      if in_comment then no_content (negb (eqc c LF)) data'
      else if eqc c HASH then no_content true data'
      else (eqc c SPACE || eqc c LF) && no_content false data'
  end.

(** [text] with [col] spaces put behind each of its line feeds. *)
Fixpoint pad_newlines (col : nat) (text : string) : string :=
  match text with
  | [] => []
  | c :: text' =>
      if eqc c LF then LF :: repeat SPACE col ++ pad_newlines col text'
      else c :: pad_newlines col text'
  end.

(** A root whose children are [children]. *)
Definition root_of (children : list Node) : Node := mkNode None_ [] children.

(** The state [Tokenize] is in behind the line feed that ends a comment
    which began in state [st]. *)
Definition after_comment (st : TokState) : TokState :=
  {| tokens := tokens st;
     partialToken := [];
     charCol := 0;
     charLine := wrap32 (charLine st + 1);
     tokenStartCol :=
       if tokenHasContent st then tokenStartCol st
       else wrap32 (charCol st + 1);
     tokenStartLine :=
       if tokenHasContent st then tokenStartLine st else charLine st;
     inQuotes := false;
     tokenHasContent := false;
     inComment := false |}.

(** Every token of [l] is a text or a colon token. *)
Definition typed_tokens (l : list Token) : Prop :=
  Forall (fun t => type t <> TNone) l.

(** The flag the anchor search of a token of kind [t] runs with. *)
Definition anchor_flag (t : TokenType) : Z :=
  match t with
  | Text => text_anchor_flag
  | _ => colon_anchor_flag
  end.

(** Runs of spaces, and runs of characters none of which is a delimiter. *)
Definition all_spaces (s : string) : bool := forallb (fun c => eqc c SPACE) s.
Definition plain (s : string) : bool :=
  forallb (fun c => negb (isDelimiter c)) s.

(** The text of an unquoted token: not empty, no delimiter, no space at
    either end, no double quote in front. *)
Definition is_word (w : string) : bool :=
  plain w
  && negb (starts_with w SPACE) && negb (starts_with w DQUOTE)
  && negb (ends_with w SPACE)
  && match w with [] => false | _ => true end.

(** Column and line of the last character of [s], for a scan that comes
    from column [col] of line [line]. *)
Fixpoint col_after (col : Z) (s : string) : Z :=
  match s with
  | [] => col
  | c :: s' => col_after (if eqc c LF then 0 else wrap32 (col + 1)) s'
  end.

Fixpoint line_after (line : Z) (s : string) : Z :=
  match s with
  | [] => line
  | c :: s' => line_after (if eqc c LF then wrap32 (line + 1) else line) s'
  end.

(** A key, its colon and a value that goes on in the next line: [sp1] and
    [sp2] are the spaces in front of the two pieces of the value. *)
Definition paragraph_doc (key sp1 v1 sp2 v2 : string) : string :=
  key ++ [COLON] ++ (sp1 ++ v1) ++ [LF] ++ (sp2 ++ v2).

(** The children of every group of the tree are keys. *)
Fixpoint group_children_keys (n : Node) : bool :=
  (negb (is_type Group n) || forallb (is_type Key) (m_children n))
  && forallb group_children_keys (m_children n).

(** The kind of node a frame of the stack points to: a key for a text
    token, a group for a colon token, the root for the default token. *)
Definition frame_node_type (t : TokenType) : NodeType :=
  match t with
  | TNone => None_
  | Text => Key
  | Colon => Group
  end.

(** The frames of [stack] point into the tree of [root], each to a node of
    the kind of its token. *)
Definition stack_ok (root : Node) (stack : list InternalStackData) : Prop :=
  Forall (fun f => exists n, node_at root (node f) = Some n
                             /\ m_type n = frame_node_type (type (token f)))
    stack.

(** A document whose value holds an escaped double quote and a colon. *)
Definition escaped_quote_doc : string :=
  lit "k: " ++ [DQUOTE] ++ lit "a" ++ [BACKSLASH; DQUOTE] ++ lit "b:c"
    ++ [DQUOTE].

(* ------------------------------------------------------------------------- *)
(** ** Mutators of [Papr::Node] *)

(** [UpdateKey] *)
Definition UpdateKey (n : Node) (key : string) : Node :=
  if NodeType_eqb (m_type n) Key
  then mkNode (m_type n) key (m_children n)
  else n.

(** [UpdateValue]: [m_children[ 0 ]->m_text = value] under [HasValue]. *)
Definition UpdateValue (n : Node) (value : string) : Node :=
  if HasValue n
  then
    mkNode (m_type n) (m_text n)
      (update_nth 0 (fun child => mkNode (m_type child) value (m_children child))
         (m_children n))
  else n.

(** [AddKey], [AddValue], [AddGroup]: the node after the call; the reference
    they return is to its last child. *)
Definition AddKey (n : Node) (key : string) : Node := AddNode n (MakeKey key).
Definition AddValue (n : Node) (value : string) : Node :=
  AddNode n (MakeValue value).
Definition AddGroup (n : Node) : Node := AddNode n MakeGroup.

(** The node a [Node&] stands for, when the sentinel holds [sentinel]. *)
Definition deref (sentinel : Node) (r : option Node) : Node :=
  match r with
  | Some n => n
  | None => sentinel
  end.

(** [n[ k1 ][ k2 ]...]: lookups by key, one on the result of the other; a
    lookup on the reference to the sentinel searches the children the
    sentinel has. *)
Definition lookup_path (sentinel : Node) (r : option Node)
    (keys : list string) : option Node :=
  fold_left (fun r key => index_key (deref sentinel r) key) keys r.

(* ------------------------------------------------------------------------- *)
(** ** Shapes of trees *)

(** The kinds of a node and a child the builder hangs below it. *)
Definition child_kind_ok (parent child : NodeType) : bool :=
  match parent, child with
  | None_, Key | Group, Key | Key, Group => true
  | _, _ => false
  end.

(** Below the root and below groups there are keys, below keys groups. *)
Fixpoint well_kinded (n : Node) : bool :=
  forallb (fun c => child_kind_ok (m_type n) (m_type c)) (m_children n)
  && forallb well_kinded (m_children n).

Definition no_children (n : Node) : bool :=
  match m_children n with
  | [] => true
  | _ => false
  end.

(** Every value of the tree is a leaf. *)
Fixpoint values_are_leaves (n : Node) : bool :=
  (negb (is_type Value n) || no_children n)
  && forallb values_are_leaves (m_children n).

(** Every value of the tree is a leaf and no key is. *)
Fixpoint canonical (n : Node) : bool :=
  (negb (is_type Value n) || no_children n)
  && (negb (is_type Key n) || negb (no_children n))
  && forallb canonical (m_children n).

(* ------------------------------------------------------------------------- *)
(** ** Tokens and lines *)

(** A text token has a text, a colon token has none. *)
Definition token_ok (t : Token) : Prop :=
  match type t with
  | TNone => False
  | Text => True
  | Colon => text t = []
  end.

(** The scan is between two tokens: not in quotes, not in a comment, no
    character of a token read. *)
Definition idle (st : TokState) : Prop :=
  inQuotes st = false /\ inComment st = false /\ tokenHasContent st = false.

(* ------------------------------------------------------------------------- *)
(** ** Documents of keys with one value or a list of values *)

(** A line [head: gap value]: [head] is a key at the start of the line, or
    the spaces in front of the colon of a further value of the key above;
    [gap] is the run of spaces behind the colon. *)
Definition Line : Type := (string * string * string)%type.

Definition line_value (l : Line) : string := snd l.

Definition line_text (l : Line) : string :=
  let '(head, gap, value) := l in head ++ [COLON] ++ (gap ++ value) ++ [LF].

Definition doc_text (ls : list Line) : string := concat (map line_text ls).

Definition line_ok (l : Line) : bool :=
  let '(head, gap, value) := l in
  (is_word head || all_spaces head) && all_spaces gap && is_word value
  && (len head + 1 + len gap + len value <? 2 ^ 32).

(** The tokens of a line that is line number [line] of the input. *)
Definition line_tokens (line : Z) (l : Line) : list Token :=
  let '(head, gap, value) := l in
  (if all_spaces head then [] else [mkToken Text head 1 line])
  ++ [mkToken Colon [] (len head + 1) line;
      mkToken Text value (len head + 1 + len gap + 1) line].

Fixpoint lines_tokens (line : Z) (ls : list Line) : list Token :=
  match ls with
  | [] => []
  | l :: ls' => line_tokens line l ++ lines_tokens (wrap32 (line + 1)) ls'
  end.

(** A key, the first value on the line of the key, and the lines of the
    further values. *)
Record Entry : Type := mkEntry
  { e_key : string; e_gap : string; e_value : string; e_more : list Line }.

Definition entry_lines (e : Entry) : list Line :=
  (e_key e, e_gap e, e_value e) :: e_more e.

Definition doc_lines (es : list Entry) : list Line :=
  concat (map entry_lines es).

(** The lines of the further values: the colon of each is right of the
    first column and not right of the first character of the value before
    it, which is at column [prev_col]. *)
Fixpoint more_ok (prev_col : Z) (ls : list Line) : bool :=
  match ls with
  | [] => true
  | (head, gap, value) :: ls' =>
      all_spaces head && (1 <=? len head) && (len head + 1 <=? prev_col)
      && line_ok (head, gap, value)
      && more_ok (len head + 1 + len gap + 1) ls'
  end.

Definition entry_ok (e : Entry) : bool :=
  is_word (e_key e) && line_ok (e_key e, e_gap e, e_value e)
  && more_ok (len (e_key e) + 1 + len (e_gap e) + 1) (e_more e).

(** The group a colon and the text behind it make, as built and as
    simplified. *)
Definition group_raw (value : string) : Node :=
  mkNode Group [] [MakeKey value].
Definition group_of (value : string) : Node :=
  mkNode Group [] [MakeValue value].

(** A key with one value, or with a list of two or more values. *)
Definition list_node (key value : string) (more : list string) : Node :=
  mkNode Key key
    match more with
    | [] => [MakeValue value]
    | _ => map group_of (value :: more)
    end.

Definition entry_raw (e : Entry) : Node :=
  mkNode Key (e_key e)
    (map group_raw (e_value e :: map line_value (e_more e))).

Definition entry_node (e : Entry) : Node :=
  list_node (e_key e) (e_value e) (map line_value (e_more e)).

(** The loop over the children in [SerializeRecursive], by its name. *)
Fixpoint Serialize_children (depth : Z) (children : list Node)
    (child_count : Z) (out : string) : string :=
  match children with
  | [] => out
  | child :: children' =>
      let out :=
        match m_type child with
        | Key =>
            let key := m_text child in
            let sanitized_key := sanitize_string key (wrap32 (depth + 1)) in
            let out :=
              if negb (child_count =? 0) then add_spaces_fn out depth
              else out in
            let out := out ++ sanitized_key ++ [COLON; SPACE] in
            SerializeRecursive (wrap32 (depth + len sanitized_key + 2))
              child out
        | Value =>
            let value := m_text child in
            let sanitized_value :=
              sanitize_string value (wrap32 (depth + 1)) in
            let out :=
              if negb (child_count =? 0) then add_spaces_fn out depth
              else out in
            out ++ sanitized_value ++ [LF]
        | Group =>
            let out :=
              if negb (child_count =? 0)
              then add_spaces_fn out (wrap32 (depth - 2)) ++ [COLON; SPACE]
              else out in
            SerializeRecursive depth child out
        | None_ => out
        end in
      Serialize_children depth children' (wrap32 (child_count + 1)) out
  end.

(** A key with its values as data, and the lines [Serialize] writes for
    it. *)
Definition Item : Type := (string * string * list string)%type.

Definition item_node (it : Item) : Node :=
  let '(key, value, more) := it in list_node key value more.

Definition item_entry (it : Item) : Entry :=
  let '(key, value, more) := it in
  mkEntry key [SPACE] value
    (map (fun v => (repeat SPACE (length key), [SPACE], v)) more).

Definition item_ok (it : Item) : bool :=
  let '(key, value, more) := it in
  is_word key
  && forallb (fun v => is_word v && (len key + 2 + len v <? 2 ^ 32))
       (value :: more)
  && (Z.of_nat (length more) + 1 <? 2 ^ 32).

(** The test of [sanitize_string]: the text is written between quotes. *)
Definition needs_quotes (text : string) : bool :=
  negb (find text COLON 0 =? npos)
  || negb (find text HASH 0 =? npos)
  || negb (find text LF 0 =? npos)
  || starts_with text DQUOTE
  || starts_with text SPACE
  || ends_with text SPACE.

(* ------------------------------------------------------------------------- *)
(** ** Trees of keys and values *)

(** Trees of keys and values, as data: a value, or a key with the groups
    of nodes below it.  A key with one group has the nodes of the group as
    children; a key with more groups has one group node for each.  Not
    every tree [Parse] returns is of this kind with [wf_tree] below: a
    group without nodes and a text between quotes are left out. *)
Inductive Tree : Type :=
| TValue (value : string)
| TKey (key : string) (groups : list (list Tree)).

Fixpoint node_of (t : Tree) : Node :=
  match t with
  | TValue value => mkNode Value value []
  | TKey key groups =>
      mkNode Key key
        match groups with
        | [g] => map node_of g
        | _ => map (fun g => mkNode Group [] (map node_of g)) groups
        end
  end.

(** The tree the builder of [Parse] makes for it, before [Simplify]. *)
Fixpoint raw_of (t : Tree) : Node :=
  match t with
  | TValue value => MakeKey value
  | TKey key groups =>
      mkNode Key key (map (fun g => mkNode Group [] (map raw_of g)) groups)
  end.

Definition is_TValue (t : Tree) : bool :=
  match t with
  | TValue _ => true
  | TKey _ _ => false
  end.

(** A group: not empty, fewer than [2 ^ 32] nodes, and not two or more
    values only ([Simplify] makes one value of those). *)
Definition group_ok (g : list Tree) : bool :=
  (0 <? Z.of_nat (length g)) && (Z.of_nat (length g) <? 2 ^ 32)
  && negb ((1 <? Z.of_nat (length g)) && forallb is_TValue g).

(** The texts are texts of an unquoted token (not empty, one line, no
    quotes needed), a key has a group, every group is as [group_ok] says,
    a key has fewer than [2 ^ 32] groups, and no column reaches [2 ^ 32];
    [depth] is the number of characters in front of the text of the node
    on its line. *)
Fixpoint wf_tree (depth : Z) (t : Tree) : bool :=
  match t with
  | TValue value => is_word value && (depth + len value <? 2 ^ 32)
  | TKey key groups =>
      is_word key && (depth + len key + 2 <? 2 ^ 32)
      && (0 <? Z.of_nat (length groups))
      && (Z.of_nat (length groups) <? 2 ^ 32)
      && forallb
           (fun g => group_ok g && forallb (wf_tree (depth + len key + 2)) g)
           groups
  end.

(** The first text as it is, each further one behind [indent]. *)
Definition ser_seq (indent : string) (items : list string) : string :=
  match items with
  | [] => []
  | x :: items' => x ++ concat (map (fun y => indent ++ y) items')
  end.

(** The lines of a tree whose text begins [depth] characters into its
    line: a value and a line feed; a key, and for each group a colon, a
    space and the nodes of the group, the first on the line of the colon,
    the others below it; the colons of the further groups stand below the
    first one. *)
Fixpoint ser_tree (depth : Z) (t : Tree) : string :=
  match t with
  | TValue value => value ++ [LF]
  | TKey key groups =>
      let depth' := depth + len key + 2 in
      key
      ++ ser_seq (repeat SPACE (Z.to_nat (depth' - 2)))
           (map (fun g =>
                   [COLON; SPACE]
                   ++ ser_seq (repeat SPACE (Z.to_nat depth'))
                        (map (ser_tree depth') g))
              groups)
  end.

Definition ser_doc (ts : list Tree) : string :=
  ser_seq [] (map (ser_tree 0) ts).

(** The spaces [SerializeRecursive] writes in front of the child with
    number [count], and the turn of its loop on the node of a tree. *)
Definition child_indent (depth count : Z) : string :=
  if count =? 0 then [] else repeat SPACE (Z.to_nat depth).

Definition ser_step (depth : Z) (t : Tree) : Prop :=
  forall count out rest,
    Serialize_children depth (node_of t :: rest) count out
    = Serialize_children depth rest (wrap32 (count + 1))
        (out ++ child_indent depth count ++ ser_tree depth t).

(** The frames of [above] have their tokens at column [bound] or right of
    it. *)
Definition right_of (bound : Z) (above : list InternalStackData) : Prop :=
  Forall (fun f => bound <= column (token f)) above.

(** The frame a text at depth [depth] is attached to, and the frame the
    colon of a group with nodes at depth [depth] is attached to. *)
Definition text_anchor (depth : Z) (f : InternalStackData) : Prop :=
  column (token f) <= depth /\ type (token f) <> Text.
Definition colon_anchor (depth : Z) (f : InternalStackData) : Prop :=
  column (token f) < depth - 1 /\ type (token f) = Text.

(** On the tokens [new] the loop of [Parse] adds [children], in order,
    below the node of the anchor frame, whatever frames right of [bound]
    lie above the anchor; it leaves the anchor on the stack, below frames
    right of [bound]. *)
Definition adds (bound : Z) (anchor_ok : InternalStackData -> Prop)
    (new : list Token) (children : list Node) : Prop :=
  forall rest root above anchor below nd,
    right_of bound above -> anchor_ok anchor ->
    node_at root (node anchor) = Some nd ->
    exists above',
      right_of bound above'
      /\ Parse_loop (new ++ rest) root (above ++ anchor :: below)
         = Parse_loop rest
             (fold_left (fun r c => AddNode_at r (node anchor) c)
                children root)
             (above' ++ anchor :: below).

(** From column [col] of a line, between two tokens, the loop of
    [Tokenize] reads [text] to the start of a line and emits tokens that
    satisfy [P]. *)
Definition scans (text : string) (col : Z) (P : list Token -> Prop) : Prop :=
  forall after i prev toks part line scol sline,
    all_spaces part = true ->
    exists new part' line' scol' sline',
      all_spaces part' = true
      /\ Tokenize_loop after i prev text
           (mkTokState toks part col line scol sline false false false)
         = Ok (mkTokState (toks ++ new) part' 0 line' scol' sline'
                 false false false)
      /\ P new.

(** The text of a tree at depth [depth] is read back: its tokens make the
    builder add the raw form of the tree. *)
Definition reads_tree (depth : Z) (t : Tree) : Prop :=
  scans (ser_tree depth t) depth
    (fun new => adds (depth + 1) (text_anchor depth) new [raw_of t]).

(* ========================================================================= *)
(** * Properties *)

(* ------------------------------------------------------------------------- *)
(** ** The anchor search *)

Section Seek.

Variables (col flag : Z).

(** Frames that do not match are popped. *)
Lemma seekFn_skip (above stack : list InternalStackData) :
  forallb (fun f => negb (frame_matches col flag f)) above = true ->
  seekFn col flag (above ++ stack) = seekFn col flag stack.
Proof.
  induction above as [|f above IH]; simpl; intros H; [reflexivity|].
  apply andb_prop in H. destruct H as [Hf Habove].
  apply negb_true_iff in Hf. rewrite Hf. now apply IH.
Qed.

Lemma seekFn_hit (f : InternalStackData) (stack : list InternalStackData) :
  frame_matches col flag f = true ->
  seekFn col flag (f :: stack) = (Some (node f), f :: stack).
Proof. intros H. simpl. now rewrite H. Qed.

Lemma seekFn_miss (f : InternalStackData) (stack : list InternalStackData) :
  frame_matches col flag f = false ->
  seekFn col flag (f :: stack) = seekFn col flag stack.
Proof. intros H. simpl. now rewrite H. Qed.

End Seek.

Lemma root_frame_matches_text (col : Z) :
  0 < col -> frame_matches col text_anchor_flag root_frame = true.
Proof.
  intros H. unfold frame_matches, root_frame, Token_default; simpl.
  apply andb_true_intro. split; [now apply Z.ltb_lt | reflexivity].
Qed.

Lemma root_frame_rejects_colon (col : Z) :
  frame_matches col colon_anchor_flag root_frame = false.
Proof.
  unfold frame_matches, root_frame, Token_default; simpl.
  apply andb_false_r.
Qed.

(** C5, as the code has it: a search that reaches the frame of the root with
    a column above 0 ends at the root when a text token started it (flag
    [Colon | None]); when a colon token started it (flag [Text]) the frame of
    the root is popped as well and the search ends with an empty stack. *)
Theorem root_frame_anchor (col : Z) (above : list InternalStackData) :
  0 < col ->
  (forallb (fun f => negb (frame_matches col text_anchor_flag f)) above = true ->
   seekFn col text_anchor_flag (above ++ [root_frame])
   = (Some [], [root_frame]))
  /\ (forallb (fun f => negb (frame_matches col colon_anchor_flag f)) above
      = true ->
      seekFn col colon_anchor_flag (above ++ [root_frame]) = (None, [])).
Proof.
  intros Hcol. split; intros Habove; rewrite (seekFn_skip _ _ _ _ Habove).
  - now rewrite seekFn_hit by now apply root_frame_matches_text.
  - simpl. now rewrite root_frame_rejects_colon.
Qed.

Lemma root_frame_anchor_witness :
  seekFn 3 text_anchor_flag
    ([mkFrame (mkToken Text (lit "k") 3 1) [0%nat]] ++ [root_frame])
  = (Some [], [root_frame])
  /\ seekFn 1 colon_anchor_flag ([] ++ [root_frame]) = (None, []).
Proof.
  split.
  - apply (root_frame_anchor 3
             [mkFrame (mkToken Text (lit "k") 3 1) [0%nat]]); [lia | reflexivity].
  - apply (root_frame_anchor 1 []); [lia | reflexivity].
Defined.

(** C5 as stated fails: a colon token in column 1 reaches the frame of the
    root and finds no anchor. *)
Lemma root_frame_no_wildcard :
  seekFn 1 colon_anchor_flag [root_frame] = (None, [])
  /\ ~ (forall col flag,
           0 < col ->
           flag = text_anchor_flag \/ flag = colon_anchor_flag ->
           seekFn col flag [root_frame] = (Some [], [root_frame])).
Proof.
  split; [reflexivity|].
  intros H. specialize (H 1 colon_anchor_flag ltac:(lia) (or_intror eq_refl)).
  discriminate H.
Qed.

(* ------------------------------------------------------------------------- *)
(** ** Accessors *)

Lemma index_key_loop_hit (children : list Node) (key : string) (c : Node) :
  index_key_loop children key = Some c ->
  exists before after,
    children = before ++ c :: after
    /\ m_type c = Key /\ m_text c = key
    /\ Forall (fun b => ~ (m_type b = Key /\ m_text b = key)) before.
Proof.
  induction children as [|x children IH]; simpl; [discriminate|].
  destruct (NodeType_eqb (m_type x) Key) eqn:Ety.
  - destruct (list_eq_dec ascii_dec (m_text x) key) as [Etx|Ntx].
    + intros [= <-]. exists [], children. repeat split; auto.
      destruct (m_type x); try discriminate; reflexivity.
    + intros H. destruct (IH H) as (b & a & -> & Hty & Htx & Hb).
      exists (x :: b), a. repeat split; auto.
      constructor; [|assumption]. intros [_ E]. contradiction.
  - intros H. destruct (IH H) as (b & a & -> & Hty & Htx & Hb).
    exists (x :: b), a. repeat split; auto.
    constructor; [|assumption]. intros [E _]. rewrite E in Ety. discriminate.
Qed.

Lemma index_key_loop_miss (children : list Node) (key : string) :
  index_key_loop children key = None <->
  Forall (fun b => ~ (m_type b = Key /\ m_text b = key)) children.
Proof.
  induction children as [|x children IH]; simpl.
  - split; auto.
  - destruct (NodeType_eqb (m_type x) Key) eqn:Ety.
    + destruct (list_eq_dec ascii_dec (m_text x) key) as [Etx|Ntx].
      * split; [discriminate|]. intros H. inversion H as [|? ? Hx _]; subst.
        exfalso. apply Hx. split; [|reflexivity].
        destruct (m_type x); try discriminate; reflexivity.
      * rewrite IH. split; intros H.
        -- constructor; [|assumption]. intros [_ E]. contradiction.
        -- now inversion H.
    + rewrite IH. split; intros H.
      * constructor; [|assumption]. intros [E _]. rewrite E in Ety.
        discriminate.
      * now inversion H.
Qed.

Lemma HasValue_spec (n : Node) :
  HasValue n = true ->
  exists v, m_children n = [v] /\ m_type v = Value.
Proof.
  unfold HasValue.
  destruct (NodeType_eqb (m_type n) Key || NodeType_eqb (m_type n) Group);
    [|discriminate].
  destruct (Z.of_nat (length (m_children n)) =? 1) eqn:E; [|discriminate].
  apply Z.eqb_eq in E.
  destruct (m_children n) as [|v [|w l]]; simpl in *; try lia.
  intros H. exists v. split; [reflexivity|].
  destruct (m_type v); try discriminate; reflexivity.
Qed.

(** C8: a lookup that misses yields the sentinel.  An index that is out of
    range and a key no child carries give the reference to [INVALID]; a key
    that is present gives the first child of kind [Key] with that very
    text; [GetValue] on a node whose children are not exactly one [Value]
    gives the text of [INVALID], whatever the sentinel holds. *)
Theorem lookup_miss_is_sentinel (n : Node) :
  (forall index, Z.of_nat (length (m_children n)) <= index ->
     index_at n index = None)
  /\ (forall key, index_key n key = None <->
        Forall (fun b => ~ (m_type b = Key /\ m_text b = key)) (m_children n))
  /\ (forall key c, index_key n key = Some c ->
        exists before after,
          m_children n = before ++ c :: after
          /\ m_type c = Key /\ m_text c = key
          /\ Forall (fun b => ~ (m_type b = Key /\ m_text b = key)) before)
  /\ (forall sentinel,
        (~ exists v, m_children n = [v] /\ m_type v = Value) ->
        GetValue sentinel n = m_text sentinel).
Proof.
  repeat split.
  - intros index H. unfold index_at.
    destruct (index <? Z.of_nat (length (m_children n))) eqn:E;
      [apply Z.ltb_lt in E; lia | reflexivity].
  - now apply index_key_loop_miss.
  - now apply index_key_loop_miss.
  - intros key c. apply index_key_loop_hit.
  - intros sentinel H. unfold GetValue.
    destruct (HasValue n) eqn:E; [|reflexivity].
    exfalso. apply H. now apply HasValue_spec.
Qed.

Lemma lookup_miss_is_sentinel_witness :
  index_at (root_of [MakeKey (lit "a")]) 1 = None
  /\ index_key (root_of [MakeKey (lit "a")]) (lit "b") = None
  /\ GetValue INVALID
       (mkNode Key (lit "a") [MakeValue (lit "x"); MakeValue (lit "y")])
     = m_text INVALID.
Proof.
  split; [|split].
  - apply (proj1 (lookup_miss_is_sentinel (root_of [MakeKey (lit "a")]))).
    simpl. lia.
  - apply (proj1 (proj2 (lookup_miss_is_sentinel
                           (root_of [MakeKey (lit "a")])))).
    constructor; [|constructor]. intros [_ H]. discriminate H.
  - apply (proj2 (proj2 (proj2 (lookup_miss_is_sentinel
             (mkNode Key (lit "a") [MakeValue (lit "x"); MakeValue (lit "y")]))))
             INVALID).
    intros (v & H & _). discriminate H.
Defined.

(** In range, the positional index is the child at that place. *)
Lemma index_at_in_range (n : Node) (index : Z) :
  0 <= index < Z.of_nat (length (m_children n)) ->
  exists c, index_at n index = Some c
            /\ nth_error (m_children n) (Z.to_nat index) = Some c.
Proof.
  intros H. unfold index_at.
  destruct (index <? Z.of_nat (length (m_children n))) eqn:E;
    [|apply Z.ltb_ge in E; lia].
  destruct (nth_error (m_children n) (Z.to_nat index)) eqn:En.
  - eauto.
  - apply nth_error_None in En. lia.
Qed.

(* ------------------------------------------------------------------------- *)
(** ** [RemoveNodeAtIndex] *)

Lemma split_at_index (A : Type) (l : list A) (i : nat) :
  (i < length l)%nat -> exists x, l = firstn i l ++ x :: skipn (S i) l.
Proof.
  revert i. induction l as [|a l IH]; intros i Hi; simpl in Hi; [lia|].
  destruct i as [|i].
  - exists a. reflexivity.
  - destruct (IH i ltac:(lia)) as [x Hx]. exists x.
    change (a :: l = a :: (firstn i l ++ x :: skipn (S i) l)).
    now f_equal.
Qed.

(** C10: [RemoveNodeAtIndex] does not check its index, and is defined only
    below the number of children; there it removes the child at the index
    and nothing else: the children before it keep their places, those
    behind it move up by one. *)
Theorem RemoveNodeAtIndex_spec (n : Node) (idx : Z) :
  0 <= idx ->
  (Z.of_nat (length (m_children n)) <= idx ->
     RemoveNodeAtIndex n idx = Undefined /\ index_at n idx = None)
  /\ (idx < Z.of_nat (length (m_children n)) ->
      exists n',
        RemoveNodeAtIndex n idx = Ok n'
        /\ m_type n' = m_type n /\ m_text n' = m_text n
        /\ (exists before x after,
              m_children n = before ++ x :: after
              /\ length before = Z.to_nat idx
              /\ m_children n' = before ++ after)
        /\ S (length (m_children n')) = length (m_children n)
        /\ (forall j, (j < Z.to_nat idx)%nat ->
              nth_error (m_children n') j = nth_error (m_children n) j)
        /\ (forall j, (Z.to_nat idx <= j)%nat ->
              nth_error (m_children n') j = nth_error (m_children n) (S j))).
Proof.
  intros Hidx. unfold RemoveNodeAtIndex, index_at. split.
  - intros H.
    replace (idx <? Z.of_nat (length (m_children n))) with false
      by (symmetry; apply Z.ltb_ge; lia).
    now rewrite andb_false_r.
  - intros H.
    replace (idx <? Z.of_nat (length (m_children n))) with true
      by (symmetry; apply Z.ltb_lt; lia).
    replace (0 <=? idx) with true by (symmetry; apply Z.leb_le; lia).
    cbn [andb].
    destruct (split_at_index _ (m_children n) (Z.to_nat idx)) as [x Hx];
      [lia|].
    assert (Hlen : length (firstn (Z.to_nat idx) (m_children n))
                   = Z.to_nat idx) by (apply firstn_length_le; lia).
    remember (firstn (Z.to_nat idx) (m_children n)) as before eqn:Eb.
    remember (skipn (S (Z.to_nat idx)) (m_children n)) as after eqn:Ea.
    eexists. split; [reflexivity|]. cbn [m_type m_text m_children].
    rewrite Hx. repeat split.
    + exists before, x, after. repeat split; assumption.
    + rewrite !length_app. simpl. lia.
    + intros j Hj. rewrite !nth_error_app1 by lia. reflexivity.
    + intros j Hj. rewrite !nth_error_app2 by lia. rewrite Hlen.
      replace (S j - Z.to_nat idx)%nat with (S (j - Z.to_nat idx)) by lia.
      reflexivity.
Qed.

Lemma RemoveNodeAtIndex_spec_witness :
  exists n',
    RemoveNodeAtIndex
      (root_of [MakeValue (lit "a"); MakeValue (lit "b"); MakeValue (lit "c")])
      1
    = Ok n'
    /\ m_children n' = [MakeValue (lit "a"); MakeValue (lit "c")].
Proof.
  destruct (RemoveNodeAtIndex_spec
              (root_of [MakeValue (lit "a"); MakeValue (lit "b");
                        MakeValue (lit "c")]) 1 ltac:(lia))
    as [_ H].
  destruct (H ltac:(simpl; lia)) as (n' & E & _).
  exists n'. split; [exact E|].
  vm_compute in E. injection E as <-. reflexivity.
Defined.

(* ------------------------------------------------------------------------- *)
(** ** [Trim], [Tokenize] and [Parse] always complete *)

Lemma find_aux_bound (c : ascii) (s : string) (i : Z) :
  find_aux c s i = npos \/ i <= find_aux c s i < i + len s.
Proof.
  revert i. induction s as [|x s IH]; intros i; simpl; [now left|].
  destruct (eqc x c).
  - right. unfold len. simpl length. lia.
  - destruct (IH (i + 1)) as [E|E]; [now left|].
    right. unfold len in *. simpl length. lia.
Qed.

Lemma find_lower_bound (s : string) (c : ascii) (pos : Z) :
  find s c pos = npos \/ pos <= find s c pos.
Proof.
  unfold find.
  destruct (find_aux_bound c (skipn (Z.to_nat pos) s) pos) as [E|E];
    [now left | right; lia].
Qed.

Lemma Trim_scan_start (token : string) (i start end_ : Z) (found : bool) :
  fst (Trim_scan token i start end_ found) = start
  \/ i <= fst (Trim_scan token i start end_ found) < i + len token.
Proof.
  revert i start end_ found.
  induction token as [|c token IH]; intros i start end_ found; simpl;
    [now left|].
  match goal with
  | |- context [Trim_scan token (i + 1) ?s ?e ?f] =>
      destruct (IH (i + 1) s e f) as [E|E]
  end.
  - rewrite E.
    destruct (negb (eqc c SPACE) && negb found); [right | now left].
    unfold len. simpl length. lia.
  - right. unfold len in *. simpl length. lia.
Qed.

Lemma substr_ok (s : string) (pos n : Z) :
  pos <= len s -> exists r, substr s pos n = Ok r.
Proof.
  intros H. unfold substr.
  destruct (len s <? pos) eqn:E; [apply Z.ltb_lt in E; lia | eauto].
Qed.

Lemma erase_ok (s : string) (pos n : Z) :
  0 <= pos <= len s ->
  exists r, erase s pos n = Ok r /\ len r <= len s.
Proof.
  intros H. unfold erase.
  destruct (len s <? pos) eqn:E; [apply Z.ltb_lt in E; lia|].
  eexists. split; [reflexivity|].
  unfold len in *. rewrite length_app, length_firstn, length_skipn. lia.
Qed.

Lemma Trim_dedent_total (fuel : nat) (col : Z) :
  forall (result : string) (p : Z),
    p = npos \/ (0 <= p /\ 0 < Z.of_nat fuel /\ len result - p < Z.of_nat fuel) ->
    exists r, Trim_dedent fuel col result p = Ok r.
Proof.
  induction fuel as [|fuel IH]; intros result p H.
  - simpl. destruct (p =? npos) eqn:E; [eauto|].
    apply Z.eqb_neq in E. destruct H as [H|H]; [contradiction | lia].
  - simpl. destruct (p =? npos) eqn:E; [eauto|].
    apply Z.eqb_neq in E. destruct H as [H|(Hp & _ & Hfuel)]; [contradiction|].
    destruct (len result <=? p + 1) eqn:Ebreak; [eauto|].
    apply Z.leb_gt in Ebreak.
    match goal with
    | |- context [erase result (p + 1) ?k] =>
        destruct (erase_ok result (p + 1) k) as (r' & -> & Hr');
          [lia|]
    end.
    simpl. apply IH.
    destruct (find_lower_bound r' LF (p + 1)) as [F|F]; [now left|].
    right. lia.
Qed.

Theorem Trim_total (token : string) (col : Z) :
  exists r, Trim token col = Ok r.
Proof.
  unfold Trim.
  destruct (Trim_scan token 0 0 (wrap64 (len token - 1)) false)
    as [start end_] eqn:Escan.
  assert (Hstart : 0 <= start <= len token).
  { pose proof (Trim_scan_start token 0 0 (wrap64 (len token - 1)) false) as H.
    rewrite Escan in H. simpl in H. unfold len in *. lia. }
  destruct (substr_ok token start (wrap64 (end_ - start + 1)))
    as [result ->]; [lia|].
  cbn [bind]. destruct (starts_with result DQUOTE) eqn:Equote; [|eauto].
  match goal with
  | |- context [substr result 1 ?k] =>
      destruct (substr_ok result 1 k) as [result' ->]
  end.
  { destruct result; [discriminate|]. unfold len. simpl length. lia. }
  cbn [bind]. apply Trim_dedent_total.
  destruct (find_lower_bound result' LF 0) as [F|F]; [now left|].
  right. unfold len. lia.
Qed.

Lemma Tokenize_step_total (pc c nc : ascii) (st : TokState) :
  typed_tokens (tokens st) ->
  exists st', Tokenize_step pc c nc st = Ok st' /\ typed_tokens (tokens st').
Proof.
  intros Hty. destruct st as [toks part col line scol sline q has com].
  unfold Tokenize_step. simpl in Hty.
  repeat match goal with
  | |- context [Trim ?t ?k] =>
      let r := fresh "r" in
      let E := fresh "E" in
      destruct (Trim_total t k) as [r E]; rewrite E; clear E; simpl bind
  | |- exists st', (if ?b then _ else _) = _ /\ _ => destruct b
  end;
  (eexists; split; [reflexivity|]; simpl; try assumption).
  all: unfold typed_tokens; rewrite Forall_app; split; [assumption|].
  all: constructor; [discriminate | constructor].
Qed.

Lemma Tokenize_loop_total (after : ascii) (data : string) :
  forall (i : Z) (prev : ascii) (st : TokState),
    typed_tokens (tokens st) ->
    exists st', Tokenize_loop after i prev data st = Ok st'
                /\ typed_tokens (tokens st').
Proof.
  induction data as [|c data IH]; intros i prev st Hty; simpl; [eauto|].
  match goal with
  | |- context [Tokenize_step ?pc c ?nc st] =>
      destruct (Tokenize_step_total pc c nc st Hty) as (st1 & -> & Hty1)
  end.
  simpl. now apply IH.
Qed.

Theorem Tokenize_total (data : string) :
  exists toks, Tokenize data = Ok toks /\ typed_tokens toks.
Proof.
  unfold Tokenize.
  destruct (Tokenize_loop_total NUL data 0 NUL TokState_init)
    as (st & -> & Hty); [constructor|].
  simpl. eauto.
Qed.

Lemma Parse_loop_total (toks : list Token) :
  typed_tokens toks ->
  forall root stack, exists r, Parse_loop toks root stack = Ok r.
Proof.
  induction 1 as [|t toks Ht _ IH]; intros root stack; simpl; [eauto|].
  destruct (type t); [contradiction | |].
  - destruct (seekFn (column t) text_anchor_flag stack) as [[p|] stack'];
      [apply IH | eauto].
  - destruct (seekFn (column t) colon_anchor_flag stack) as [[p|] stack'];
      [apply IH | eauto].
Qed.

Theorem Parse_total (data : string) : exists r, Parse data = Ok r.
Proof.
  unfold Parse.
  destruct (Tokenize_total data) as (toks & -> & Hty). simpl.
  destruct (Parse_loop_total toks Hty (mkNode None_ [] []) [root_frame])
    as [r Hr].
  unfold build. rewrite Hr. simpl. destruct r; eauto.
Qed.

(* ------------------------------------------------------------------------- *)
(** ** Single steps of the tokenizer *)

Lemma eqc_refl (c : ascii) : eqc c c = true.
Proof. apply Ascii.eqb_refl. Qed.

Lemma eqc_eq (a b : ascii) : eqc a b = true <-> a = b.
Proof. apply Ascii.eqb_eq. Qed.

Lemma eqc_neq (a b : ascii) : eqc a b = false <-> a <> b.
Proof. apply Ascii.eqb_neq. Qed.

(** A [#] outside quotes opens a comment. *)
Lemma step_hash (pc nc : ascii) (st : TokState) :
  inQuotes st = false ->
  Tokenize_step pc HASH nc st
  = Ok (mkTokState (tokens st) (partialToken st) (wrap32 (charCol st + 1))
          (charLine st)
          (if tokenHasContent st then tokenStartCol st
           else wrap32 (charCol st + 1))
          (if tokenHasContent st then tokenStartLine st else charLine st)
          false true true).
Proof.
  destruct st as [toks part col line scol sline q has com]; simpl.
  intros ->. destruct has, com; reflexivity.
Qed.

(** Inside a comment, a character other than a line feed changes the column
    only. *)
Lemma step_in_comment (pc c nc : ascii) (st : TokState) :
  inQuotes st = false -> inComment st = true -> tokenHasContent st = true ->
  eqc c LF = false ->
  Tokenize_step pc c nc st
  = Ok (mkTokState (tokens st) (partialToken st) (wrap32 (charCol st + 1))
          (charLine st) (tokenStartCol st) (tokenStartLine st)
          false true true).
Proof.
  destruct st as [toks part col line scol sline q has com]; simpl.
  intros -> -> -> E. rewrite E. simpl.
  destruct (eqc c HASH); simpl; reflexivity.
Qed.

(** The line feed that ends a comment clears the partial token. *)
Lemma step_comment_end (pc nc : ascii) (st : TokState) :
  inQuotes st = false -> inComment st = true ->
  Tokenize_step pc LF nc st
  = Ok (mkTokState (tokens st) [] 0 (wrap32 (charLine st + 1))
          (tokenStartCol st) (tokenStartLine st) false false false).
Proof.
  destruct st as [toks part col line scol sline q has com]; simpl.
  intros -> ->. destruct has; reflexivity.
Qed.

(** Between tokens a space is kept in the partial token, a line feed is
    dropped; neither yields a token. *)
Lemma step_idle_space (pc nc : ascii) (st : TokState) :
  inQuotes st = false -> inComment st = false -> tokenHasContent st = false ->
  Tokenize_step pc SPACE nc st
  = Ok (mkTokState (tokens st) (partialToken st ++ [SPACE])
          (wrap32 (charCol st + 1)) (charLine st) (tokenStartCol st)
          (tokenStartLine st) false false false).
Proof.
  destruct st as [toks part col line scol sline q has com]; simpl.
  intros -> -> ->. simpl. rewrite andb_false_r. reflexivity.
Qed.

Lemma step_idle_newline (pc nc : ascii) (st : TokState) :
  inQuotes st = false -> inComment st = false -> tokenHasContent st = false ->
  Tokenize_step pc LF nc st
  = Ok (mkTokState (tokens st) (partialToken st) 0 (wrap32 (charLine st + 1))
          (tokenStartCol st) (tokenStartLine st) false false false).
Proof.
  destruct st as [toks part col line scol sline q has com]; simpl.
  intros -> -> ->. reflexivity.
Qed.

(* ------------------------------------------------------------------------- *)
(** ** Comments *)

Lemma Tokenize_loop_comment_body (after : ascii) (body rest : string) :
  forallb (fun c => negb (eqc c LF)) body = true ->
  forall (i : Z) (prev : ascii) (st : TokState),
    inQuotes st = false -> inComment st = true -> tokenHasContent st = true ->
    Tokenize_loop after i prev (body ++ LF :: rest) st
    = Tokenize_loop after (i + len body + 1) LF rest
        (mkTokState (tokens st) [] 0 (wrap32 (charLine st + 1))
           (tokenStartCol st) (tokenStartLine st) false false false).
Proof.
  induction body as [|c body IH]; intros Hbody i prev st Hq Hcom Hhas.
  - simpl app. cbn [Tokenize_loop].
    rewrite step_comment_end by assumption. cbn [bind].
    f_equal. unfold len. simpl. lia.
  - simpl in Hbody. apply andb_prop in Hbody. destruct Hbody as [Hc Hbody].
    apply negb_true_iff in Hc.
    simpl app. cbn [Tokenize_loop].
    rewrite step_in_comment by assumption. cbn [bind].
    rewrite IH by (assumption || reflexivity). simpl.
    f_equal. unfold len. simpl length. lia.
Qed.

Lemma Tokenize_loop_comment (after : ascii) (body rest : string)
    (i : Z) (prev : ascii) (st : TokState) :
  forallb (fun c => negb (eqc c LF)) body = true ->
  inQuotes st = false ->
  Tokenize_loop after i prev (HASH :: body ++ LF :: rest) st
  = Tokenize_loop after (i + len body + 2) LF rest (after_comment st).
Proof.
  intros Hbody Hq. cbn [Tokenize_loop].
  rewrite step_hash by assumption. cbn [bind].
  rewrite Tokenize_loop_comment_body by (assumption || reflexivity).
  simpl. unfold after_comment. f_equal. lia.
Qed.

(** Spaces, line feeds and comments yield no token. *)
Lemma Tokenize_loop_no_content (after : ascii) (data : string) :
  forall (in_comment : bool) (i : Z) (prev : ascii) (st : TokState),
    no_content in_comment data = true ->
    inQuotes st = false -> inComment st = in_comment ->
    tokenHasContent st = in_comment ->
    exists st', Tokenize_loop after i prev data st = Ok st'
                /\ tokens st' = tokens st.
Proof.
  induction data as [|c data IH]; intros in_comment i prev st Hdata Hq Hcom Hhas.
  - simpl. eauto.
  - cbn [Tokenize_loop]. simpl in Hdata. destruct in_comment.
    + destruct (eqc c LF) eqn:Ec.
      * apply eqc_eq in Ec. subst c.
        rewrite step_comment_end by assumption. cbn [bind].
        edestruct IH as (st' & -> & Etok); [exact Hdata | reflexivity ..|].
        eauto.
      * rewrite step_in_comment by assumption. cbn [bind].
        edestruct IH as (st' & -> & Etok); [exact Hdata | reflexivity ..|].
        eauto.
    + destruct (eqc c HASH) eqn:Eh.
      * apply eqc_eq in Eh. subst c.
        rewrite step_hash by assumption. cbn [bind].
        edestruct IH as (st' & -> & Etok); [exact Hdata | reflexivity ..|].
        eauto.
      * apply andb_prop in Hdata. destruct Hdata as [Hc Hdata].
        apply orb_prop in Hc. destruct Hc as [Hc|Hc]; apply eqc_eq in Hc;
          subst c.
        -- rewrite step_idle_space by assumption. cbn [bind].
           edestruct IH as (st' & -> & Etok); [exact Hdata | reflexivity ..|].
           eauto.
        -- rewrite step_idle_newline by assumption. cbn [bind].
           edestruct IH as (st' & -> & Etok); [exact Hdata | reflexivity ..|].
           eauto.
Qed.

Lemma Tokenize_no_content (data : string) :
  no_content false data = true -> Tokenize data = Ok [].
Proof.
  intros H. unfold Tokenize.
  destruct (Tokenize_loop_no_content NUL data false 0 NUL TokState_init H)
    as (st' & -> & E); try reflexivity.
  simpl. now rewrite E.
Qed.

(* ------------------------------------------------------------------------- *)
(** ** The results of [Parse] *)

Lemma Parse_of_tokens (data : string) (toks : list Token) :
  Tokenize data = Ok toks ->
  Parse data
  = r <- build toks ;;
    match r with
    | Some root => Ok (Some (Simplify root))
    | None => Ok None
    end.
Proof. intros H. unfold Parse. now rewrite H. Qed.

(** C9: without tokens [Parse] returns a root without children, not the
    sentinel; the empty input and every input made of spaces, line feeds and
    comments are of this kind. *)
Theorem Parse_no_tokens :
  Parse [] = Ok (Some (root_of []))
  /\ (forall data, Tokenize data = Ok [] ->
        Parse data = Ok (Some (root_of []))
        /\ IsInvalid (Some (root_of [])) = false)
  /\ (forall data, no_content false data = true ->
        Tokenize data = Ok [] /\ Parse data = Ok (Some (root_of []))).
Proof.
  assert (H : forall data, Tokenize data = Ok [] ->
                Parse data = Ok (Some (root_of []))).
  { intros data E. rewrite (Parse_of_tokens _ _ E). reflexivity. }
  split; [now apply H|]. split.
  - intros data E. split; [now apply H | reflexivity].
  - intros data E. split; [now apply Tokenize_no_content|].
    now apply H, Tokenize_no_content.
Qed.

Lemma Parse_no_tokens_witness :
  Parse (lit "  " ++ [LF] ++ lit " # a: b" ++ [LF] ++ lit "#c")
  = Ok (Some (root_of [])).
Proof.
  apply (proj2 (proj2 Parse_no_tokens)). reflexivity.
Defined.

(** [Parse] completes on every input, without exception, failed assertion
    or endless loop; when the anchor search of a token leaves the stack
    empty it leaves by [return Node::INVALID]; so it does on every input
    whose first token is a colon. *)
Lemma Parse_failure_return :
  (forall data, exists r, Parse data = Ok r)
  /\ (forall t toks root stack,
        type t <> TNone ->
        fst (seekFn (column t) (anchor_flag (type t)) stack) = None ->
        Parse_loop (t :: toks) root stack = Ok None)
  /\ (forall data toks, Tokenize data = Ok toks -> build toks = Ok None ->
        Parse data = Ok None)
  /\ (forall data t toks, Tokenize data = Ok (t :: toks) -> type t = Colon ->
        Parse data = Ok None).
Proof.
  split; [apply Parse_total|]. split; [|split].
  - intros t toks root stack Ht Hseek. simpl.
    destruct (type t); [contradiction | |]; simpl in Hseek.
    + destruct (seekFn (column t) text_anchor_flag stack) as [[p|] s];
        [discriminate | reflexivity].
    + destruct (seekFn (column t) colon_anchor_flag stack) as [[p|] s];
        [discriminate | reflexivity].
  - intros data toks Htok Hbuild.
    rewrite (Parse_of_tokens _ _ Htok), Hbuild. reflexivity.
  - intros data t toks Htok Ht.
    rewrite (Parse_of_tokens _ _ Htok). unfold build. simpl. rewrite Ht.
    simpl. rewrite root_frame_rejects_colon. reflexivity.
Qed.

(** C2 fails on the code.  [Parse] does complete on every input, and the
    input [": x"], whose first token is a colon, makes it leave by
    [return Node::INVALID].  But [Parse] returns its [Node] by value: the
    caller holds a new object with the content of the sentinel, not the
    sentinel.  [IsInvalid] is false for the result on every input; and
    while the sentinel holds what it is initialised with, the result for
    [": x"] is the result for the empty document. *)
Theorem Parse_failure_is_a_copy :
  Parse (lit ": x") = Ok None
  /\ (forall sentinel, Parse_call sentinel (lit ": x") = Ok (Some sentinel))
  /\ (forall sentinel data,
        exists r, Parse_call sentinel data = Ok r /\ IsInvalid r = false)
  /\ Parse_call INVALID (lit ": x") = Parse_call INVALID []
  /\ Parse_call INVALID [] = Ok (Some (root_of [])).
Proof.
  assert (E : Parse (lit ": x") = Ok None) by reflexivity.
  split; [exact E|]. split; [|split; [|split]].
  - intros sentinel. unfold Parse_call. now rewrite E.
  - intros sentinel data. destruct (Parse_total data) as [r Er].
    unfold Parse_call. rewrite Er. cbn [bind].
    eexists. split; reflexivity.
  - reflexivity.
  - reflexivity.
Qed.

(* ------------------------------------------------------------------------- *)
(** ** [Simplify] *)

(** Induction over a node with the hypothesis for each of its children. *)
Lemma Node_ind_children (P : Node -> Prop) :
  (forall ty txt cs, Forall P cs -> P (mkNode ty txt cs)) ->
  forall n, P n.
Proof.
  intros H. fix IH 1. intros [ty txt cs]. apply H.
  induction cs as [|c cs IHcs]; constructor; [apply IH | exact IHcs].
Qed.

Lemma Simplify_unfold (ty : NodeType) (txt : string) (cs : list Node) :
  Simplify (mkNode ty txt cs)
  = mkNode
      (key_to_value ty
         (combine_values ty (collapse_group ty (map Simplify cs))))
      txt (combine_values ty (collapse_group ty (map Simplify cs))).
Proof. reflexivity. Qed.

Lemma NodeType_eqb_eq (a b : NodeType) : NodeType_eqb a b = true <-> a = b.
Proof. destruct a, b; simpl; split; congruence. Qed.

Lemma is_type_eq (t : NodeType) (n : Node) : is_type t n = true <-> m_type n = t.
Proof. apply NodeType_eqb_eq. Qed.

(** [Simplify] keeps the kind of a node, but for a key that turns value. *)
Lemma Simplify_is_group (n : Node) :
  is_type Group (Simplify n) = is_type Group n.
Proof.
  destruct n as [ty txt cs]. rewrite Simplify_unfold.
  unfold is_type, key_to_value. simpl.
  destruct ty; simpl; try reflexivity.
  now destruct (_ =? 0).
Qed.

Lemma Simplify_value (n : Node) :
  m_type n = Value -> m_type (Simplify n) = Value /\ m_text (Simplify n) = m_text n.
Proof.
  destruct n as [ty txt cs]. intros H. simpl in H. subst ty.
  rewrite Simplify_unfold. split; reflexivity.
Qed.

Lemma collapse_group_not_key (ty : NodeType) (ch : list Node) :
  ty <> Key -> collapse_group ty ch = ch.
Proof.
  intros H. unfold collapse_group. destruct ch as [|g [|g2 ch]]; try reflexivity.
  destruct ty; try reflexivity. contradiction.
Qed.

Lemma combine_values_merged (ty : NodeType) (ch : list Node) :
  combine_values ty ch = ch
  \/ (exists t, combine_values ty ch = [MakeValue t])
     /\ (1 < length ch)%nat.
Proof.
  unfold combine_values.
  destruct ((NodeType_eqb ty Key || NodeType_eqb ty Group)
            && (1 <? Z.of_nat (length ch))) eqn:E; [|now left].
  destruct (forallb (is_type Value) ch); [|now left].
  right. apply andb_prop in E. destruct E as [_ E]. apply Z.ltb_lt in E.
  split; [eauto | lia].
Qed.

Lemma combine_values_short (ty : NodeType) (ch : list Node) :
  (length ch <= 1)%nat -> combine_values ty ch = ch.
Proof.
  intros H. unfold combine_values.
  replace (1 <? Z.of_nat (length ch)) with false
    by (symmetry; apply Z.ltb_ge; lia).
  now rewrite andb_false_r.
Qed.

(** Whether the values are combined depends on the children only, for key
    and group alike. *)
Lemma combine_values_key_group (ch : list Node) :
  combine_values Key ch = combine_values Group ch.
Proof. reflexivity. Qed.

Lemma map_fixed (f : Node -> Node) (l : list Node) :
  map f l = l <-> Forall (fun x => f x = x) l.
Proof.
  induction l as [|x l IH]; simpl; split; intros H.
  - constructor.
  - reflexivity.
  - injection H as Hx Hl. constructor; [assumption | now apply IH].
  - inversion H as [|? ? Hx Hl]; subst. rewrite Hx. f_equal. now apply IH.
Qed.

(** What a group that [Simplify] leaves alone looks like. *)
Lemma stable_group (g : Node) :
  m_type g = Group -> Simplify g = g ->
  map Simplify (m_children g) = m_children g
  /\ combine_values Group (m_children g) = m_children g.
Proof.
  destruct g as [ty txt cs]. intros Hty H. simpl in Hty. subst ty.
  rewrite Simplify_unfold in H. injection H as H. cbn [m_children].
  rewrite collapse_group_not_key in H by discriminate.
  destruct (combine_values_merged Group (map Simplify cs)) as [E|[[t E] Hlen]].
  - rewrite E in H. split; [assumption|]. now rewrite <- H at 1 2.
  - rewrite E in H. rewrite length_map in Hlen. subst cs. simpl in Hlen. lia.
Qed.

(** A group whose simplified form has a group as its only child had one
    before. *)
Lemma group_chain_reflected (c g' : Node) :
  m_type c = Group ->
  m_children (Simplify c) = [g'] -> is_type Group g' = true ->
  exists c', m_children c = [c'] /\ is_type Group c' = true.
Proof.
  destruct c as [ty txt cs]. intros Hty H Hg'. simpl in Hty. subst ty.
  rewrite Simplify_unfold in H. cbn [m_children] in *.
  rewrite collapse_group_not_key in H by discriminate.
  destruct (combine_values_merged Group (map Simplify cs)) as [E|[[t E] Hlen]];
    rewrite E in H.
  - destruct cs as [|c' [|c'' cs]]; try discriminate.
    injection H as H. exists c'. split; [reflexivity|].
    now rewrite <- Simplify_is_group, H.
  - injection H as <-. discriminate.
Qed.

(** The shape [Simplify] leaves a node in is kept by a second run, when the
    children are. *)
Lemma Simplify_fixed_node (ty : NodeType) (txt : string) (ch : list Node) :
  map Simplify ch = ch ->
  collapse_group ty ch = ch ->
  combine_values ty ch = ch ->
  key_to_value ty ch = ty ->
  Simplify (mkNode ty txt ch) = mkNode ty txt ch.
Proof.
  intros H1 H2 H3 H4. rewrite Simplify_unfold, H1, H2, H3, H4. reflexivity.
Qed.

Lemma no_group_chain_children (ty : NodeType) (txt : string) (cs : list Node) :
  no_group_chain (mkNode ty txt cs) = true ->
  forallb no_group_chain cs = true.
Proof.
  intros H. simpl in H. apply andb_prop in H. now destruct H.
Qed.

Lemma Simplify_twice (n : Node) :
  no_group_chain n = true -> Simplify (Simplify n) = Simplify n.
Proof.
  induction n as [ty txt cs IH] using Node_ind_children. intros Hn.
  assert (Hch : map Simplify (map Simplify cs) = map Simplify cs).
  { apply map_fixed. apply Forall_map.
    pose proof (no_group_chain_children _ _ _ Hn) as Hcs.
    rewrite forallb_forall in Hcs. rewrite Forall_forall in IH |- *.
    intros c Hc. apply IH; [assumption | now apply Hcs]. }
  rewrite (Simplify_unfold ty txt cs).
  set (ch1 := map Simplify cs) in *.
  destruct ty.
  - (* None *)
    rewrite collapse_group_not_key by discriminate.
    unfold combine_values, key_to_value. cbn [NodeType_eqb orb andb].
    apply Simplify_fixed_node;
      [assumption | now apply collapse_group_not_key | reflexivity ..].
  - (* Group *)
    rewrite collapse_group_not_key by discriminate.
    change (key_to_value Group (combine_values Group ch1)) with Group.
    destruct (combine_values_merged Group ch1) as [E|[[t E] _]]; rewrite E.
    + apply Simplify_fixed_node;
        [assumption | now apply collapse_group_not_key | assumption
        | reflexivity].
    + reflexivity.
  - (* Key *)
    assert (Hplain :
      collapse_group Key ch1 = ch1 ->
      (forall g, ch1 = [g] -> is_type Group g = false) ->
      Simplify
        (mkNode
           (key_to_value Key (combine_values Key (collapse_group Key ch1)))
           txt (combine_values Key (collapse_group Key ch1)))
      = mkNode
          (key_to_value Key (combine_values Key (collapse_group Key ch1)))
          txt (combine_values Key (collapse_group Key ch1))).
    { intros Hc Hg. rewrite Hc.
      destruct (combine_values_merged Key ch1) as [E|[[t E] _]]; rewrite E.
      - destruct ch1 as [|x ch1'] eqn:Ech1.
        + reflexivity.
        + apply Simplify_fixed_node; try assumption. reflexivity.
      - reflexivity. }
    destruct ch1 as [|g [|g2 ch1']] eqn:Ech1.
    + apply Hplain; [reflexivity | discriminate].
    + destruct (is_type Group g) eqn:Eg.
      * (* the group is spliced out *)
        unfold collapse_group. cbn [NodeType_eqb andb]. rewrite Eg.
        destruct cs as [|c [|c2 cs']]; try discriminate.
        injection Ech1 as Ec. subst g.
        assert (Hcg : m_type c = Group).
        { apply is_type_eq. now rewrite <- Simplify_is_group. }
        injection Hch as Hstable.
        destruct (stable_group (Simplify c)) as [Hmap Hcomb];
          [now apply is_type_eq | assumption |].
        rewrite combine_values_key_group, Hcomb.
        destruct (m_children (Simplify c)) as [|g' gch] eqn:Egch.
        -- reflexivity.
        -- apply Simplify_fixed_node; try assumption; try reflexivity.
           destruct gch as [|g'' gch]; [|reflexivity].
           unfold collapse_group. cbn [NodeType_eqb andb].
           destruct (is_type Group g') eqn:Eg'; [|reflexivity].
           exfalso.
           destruct (group_chain_reflected c g' Hcg Egch Eg') as (c' & Hc' & Hgc').
           simpl in Hn. rewrite andb_true_r in Hn.
           destruct c as [cty ctxt ccs]. simpl in Hcg, Hc'. subst cty ccs.
           simpl in Hn. rewrite Hgc' in Hn. discriminate.
      * apply Hplain.
        -- unfold collapse_group. cbn [NodeType_eqb andb]. now rewrite Eg.
        -- intros g0 [= <-]. assumption.
    + apply Hplain; [reflexivity | discriminate].
  - (* Value *)
    rewrite collapse_group_not_key by discriminate.
    unfold combine_values, key_to_value. cbn [NodeType_eqb orb andb].
    apply Simplify_fixed_node;
      [assumption | now apply collapse_group_not_key | reflexivity ..].
Qed.

(* ------------------------------------------------------------------------- *)
(** ** Combining values *)

Lemma combine_text_join (l : list Node) :
  forall (size count : Z) (acc : string),
    size = count + Z.of_nat (length l) ->
    combine_text l size count acc = acc ++ join_with_space (map m_text l).
Proof.
  induction l as [|x l IH]; intros size count acc Hsize; simpl.
  - now rewrite app_nil_r.
  - rewrite (IH size (count + 1)) by (simpl length in Hsize; lia).
    destruct l as [|y l].
    + simpl in *. replace (count <? size - 1) with false
        by (symmetry; apply Z.ltb_ge; lia).
      now rewrite !app_nil_r.
    + replace (count <? size - 1) with true
        by (symmetry; apply Z.ltb_lt; simpl length in Hsize; lia).
      cbn [map]. rewrite <- !app_assoc. reflexivity.
Qed.

Lemma Simplify_values (l : list Node) :
  Forall (fun c => m_type c = Value) l ->
  forallb (is_type Value) (map Simplify l) = true
  /\ map m_text (map Simplify l) = map m_text l.
Proof.
  induction 1 as [|c l Hc _ [IH1 IH2]]; simpl; [split; reflexivity|].
  destruct (Simplify_value c Hc) as [Hty Htx]. split.
  - apply andb_true_intro. split; [now apply is_type_eq | assumption].
  - now rewrite Htx, IH2.
Qed.

Lemma Simplify_all_values (ty : NodeType) (txt : string) (children : list Node) :
  ty = Key \/ ty = Group ->
  (2 <= length children)%nat ->
  Forall (fun c => m_type c = Value) children ->
  Simplify (mkNode ty txt children)
  = mkNode ty txt [MakeValue (join_with_space (map m_text children))].
Proof.
  intros Hty Hlen Hval. rewrite Simplify_unfold.
  destruct (Simplify_values _ Hval) as [Hall Htext].
  assert (Hc : collapse_group ty (map Simplify children) = map Simplify children).
  { destruct children as [|a [|b l]]; simpl in Hlen; try lia. reflexivity. }
  rewrite Hc. unfold combine_values.
  replace (1 <? Z.of_nat (length (map Simplify children))) with true
    by (rewrite length_map; symmetry; apply Z.ltb_lt; lia).
  rewrite Hall.
  replace (NodeType_eqb ty Key || NodeType_eqb ty Group) with true
    by (destruct Hty; subst ty; reflexivity).
  cbn [andb]. rewrite combine_text_join by lia. rewrite Htext. cbn [app].
  destruct Hty; subst ty; reflexivity.
Qed.

(** The tokens of a key, its colon and a value in two pieces build one
    scalar value. *)
Lemma build_paragraph (k v1 v2 : string) (c1 c2 c3 c4 l1 l2 l3 l4 : Z) :
  0 < c1 < c2 -> c2 < c3 -> c2 < c4 ->
  exists raw,
    build [mkToken Text k c1 l1; mkToken Colon [] c2 l2;
           mkToken Text v1 c3 l3; mkToken Text v2 c4 l4] = Ok (Some raw)
    /\ Simplify raw
       = root_of [mkNode Key k [MakeValue (v1 ++ [SPACE] ++ v2)]].
Proof.
  intros H12 H23 H24. unfold build. cbn [Parse_loop type column].
  rewrite seekFn_hit by now apply root_frame_matches_text.
  cbn [Parse_loop type column].
  rewrite seekFn_hit
    by (unfold frame_matches; cbn; apply andb_true_intro; split;
        [apply Z.ltb_lt; lia | reflexivity]).
  cbn [Parse_loop type column].
  rewrite seekFn_hit
    by (unfold frame_matches; cbn; apply andb_true_intro; split;
        [apply Z.ltb_lt; lia | reflexivity]).
  cbn [Parse_loop type column].
  rewrite seekFn_miss
    by (unfold frame_matches; cbn; now rewrite andb_false_r).
  rewrite seekFn_hit
    by (unfold frame_matches; cbn; apply andb_true_intro; split;
        [apply Z.ltb_lt; lia | reflexivity]).
  eexists. split; [reflexivity|]. cbn.
  now rewrite <- app_assoc, app_nil_r.
Qed.

(* ------------------------------------------------------------------------- *)
(** ** The trees the builder makes *)

Lemma nth_error_update_nth_same (f : Node -> Node) (l : list Node) :
  forall i x, nth_error l i = Some x ->
              nth_error (update_nth i f l) i = Some (f x).
Proof.
  induction l as [|y l IH]; intros [|i] x H; simpl in *; try discriminate.
  - now injection H as ->.
  - now apply IH.
Qed.

Lemma nth_error_update_nth_other (f : Node -> Node) (l : list Node) :
  forall i j, i <> j -> nth_error (update_nth i f l) j = nth_error l j.
Proof.
  induction l as [|y l IH]; intros [|i] [|j] H; simpl; try reflexivity.
  - contradiction.
  - apply IH. congruence.
Qed.

Lemma forallb_update_nth (P : Node -> bool) (f : Node -> Node) (l : list Node) :
  forall i,
    forallb P l = true ->
    (forall x, nth_error l i = Some x -> P (f x) = true) ->
    forallb P (update_nth i f l) = true.
Proof.
  induction l as [|y l IH]; intros [|i] Hl Hf; simpl in *; try reflexivity.
  - apply andb_prop in Hl. destruct Hl as [_ Hl].
    now rewrite (Hf y eq_refl), Hl.
  - apply andb_prop in Hl. destruct Hl as [Hy Hl].
    rewrite Hy. now apply IH.
Qed.

Lemma m_type_AddNode_at (root : Node) (p : NodePtr) (c : Node) :
  m_type (AddNode_at root p c) = m_type root.
Proof. destruct p; reflexivity. Qed.

(** A pointer stays good when a node is added, and the kind of the node it
    points to stays. *)
Lemma node_at_AddNode_at (c : Node) (p : NodePtr) :
  forall root q n,
    node_at root q = Some n ->
    exists n', node_at (AddNode_at root p c) q = Some n'
               /\ m_type n' = m_type n.
Proof.
  induction p as [|j p IH]; intros root q n Hq.
  - destruct q as [|i q].
    + injection Hq as <-. eexists. split; reflexivity.
    + simpl in *. destruct (nth_error (m_children root) i) as [child|] eqn:E;
        [|discriminate].
      rewrite nth_error_app1 by (apply nth_error_Some; congruence).
      rewrite E. eauto.
  - destruct q as [|i q].
    + injection Hq as <-. eexists. split; reflexivity.
    + simpl in *. destruct (nth_error (m_children root) i) as [child|] eqn:E;
        [|discriminate].
      destruct (Nat.eq_dec j i) as [->|Hji].
      * rewrite (nth_error_update_nth_same _ _ _ _ E). now apply IH.
      * rewrite nth_error_update_nth_other by assumption. rewrite E. eauto.
Qed.

(** The pointer [AddNode] returns points to the node added. *)
Lemma node_at_last_child (c : Node) (p : NodePtr) :
  forall root n,
    node_at root p = Some n ->
    node_at (AddNode_at root p c) (last_child_ptr root p) = Some c.
Proof.
  unfold last_child_ptr.
  induction p as [|j p IH]; intros root n Hp; rewrite Hp.
  - injection Hp as <-. simpl.
    rewrite nth_error_app2, Nat.sub_diag by lia. reflexivity.
  - simpl in *. destruct (nth_error (m_children root) j) as [child|] eqn:E;
      [|discriminate].
    rewrite (nth_error_update_nth_same _ _ _ _ E).
    specialize (IH child n Hp). now rewrite Hp in IH.
Qed.

Lemma group_children_keys_unfold (n : Node) :
  group_children_keys n
  = (negb (is_type Group n) || forallb (is_type Key) (m_children n))
    && forallb group_children_keys (m_children n).
Proof. destruct n. reflexivity. Qed.

(** Adding a key below a group or the root, or a group below a key, keeps
    the children of all groups keys. *)
Lemma group_children_keys_AddNode_at (c : Node) (p : NodePtr) :
  group_children_keys c = true ->
  forall root n,
    group_children_keys root = true ->
    node_at root p = Some n ->
    (m_type n = Group -> m_type c = Key) ->
    group_children_keys (AddNode_at root p c) = true.
Proof.
  intros Hc. induction p as [|j p IH]; intros root n Hroot Hp Hkind.
  - injection Hp as Hp. subst n.
    rewrite group_children_keys_unfold in Hroot |- *.
    apply andb_prop in Hroot. destruct Hroot as [Hkeys Hsub].
    simpl. rewrite !forallb_app. simpl. rewrite Hsub, Hc. simpl.
    rewrite andb_true_r.
    unfold is_type in *. simpl in *.
    destruct (NodeType_eqb (m_type root) Group) eqn:E; [|reflexivity].
    simpl in *. rewrite Hkeys. simpl.
    rewrite Hkind by now apply NodeType_eqb_eq. reflexivity.
  - simpl in Hp. destruct (nth_error (m_children root) j) as [child|] eqn:E;
      [|discriminate].
    rewrite group_children_keys_unfold in Hroot |- *.
    apply andb_prop in Hroot. destruct Hroot as [Hkeys Hsub].
    apply andb_true_intro. split.
    + unfold is_type in *. simpl in *.
      destruct (NodeType_eqb (m_type root) Group); [|reflexivity].
      simpl in *. apply forallb_update_nth; [assumption|].
      intros x Hx. rewrite m_type_AddNode_at.
      rewrite forallb_forall in Hkeys. apply Hkeys.
      now apply nth_error_In with j.
    + simpl. apply forallb_update_nth; [assumption|].
      intros x Hx. rewrite E in Hx. injection Hx as <-.
      apply (IH child n); try assumption.
      rewrite forallb_forall in Hsub. apply Hsub.
      now apply nth_error_In with j.
Qed.

(** A search that succeeds ends at a frame that matches, and leaves the
    stack from that frame on. *)
Lemma seekFn_found (col flag : Z) (stack : list InternalStackData) :
  forall p stack',
    seekFn col flag stack = (Some p, stack') ->
    exists f rest above,
      stack' = f :: rest /\ stack = above ++ stack'
      /\ node f = p /\ frame_matches col flag f = true.
Proof.
  induction stack as [|f stack IH]; intros p stack' H; simpl in H;
    [discriminate|].
  destruct (frame_matches col flag f) eqn:E.
  - injection H as <- <-. exists f, stack, []. repeat split; assumption.
  - destruct (IH p stack' H) as (f' & rest & above & -> & -> & Hn & Hm).
    exists f', rest, (f :: above). repeat split; assumption.
Qed.

Lemma stack_ok_AddNode_at (root : Node) (stack : list InternalStackData)
    (p : NodePtr) (c : Node) :
  stack_ok root stack -> stack_ok (AddNode_at root p c) stack.
Proof.
  unfold stack_ok. intros H. apply Forall_forall. intros f Hf.
  rewrite Forall_forall in H. destruct (H f Hf) as (n & Hn & Hty).
  destruct (node_at_AddNode_at c p root (node f) n Hn) as (n' & Hn' & Hty').
  exists n'. split; [assumption | congruence].
Qed.

(** The invariant of the loop of [Parse]: the children of groups are keys,
    and the frames point to nodes of the kind of their tokens. *)
Lemma Parse_loop_group_children_keys (toks : list Token) :
  forall root stack raw,
    group_children_keys root = true -> stack_ok root stack ->
    Parse_loop toks root stack = Ok (Some raw) ->
    group_children_keys raw = true.
Proof.
  induction toks as [|t toks IH]; intros root stack raw Hroot Hstack H.
  - simpl in H. now injection H as <-.
  - simpl in H. destruct (type t) eqn:Et; [discriminate | |].
    + destruct (seekFn (column t) text_anchor_flag stack) as [[p|] stack']
        eqn:Eseek; [|discriminate].
      destruct (seekFn_found _ _ _ _ _ Eseek)
        as (f & rest & above & -> & -> & Hp & Hm).
      apply Forall_app in Hstack. destruct Hstack as [_ Hstack].
      pose proof Hstack as Hf. apply Forall_inv in Hf.
      destruct Hf as (n & Hn & Hty). rewrite Hp in Hn.
      apply (IH _ _ _) in H; [assumption | |].
      * apply (group_children_keys_AddNode_at (MakeKey (text t)) p eq_refl
                 root n); [assumption | assumption | reflexivity].
      * constructor.
        -- exists (MakeKey (text t)). split.
           ++ now apply node_at_last_child with n.
           ++ simpl. now rewrite Et.
        -- now apply stack_ok_AddNode_at.
    + destruct (seekFn (column t) colon_anchor_flag stack) as [[p|] stack']
        eqn:Eseek; [|discriminate].
      destruct (seekFn_found _ _ _ _ _ Eseek)
        as (f & rest & above & -> & -> & Hp & Hm).
      apply Forall_app in Hstack. destruct Hstack as [_ Hstack].
      pose proof Hstack as Hf. apply Forall_inv in Hf.
      destruct Hf as (n & Hn & Hty). rewrite Hp in Hn.
      assert (Hkey : m_type n = Key).
      { rewrite Hty. unfold frame_matches in Hm.
        apply andb_prop in Hm. destruct Hm as [_ Hm].
        destruct (type (token f)); [discriminate | reflexivity | discriminate]. }
      apply (IH _ _ _) in H; [assumption | |].
      * apply (group_children_keys_AddNode_at MakeGroup p eq_refl root n);
          [assumption | assumption | congruence].
      * constructor.
        -- exists MakeGroup. split.
           ++ now apply node_at_last_child with n.
           ++ simpl. now rewrite Et.
        -- now apply stack_ok_AddNode_at.
Qed.

Lemma group_children_keys_no_chain (n : Node) :
  group_children_keys n = true -> no_group_chain n = true.
Proof.
  induction n as [ty txt cs IH] using Node_ind_children. intros H.
  rewrite group_children_keys_unfold in H.
  apply andb_prop in H. destruct H as [Hkeys Hsub]. simpl in *.
  apply andb_true_intro. split.
  - unfold is_type in *. simpl in *.
    destruct (NodeType_eqb ty Group); [|reflexivity]. simpl in *.
    destruct cs as [|c [|c2 cs]]; try reflexivity.
    simpl in Hkeys. rewrite andb_true_r in Hkeys.
    apply NodeType_eqb_eq in Hkeys. now rewrite Hkeys.
  - rewrite forallb_forall in Hsub |- *. rewrite Forall_forall in IH.
    intros c Hc. apply IH; [assumption | now apply Hsub].
Qed.

(** The raw tree of the builder has no group below a group. *)
Lemma build_no_group_chain (toks : list Token) (raw : Node) :
  build toks = Ok (Some raw) -> no_group_chain raw = true.
Proof.
  intros H. apply group_children_keys_no_chain.
  apply (Parse_loop_group_children_keys toks (mkNode None_ [] []) [root_frame]);
    [reflexivity | | exact H].
  constructor; [|constructor].
  exists (mkNode None_ [] []). split; reflexivity.
Qed.

(** What [Parse] returns is in the shape [Simplify] leaves a tree in. *)
Lemma Parse_simplified (data : string) (t : Node) :
  Parse data = Ok (Some t) -> Simplify t = t.
Proof.
  unfold Parse. intros H.
  destruct (Tokenize data) as [toks| | | |]; try discriminate.
  cbn [bind] in H.
  destruct (build toks) as [[raw|]| | | |] eqn:Eb; try discriminate.
  cbn [bind] in H. injection H as <-.
  apply Simplify_twice. now apply build_no_group_chain with toks.
Qed.

(** C3, as the code has it: a second run of [Simplify] changes nothing on a
    tree in which no group has a group as its only child; the raw trees of
    the builder are of this kind. *)
Theorem Simplify_idempotent :
  (forall t, no_group_chain t = true -> Simplify (Simplify t) = Simplify t)
  /\ (forall toks raw, build toks = Ok (Some raw) ->
        no_group_chain raw = true
        /\ Simplify (Simplify raw) = Simplify raw).
Proof.
  split; [exact Simplify_twice|].
  intros toks raw H. pose proof (build_no_group_chain toks raw H) as Hraw.
  split; [assumption | now apply Simplify_twice].
Qed.

Lemma Simplify_idempotent_witness :
  Simplify
    (Simplify
       (mkNode Key (lit "k")
          [mkNode Group [] [MakeKey (lit "a"); MakeKey (lit "b")]]))
  = Simplify
      (mkNode Key (lit "k")
         [mkNode Group [] [MakeKey (lit "a"); MakeKey (lit "b")]]).
Proof. apply (proj1 Simplify_idempotent). reflexivity. Defined.

(** C3 as stated fails: under a key, a group that holds nothing but a group
    loses one level with each run. *)
Lemma Simplify_not_idempotent :
  Simplify
    (Simplify
       (mkNode Key (lit "k")
          [mkNode Group [] [mkNode Group [] [MakeValue (lit "a")]]]))
  <> Simplify
       (mkNode Key (lit "k")
          [mkNode Group [] [mkNode Group [] [MakeValue (lit "a")]]]).
Proof. vm_compute. discriminate. Qed.

(* ------------------------------------------------------------------------- *)
(** ** Scanning a piece of the input *)

Lemma last_default (A : Type) (l : list A) (x d d' : A) :
  last (x :: l) d = last (x :: l) d'.
Proof.
  revert x. induction l as [|y l IH]; intros x; [reflexivity|].
  change (last (y :: l) d = last (y :: l) d'). apply IH.
Qed.

Lemma last_cons (A : Type) (l : list A) (x d : A) :
  last (x :: l) d = last l x.
Proof.
  destruct l as [|y l]; [reflexivity|].
  change (last (y :: l) d = last (y :: l) x). apply last_default.
Qed.

(** The scan of [a ++ b] is the scan of [a], which looks ahead at the first
    character of [b], followed by the scan of [b]. *)
Lemma Tokenize_loop_app (after : ascii) (a b : string) :
  forall (i : Z) (prev : ascii) (st : TokState),
    Tokenize_loop after i prev (a ++ b) st
    = st' <- Tokenize_loop (hd after b) i prev a st ;;
      Tokenize_loop after (i + len a) (last a prev) b st'.
Proof.
  induction a as [|c a IH]; intros i prev st.
  - simpl. f_equal. unfold len. simpl. lia.
  - simpl app. cbn [Tokenize_loop].
    replace (match a ++ b with [] => after | n :: _ => n end)
      with (match a with [] => hd after b | n :: _ => n end)
      by (destruct a, b; reflexivity).
    destruct (Tokenize_step _ c _ st) as [st1| | | |]; cbn [bind];
      try reflexivity.
    rewrite IH.
    replace (i + 1 + len a) with (i + len (c :: a))
      by (unfold len; simpl length; lia).
    rewrite last_cons.
    reflexivity.
Qed.

(** One turn of the loop. *)
Lemma Tokenize_loop_cons (after : ascii) (c : ascii) (data : string)
    (i : Z) (prev : ascii) (st : TokState) :
  Tokenize_loop after i prev (c :: data) st
  = st' <- Tokenize_step
             (if 0 <=? int_cast (wrap64 (i - 1)) then prev else NUL)
             c (hd after data) st ;;
    Tokenize_loop after (i + 1) c data st'.
Proof. destruct data; reflexivity. Qed.

Lemma wrap32_add_l (a b : Z) : wrap32 (wrap32 a + b) = wrap32 (a + b).
Proof. unfold wrap32. apply Zplus_mod_idemp_l. Qed.

Lemma wrap32_small (a : Z) : 0 <= a < 2 ^ 32 -> wrap32 a = a.
Proof. intros H. unfold wrap32. now apply Z.mod_small. Qed.

Lemma wrap64_small (a : Z) : 0 <= a < 2 ^ 64 -> wrap64 a = a.
Proof. intros H. unfold wrap64. now apply Z.mod_small. Qed.

Lemma isDelimiter_false (c : ascii) :
  isDelimiter c = false ->
  eqc c COLON = false /\ eqc c LF = false /\ eqc c HASH = false
  /\ eqc c NUL = false.
Proof.
  unfold isDelimiter. intros H.
  destruct (eqc c COLON), (eqc c LF), (eqc c HASH), (eqc c NUL);
    try discriminate; auto.
Qed.

(** A colon outside quotes and comments is a token of its own. *)
Lemma step_colon (pc nc : ascii) (st : TokState) :
  inQuotes st = false -> inComment st = false ->
  Tokenize_step pc COLON nc st
  = Ok (mkTokState
          (tokens st ++ [mkToken Colon [] (wrap32 (charCol st + 1)) (charLine st)])
          [] (wrap32 (charCol st + 1)) (charLine st)
          (if tokenHasContent st then tokenStartCol st
           else wrap32 (charCol st + 1))
          (if tokenHasContent st then tokenStartLine st else charLine st)
          false false false).
Proof.
  destruct st as [toks part col line scol sline q has com]; simpl.
  intros -> ->. destruct has; reflexivity.
Qed.

(** A character of a token that has begun: the token is emitted when a
    delimiter follows. *)
Lemma step_word_char (pc c nc : ascii) (st : TokState) :
  inQuotes st = false -> inComment st = false -> tokenHasContent st = true ->
  isDelimiter c = false ->
  Tokenize_step pc c nc st
  = if isDelimiter nc then
      t <- Trim (partialToken st ++ [c]) (tokenStartCol st) ;;
      Ok (mkTokState
            (tokens st ++ [mkToken Text t (tokenStartCol st) (tokenStartLine st)])
            [] (wrap32 (charCol st + 1)) (charLine st) (tokenStartCol st)
            (tokenStartLine st) false false false)
    else
      Ok (mkTokState (tokens st) (partialToken st ++ [c])
            (wrap32 (charCol st + 1)) (charLine st) (tokenStartCol st)
            (tokenStartLine st) false true false).
Proof.
  destruct st as [toks part col line scol sline q has com]; simpl.
  intros -> -> -> Hc.
  destruct (isDelimiter_false _ Hc) as (_ & Hlf & Hhash & _).
  rewrite Hc, Hlf, Hhash. simpl. destruct (isDelimiter nc); reflexivity.
Qed.

(** The first character of an unquoted token fixes where the token starts
    and is then treated like any other of its characters. *)
Lemma step_first_char (pc c nc : ascii) (st : TokState) :
  inQuotes st = false -> inComment st = false -> tokenHasContent st = false ->
  isDelimiter c = false -> eqc c SPACE = false -> eqc c DQUOTE = false ->
  Tokenize_step pc c nc st
  = Tokenize_step pc c nc
      (mkTokState (tokens st) (partialToken st) (charCol st) (charLine st)
         (wrap32 (charCol st + 1)) (charLine st) false true false).
Proof.
  destruct st as [toks part col line scol sline q has com]; simpl.
  intros -> -> -> Hc Hsp Hdq.
  destruct (isDelimiter_false _ Hc) as (_ & Hlf & Hhash & _).
  rewrite Hc, Hlf, Hhash, Hsp, Hdq. reflexivity.
Qed.

(** A double quote in front of a token opens quote mode. *)
Lemma step_open_quote (pc nc : ascii) (st : TokState) :
  inQuotes st = false -> inComment st = false -> tokenHasContent st = false ->
  Tokenize_step pc DQUOTE nc st
  = Ok (mkTokState (tokens st) (partialToken st ++ [DQUOTE])
          (wrap32 (charCol st + 1)) (charLine st)
          (wrap32 (charCol st + 1)) (charLine st) true true false).
Proof.
  destruct st as [toks part col line scol sline q has com]; simpl.
  intros -> -> ->. reflexivity.
Qed.

(** In quote mode every character but the double quote is content. *)
Lemma step_in_quote (pc c nc : ascii) (st : TokState) :
  inQuotes st = true -> inComment st = false -> tokenHasContent st = true ->
  eqc c DQUOTE = false ->
  Tokenize_step pc c nc st
  = Ok (mkTokState (tokens st) (partialToken st ++ [c])
          (if eqc c LF then 0 else wrap32 (charCol st + 1))
          (if eqc c LF then wrap32 (charLine st + 1) else charLine st)
          (tokenStartCol st) (tokenStartLine st) true true false).
Proof.
  destruct st as [toks part col line scol sline q has com]; simpl.
  intros -> -> -> Hdq. rewrite Hdq. simpl. reflexivity.
Qed.

(** A double quote that no backslash precedes closes quote mode; the token
    is emitted when a delimiter follows. *)
Lemma step_close_quote (pc nc : ascii) (st : TokState) :
  inQuotes st = true -> inComment st = false -> tokenHasContent st = true ->
  eqc pc BACKSLASH = false -> isDelimiter nc = true ->
  Tokenize_step pc DQUOTE nc st
  = t <- Trim (partialToken st ++ [DQUOTE]) (tokenStartCol st) ;;
    Ok (mkTokState
          (tokens st ++ [mkToken Text t (tokenStartCol st) (tokenStartLine st)])
          [] (wrap32 (charCol st + 1)) (charLine st) (tokenStartCol st)
          (tokenStartLine st) false false false).
Proof.
  destruct st as [toks part col line scol sline q has com]; simpl.
  intros -> -> -> Hpc Hnc. rewrite Hpc, Hnc. reflexivity.
Qed.

(* ------------------------------------------------------------------------- *)
(** ** What [Trim] returns *)

Lemma len_app (a b : string) : len (a ++ b) = len a + len b.
Proof. unfold len. rewrite length_app. lia. Qed.

Lemma len_cons (c : ascii) (a : string) : len (c :: a) = 1 + len a.
Proof. unfold len. simpl length. lia. Qed.

Lemma len_nonneg (a : string) : 0 <= len a.
Proof. unfold len. lia. Qed.

Lemma to_nat_len (a : string) : Z.to_nat (len a) = length a.
Proof. unfold len. apply Nat2Z.id. Qed.

Lemma Trim_scan_spaces (sp rest : string) :
  all_spaces sp = true ->
  forall i start end_,
    Trim_scan (sp ++ rest) i start end_ false
    = Trim_scan rest (i + len sp) start end_ false.
Proof.
  induction sp as [|c sp IH]; intros Hsp i start end_.
  - simpl. f_equal. unfold len. simpl. lia.
  - simpl in Hsp. apply andb_prop in Hsp. destruct Hsp as [Hc Hsp].
    simpl. rewrite Hc. simpl. rewrite IH by assumption.
    f_equal. rewrite len_cons. lia.
Qed.

Lemma Trim_scan_found_spaces (sp : string) :
  all_spaces sp = true ->
  forall i start end_, Trim_scan sp i start end_ true = (start, end_).
Proof.
  induction sp as [|c sp IH]; intros Hsp i start end_; [reflexivity|].
  simpl in Hsp. apply andb_prop in Hsp. destruct Hsp as [Hc Hsp].
  simpl. rewrite Hc. simpl. now apply IH.
Qed.

Lemma Trim_scan_found_last (r sp : string) (x : ascii) :
  eqc x SPACE = false -> all_spaces sp = true ->
  forall i start end_,
    Trim_scan (r ++ x :: sp) i start end_ true = (start, i + len r).
Proof.
  intros Hx Hsp. induction r as [|c r IH]; intros i start end_.
  - simpl. rewrite Hx. simpl. rewrite Trim_scan_found_spaces by assumption.
    f_equal. unfold len. simpl. lia.
  - simpl. rewrite andb_false_r. rewrite IH. f_equal. rewrite len_cons. lia.
Qed.

(** A list that ends with a character other than a space. *)
Lemma ends_with_false_split (w : string) :
  w <> [] -> ends_with w SPACE = false ->
  exists r x, w = r ++ [x] /\ eqc x SPACE = false.
Proof.
  intros Hw He. unfold ends_with in He.
  destruct (rev w) as [|x r] eqn:E.
  - apply (f_equal (@rev ascii)) in E. rewrite rev_involutive in E.
    contradiction.
  - exists (rev r), x. split; [|assumption].
    apply (f_equal (@rev ascii)) in E. rewrite rev_involutive in E.
    exact E.
Qed.

(** The bounds [Trim] finds in spaces, a token text, spaces. *)
Lemma Trim_scan_token (sp w sp2 : string) (start end_ : Z) :
  all_spaces sp = true -> all_spaces sp2 = true ->
  w <> [] -> starts_with w SPACE = false -> ends_with w SPACE = false ->
  Trim_scan (sp ++ w ++ sp2) 0 start end_ false
  = (len sp, len sp + len w - 1).
Proof.
  intros Hsp Hsp2 Hw Hs He.
  rewrite Trim_scan_spaces by assumption.
  destruct (ends_with_false_split _ Hw He) as (r & x & -> & Hx).
  rewrite <- app_assoc. simpl app at 2.
  destruct r as [|c r].
  - simpl. rewrite Hx. simpl.
    rewrite Trim_scan_found_spaces by assumption.
    f_equal; unfold len; simpl; lia.
  - simpl in Hs. simpl. rewrite Hs. simpl.
    rewrite Trim_scan_found_last by assumption.
    f_equal; rewrite ?len_cons, ?len_app, ?len_cons.
    all: change (len []) with 0; lia.
Qed.

Lemma substr_middle (a w b : string) (n : Z) :
  n = len w ->
  substr (a ++ w ++ b) (len a) n = Ok w.
Proof.
  intros ->. unfold substr.
  replace (len (a ++ w ++ b) <? len a) with false
    by (symmetry; apply Z.ltb_ge; rewrite len_app;
        pose proof (len_nonneg (w ++ b)); lia).
  rewrite !to_nat_len. rewrite skipn_app, skipn_all, Nat.sub_diag.
  simpl. rewrite firstn_app, firstn_all, Nat.sub_diag. simpl.
  now rewrite app_nil_r.
Qed.

Lemma erase_middle (a s b : string) (pos n : Z) :
  pos = len a -> n = len s ->
  erase (a ++ s ++ b) pos n = Ok (a ++ b).
Proof.
  intros -> ->. unfold erase.
  replace (len (a ++ s ++ b) <? len a) with false
    by (symmetry; apply Z.ltb_ge; rewrite len_app;
        pose proof (len_nonneg (s ++ b)); lia).
  rewrite !to_nat_len. f_equal.
  rewrite firstn_app, firstn_all, Nat.sub_diag. simpl. rewrite app_nil_r.
  f_equal. rewrite app_assoc.
  rewrite skipn_app. rewrite length_app, Nat.sub_diag.
  replace (skipn (length a + length s) (a ++ s)) with (@nil ascii)
    by (symmetry; apply skipn_all2; rewrite length_app; lia).
  reflexivity.
Qed.

(** [Trim] on an unquoted token text between spaces. *)
Lemma Trim_word (sp w sp2 : string) (col : Z) :
  all_spaces sp = true -> all_spaces sp2 = true -> is_word w = true ->
  len w < 2 ^ 64 ->
  Trim (sp ++ w ++ sp2) col = Ok w.
Proof.
  intros Hsp Hsp2 Hw Hlen. unfold is_word in Hw.
  repeat (apply andb_prop in Hw; destruct Hw as [Hw ?]).
  assert (Hne : w <> []) by (destruct w; [discriminate | congruence]).
  unfold Trim.
  rewrite Trim_scan_token
    by (assumption || now apply negb_true_iff).
  rewrite substr_middle
    by (rewrite wrap64_small; pose proof (len_nonneg w); lia).
  cbn [bind].
  now replace (starts_with w DQUOTE) with false
    by (symmetry; now apply negb_true_iff).
Qed.

(* ------------------------------------------------------------------------- *)
(** ** Scanning spaces, an unquoted token, a quoted token *)

Lemma col_after_no_newline (s : string) :
  forallb (fun c => negb (eqc c LF)) s = true ->
  forall col, 0 <= col < 2 ^ 32 -> col_after col s = wrap32 (col + len s).
Proof.
  induction s as [|c s IH]; intros Hs col Hcol.
  - simpl. change (len []) with 0. rewrite Z.add_0_r.
    symmetry. now apply wrap32_small.
  - simpl in Hs. apply andb_prop in Hs. destruct Hs as [Hc Hs].
    apply negb_true_iff in Hc. simpl. rewrite Hc.
    rewrite IH; [|assumption | unfold wrap32; apply Z.mod_pos_bound; lia].
    rewrite wrap32_add_l, len_cons. f_equal. lia.
Qed.

Lemma all_spaces_no_newline (s : string) :
  all_spaces s = true -> forallb (fun c => negb (eqc c LF)) s = true.
Proof.
  unfold all_spaces. rewrite !forallb_forall. intros H c Hc.
  apply H in Hc. apply eqc_eq in Hc. now subst c.
Qed.

Lemma plain_no_newline (s : string) :
  plain s = true -> forallb (fun c => negb (eqc c LF)) s = true.
Proof.
  unfold plain. rewrite !forallb_forall. intros H c Hc.
  apply H in Hc. apply negb_true_iff in Hc.
  apply isDelimiter_false in Hc. apply negb_true_iff. tauto.
Qed.

Lemma col_after_app (a b : string) (col : Z) :
  col_after col (a ++ b) = col_after (col_after col a) b.
Proof. revert col. induction a as [|c a IH]; intros col; simpl; auto. Qed.

Lemma line_after_app (a b : string) (line : Z) :
  line_after line (a ++ b) = line_after (line_after line a) b.
Proof. revert line. induction a as [|c a IH]; intros line; simpl; auto. Qed.

(** Spaces in front of a token are gathered in the partial token. *)
Lemma scan_spaces (after : ascii) (sp : string) :
  all_spaces sp = true ->
  forall i prev toks part col line scol sline,
    Tokenize_loop after i prev sp
      (mkTokState toks part col line scol sline false false false)
    = Ok (mkTokState toks (part ++ sp) (col_after col sp) line scol sline
            false false false).
Proof.
  induction sp as [|c sp IH]; intros Hsp i prev toks part col line scol sline.
  - simpl. now rewrite app_nil_r.
  - simpl in Hsp. apply andb_prop in Hsp. destruct Hsp as [Hc Hsp].
    apply eqc_eq in Hc. subst c. cbn [Tokenize_loop].
    rewrite step_idle_space by reflexivity. cbn [bind].
    cbn [tokens partialToken charCol charLine tokenStartCol tokenStartLine].
    rewrite IH by assumption. rewrite <- app_assoc. reflexivity.
Qed.

(** The characters of an unquoted token behind its first one: the token is
    emitted at the last of them, in front of the delimiter [after]. *)
Lemma scan_word_tail (after : ascii) (w : string) :
  isDelimiter after = true -> plain w = true -> w <> [] ->
  forall i prev toks part col line scol sline t,
    Trim (part ++ w) scol = Ok t ->
    Tokenize_loop after i prev w
      (mkTokState toks part col line scol sline false true false)
    = Ok (mkTokState (toks ++ [mkToken Text t scol sline]) []
            (col_after col w) line scol sline false false false).
Proof.
  intros Hafter. induction w as [|c w IH]; intros Hw Hne; [contradiction|].
  intros i prev toks part col line scol sline t Htrim.
  simpl in Hw. apply andb_prop in Hw. destruct Hw as [Hc Hw].
  apply negb_true_iff in Hc.
  destruct (isDelimiter_false _ Hc) as (_ & Hlf & _).
  cbn [Tokenize_loop]. rewrite step_word_char by (reflexivity || assumption).
  cbn [tokens partialToken charCol charLine tokenStartCol tokenStartLine].
  destruct w as [|c2 w].
  - rewrite Hafter, Htrim. cbn [bind Tokenize_loop col_after].
    now rewrite Hlf.
  - assert (Hc2 : isDelimiter c2 = false).
    { simpl in Hw. apply andb_prop in Hw. destruct Hw as [Hc2 _].
      now apply negb_true_iff. }
    rewrite Hc2. cbn [bind].
    rewrite (IH Hw ltac:(discriminate) _ _ _ _ _ _ _ _ t)
      by (rewrite <- app_assoc; exact Htrim).
    cbn [col_after]. now rewrite Hlf.
Qed.

(** An unquoted token from its first character on. *)
Lemma scan_word (after : ascii) (w : string) :
  isDelimiter after = true -> plain w = true ->
  starts_with w SPACE = false -> starts_with w DQUOTE = false -> w <> [] ->
  forall i prev toks part col line scol sline t,
    Trim (part ++ w) (wrap32 (col + 1)) = Ok t ->
    Tokenize_loop after i prev w
      (mkTokState toks part col line scol sline false false false)
    = Ok (mkTokState (toks ++ [mkToken Text t (wrap32 (col + 1)) line]) []
            (col_after col w) line (wrap32 (col + 1)) line false false false).
Proof.
  intros Hafter Hw Hsp Hdq Hne i prev toks part col line scol sline t Htrim.
  rewrite <- (scan_word_tail after w Hafter Hw Hne i prev toks part col line _ _ t Htrim).
  destruct w as [|c w]; [contradiction|].
  simpl in Hw. apply andb_prop in Hw. destruct Hw as [Hc _].
  apply negb_true_iff in Hc.
  cbn [Tokenize_loop]. now rewrite step_first_char by (reflexivity || assumption).
Qed.

(** The content of a quoted token. *)
Lemma scan_in_quote (after : ascii) (out : string) :
  forallb (fun c => negb (eqc c DQUOTE)) out = true ->
  forall i prev toks part col line scol sline,
    Tokenize_loop after i prev out
      (mkTokState toks part col line scol sline true true false)
    = Ok (mkTokState toks (part ++ out) (col_after col out)
            (line_after line out) scol sline true true false).
Proof.
  induction out as [|c out IH]; intros Hout i prev toks part col line scol sline.
  - simpl. now rewrite app_nil_r.
  - simpl in Hout. apply andb_prop in Hout. destruct Hout as [Hc Hout].
    apply negb_true_iff in Hc. cbn [Tokenize_loop].
    rewrite step_in_quote by (reflexivity || assumption). cbn [bind].
    cbn [tokens partialToken charCol charLine tokenStartCol tokenStartLine].
    rewrite IH by assumption. rewrite <- app_assoc. reflexivity.
Qed.

(** A quoted token: opening quote, content without a double quote that
    does not end in a backslash, closing quote, in front of a delimiter. *)
Lemma scan_quoted (after : ascii) (out : string) :
  isDelimiter after = true ->
  forallb (fun c => negb (eqc c DQUOTE)) out = true ->
  eqc (last out DQUOTE) BACKSLASH = false ->
  forall i prev toks part col line scol sline t,
    Trim (part ++ DQUOTE :: out ++ [DQUOTE]) (wrap32 (col + 1)) = Ok t ->
    Tokenize_loop after i prev (DQUOTE :: out ++ [DQUOTE])
      (mkTokState toks part col line scol sline false false false)
    = Ok (mkTokState (toks ++ [mkToken Text t (wrap32 (col + 1)) line]) []
            (col_after col (DQUOTE :: out ++ [DQUOTE]))
            (line_after line (DQUOTE :: out ++ [DQUOTE]))
            (wrap32 (col + 1)) line false false false).
Proof.
  intros Hafter Hout Hlast i prev toks part col line scol sline t Htrim.
  cbn [Tokenize_loop]. rewrite step_open_quote by reflexivity. cbn [bind].
  cbn [tokens partialToken charCol charLine tokenStartCol tokenStartLine].
  rewrite Tokenize_loop_app, scan_in_quote by assumption. cbn [bind hd].
  cbn [Tokenize_loop].
  rewrite step_close_quote; try reflexivity; try assumption.
  - cbn [tokens partialToken charCol charLine tokenStartCol tokenStartLine].
    rewrite <- !app_assoc. cbn [app]. rewrite Htrim. cbn [bind].
    cbn [col_after line_after]. change (eqc DQUOTE LF) with false. cbn iota.
    rewrite col_after_app, line_after_app. reflexivity.
  - destruct (0 <=? int_cast (wrap64 (i + 1 + len out - 1)));
      [assumption | reflexivity].
Qed.

(* ------------------------------------------------------------------------- *)
(** ** Quoting and its inverse *)

Lemma find_aux_absent (c : ascii) (l : string) (i : Z) :
  forallb (fun x => negb (eqc x c)) l = true -> find_aux c l i = npos.
Proof.
  revert i. induction l as [|x l IH]; intros i Hl; [reflexivity|].
  simpl in Hl. apply andb_prop in Hl. destruct Hl as [Hx Hl].
  apply negb_true_iff in Hx. simpl. rewrite Hx. now apply IH.
Qed.

Lemma find_aux_first (c : ascii) (l r : string) (i : Z) :
  forallb (fun x => negb (eqc x c)) l = true ->
  find_aux c (l ++ c :: r) i = i + len l.
Proof.
  revert i. induction l as [|x l IH]; intros i Hl.
  - simpl. rewrite eqc_refl. change (len []) with 0. lia.
  - simpl in Hl. apply andb_prop in Hl. destruct Hl as [Hx Hl].
    apply negb_true_iff in Hx. simpl. rewrite Hx.
    rewrite IH by assumption. rewrite len_cons. lia.
Qed.

Lemma find_behind (a s : string) (c : ascii) (pos : Z) :
  pos = len a -> find (a ++ s) c pos = find_aux c s pos.
Proof.
  intros ->. unfold find. rewrite to_nat_len.
  now rewrite skipn_app, skipn_all, Nat.sub_diag.
Qed.

(** A string is free of line feeds or has a first one. *)
Lemma first_newline (b : string) :
  forallb (fun x => negb (eqc x LF)) b = true
  \/ exists l b', b = l ++ LF :: b'
                  /\ forallb (fun x => negb (eqc x LF)) l = true.
Proof.
  induction b as [|x b IH]; [now left|].
  destruct (eqc x LF) eqn:Ex.
  - right. apply eqc_eq in Ex. subst x. exists [], b. split; reflexivity.
  - destruct IH as [IH|(l & b' & -> & Hl)].
    + left. simpl. now rewrite Ex.
    + right. exists (x :: l), b'. split; [reflexivity|]. simpl. now rewrite Ex.
Qed.

Lemma pad_newlines_plain (col : nat) (l : string) :
  forallb (fun x => negb (eqc x LF)) l = true -> pad_newlines col l = l.
Proof.
  induction l as [|x l IH]; intros Hl; [reflexivity|].
  simpl in Hl. apply andb_prop in Hl. destruct Hl as [Hx Hl].
  apply negb_true_iff in Hx. simpl. rewrite Hx. f_equal. now apply IH.
Qed.

Lemma pad_newlines_first (col : nat) (l b : string) :
  forallb (fun x => negb (eqc x LF)) l = true ->
  pad_newlines col (l ++ LF :: b)
  = l ++ LF :: repeat SPACE col ++ pad_newlines col b.
Proof.
  induction l as [|x l IH]; intros Hl.
  - reflexivity.
  - simpl in Hl. apply andb_prop in Hl. destruct Hl as [Hx Hl].
    apply negb_true_iff in Hx. simpl. rewrite Hx. f_equal. now apply IH.
Qed.

Lemma pad_newlines_length (col : nat) (b : string) :
  (length b <= length (pad_newlines col b))%nat.
Proof.
  induction b as [|x b IH]; simpl; [lia|].
  destruct (eqc x LF); simpl; [rewrite length_app|]; lia.
Qed.

Lemma spaces_no_newline (n : nat) :
  forallb (fun x => negb (eqc x LF)) (repeat SPACE n) = true.
Proof. induction n as [|n IH]; [reflexivity | exact IH]. Qed.

Lemma forallb_app_true (A : Type) (f : A -> bool) (a b : list A) :
  forallb f a = true -> forallb f b = true -> forallb f (a ++ b) = true.
Proof. intros Ha Hb. rewrite forallb_app, Ha, Hb. reflexivity. Qed.

(** The [while] loop of [Trim] takes out the padding [pad_newlines] puts
    in: [a] is the part of the text already seen, [b] the rest. *)
Lemma Trim_dedent_pad (col : Z) (fuel : nat) :
  0 <= col ->
  forall a b,
    (length b < fuel)%nat ->
    len (a ++ pad_newlines (Z.to_nat col) b) < npos ->
    Trim_dedent fuel col (a ++ pad_newlines (Z.to_nat col) b)
      (find (a ++ pad_newlines (Z.to_nat col) b) LF (len a))
    = Ok (a ++ b).
Proof.
  intros Hcol. induction fuel as [|fuel IH]; intros a b Hfuel Hlen; [lia|].
  destruct (first_newline b) as [Hb|(l & b' & -> & Hl)].
  - rewrite pad_newlines_plain by assumption.
    rewrite find_behind, find_aux_absent by (reflexivity || assumption).
    reflexivity.
  - rewrite pad_newlines_first in * by assumption.
    set (P := Z.to_nat col) in *.
    rewrite find_behind, find_aux_first by (reflexivity || assumption).
    rewrite !len_app, len_cons, len_app in Hlen.
    pose proof (len_nonneg a). pose proof (len_nonneg l).
    pose proof (len_nonneg (repeat SPACE P)).
    pose proof (len_nonneg (pad_newlines P b')).
    cbn [Trim_dedent].
    replace (len a + len l =? npos) with false
      by (symmetry; apply Z.eqb_neq; lia).
    set (result := a ++ l ++ LF :: repeat SPACE P ++ pad_newlines P b').
    assert (Eres : result
                   = (a ++ l ++ [LF]) ++ repeat SPACE P ++ pad_newlines P b').
    { unfold result. rewrite <- !app_assoc. reflexivity. }
    assert (Hres : len result < npos).
    { unfold result. rewrite !len_app, len_cons, len_app. exact Hlen. }
    assert (Elen : len (a ++ l ++ [LF]) = len a + len l + 1).
    { rewrite !len_app. change (len [LF]) with 1. lia. }
    assert (ElenP : len (repeat SPACE P) = col).
    { unfold len. rewrite repeat_length. unfold P. lia. }
    assert (Elenres : len result
                      = len a + len l + 1 + col + len (pad_newlines P b')).
    { rewrite Eres, len_app, Elen, len_app, ElenP. lia. }
    destruct (len result <=? len a + len l + 1) eqn:Ebreak.
    + (* nothing behind the line feed *)
      apply Z.leb_le in Ebreak.
      assert (HP : col = 0) by lia.
      assert (Hpad : length (pad_newlines P b') = 0%nat)
        by (unfold len in *; lia).
      pose proof (pad_newlines_length P b') as Hb'.
      rewrite Hpad in Hb'.
      destruct b' as [|x b']; [|simpl in Hb'; lia].
      unfold result, P. rewrite HP. reflexivity.
    + apply Z.leb_gt in Ebreak.
      (* the line behind the line feed holds the padding at least *)
      assert (Hmin :
        Z.min col
          (if find result LF (len a + len l + 1) =? npos
           then len result - (len a + len l + 1)
           else find result LF (len a + len l + 1) - (len a + len l + 1))
        = col).
      { assert (Hnext :
          find result LF (len a + len l + 1)
          = find_aux LF (repeat SPACE P ++ pad_newlines P b')
              (len a + len l + 1))
          by (rewrite Eres; apply find_behind; symmetry; exact Elen).
        rewrite Hnext.
        destruct (first_newline b') as [Hb'|(l' & b'' & Eb' & Hl')].
        - rewrite pad_newlines_plain by assumption.
          rewrite find_aux_absent
            by (apply forallb_app_true; [apply spaces_no_newline | assumption]).
          change (npos =? npos) with true. cbn iota. lia.
        - rewrite Eb', pad_newlines_first by assumption.
          rewrite app_assoc.
          rewrite find_aux_first
            by (apply forallb_app_true; [apply spaces_no_newline | assumption]).
          rewrite len_app, ElenP.
          rewrite Eb', pad_newlines_first in Elenres by assumption.
          rewrite !len_app, len_cons in Elenres. pose proof (len_nonneg l').
          pose proof (len_nonneg (repeat SPACE P ++ pad_newlines P b'')).
          replace (len a + len l + 1 + (col + len l') =? npos) with false
            by (symmetry; apply Z.eqb_neq; lia).
          lia. }
      rewrite Hmin.
      rewrite Eres at 1.
      rewrite erase_middle by (rewrite ?Elen, ?ElenP; reflexivity).
      cbn [bind].
      replace (len a + len l + 1) with (len (a ++ l ++ [LF]))
        by exact Elen.
      rewrite IH.
      * rewrite <- !app_assoc. reflexivity.
      * rewrite length_app in Hfuel. simpl in Hfuel. lia.
      * rewrite len_app, Elen. lia.
Qed.

(** Without double quote in the text, [sanitize_string] pads and nothing
    else. *)
Lemma sanitize_loop_pad (text : string) (col : Z) :
  forallb (fun c => negb (eqc c DQUOTE)) text = true ->
  forall out,
    sanitize_loop text col out = out ++ pad_newlines (Z.to_nat col) text.
Proof.
  induction text as [|c text IH]; intros Htext out.
  - simpl. now rewrite app_nil_r.
  - simpl in Htext. apply andb_prop in Htext. destruct Htext as [Hc Htext].
    apply negb_true_iff in Hc. simpl. rewrite Hc.
    rewrite IH by assumption. destruct (eqc c LF) eqn:Elf.
    + apply eqc_eq in Elf. subst c. unfold add_spaces_fn.
      rewrite <- !app_assoc. reflexivity.
    + rewrite <- app_assoc. reflexivity.
Qed.

Lemma ends_with_snoc (s : string) (c x : ascii) :
  ends_with (s ++ [x]) c = eqc x c.
Proof. unfold ends_with. rewrite rev_app_distr. reflexivity. Qed.

(** [Trim] on a quoted token between spaces: the quotes go, the content is
    handed to the loop that removes the padding. *)
Lemma Trim_quoted (sp out : string) (col : Z) :
  all_spaces sp = true -> len out + 2 < 2 ^ 64 ->
  Trim (sp ++ DQUOTE :: out ++ [DQUOTE]) col
  = Trim_dedent (S (length out)) col out (find out LF 0).
Proof.
  intros Hsp Hlen. pose proof (len_nonneg out) as Hout.
  set (w := DQUOTE :: out ++ [DQUOTE]).
  assert (Ew : len w = len out + 2).
  { unfold w. rewrite len_cons, len_app. change (len [DQUOTE]) with 1. lia. }
  unfold Trim.
  replace (sp ++ w) with (sp ++ w ++ []) by now rewrite app_nil_r.
  rewrite Trim_scan_token; try assumption; try reflexivity;
    [| discriminate | unfold w; now rewrite app_comm_cons, ends_with_snoc].
  rewrite substr_middle by (rewrite wrap64_small; lia).
  cbn [bind]. change (starts_with w DQUOTE) with true. cbn iota.
  replace (ends_with w DQUOTE) with true
    by (unfold w; now rewrite app_comm_cons, ends_with_snoc).
  change w with ([DQUOTE] ++ out ++ [DQUOTE]).
  rewrite substr_middle
    by (rewrite !len_app; change (len [DQUOTE]) with 1;
        rewrite wrap64_small; lia).
  reflexivity.
Qed.

(* ------------------------------------------------------------------------- *)
(** ** Whole tokens and whole documents *)

Lemma all_spaces_app (a b : string) :
  all_spaces a = true -> all_spaces b = true -> all_spaces (a ++ b) = true.
Proof. apply forallb_app_true. Qed.

Lemma all_spaces_plain (s : string) : all_spaces s = true -> plain s = true.
Proof.
  unfold all_spaces, plain. rewrite !forallb_forall. intros H c Hc.
  apply H in Hc. apply eqc_eq in Hc. now subst c.
Qed.

Lemma is_word_parts (w : string) :
  is_word w = true ->
  plain w = true /\ starts_with w SPACE = false
  /\ starts_with w DQUOTE = false /\ ends_with w SPACE = false /\ w <> [].
Proof.
  unfold is_word. intros H.
  repeat (apply andb_prop in H; destruct H as [H ?]).
  repeat split; try (now apply negb_true_iff); try assumption.
  destruct w; [discriminate | congruence].
Qed.

Lemma is_word_len (w : string) : is_word w = true -> 0 < len w.
Proof.
  intros H. destruct (is_word_parts w H) as (_ & _ & _ & _ & Hne).
  destruct w; [contradiction|]. rewrite len_cons.
  pose proof (len_nonneg w). lia.
Qed.

(** Spaces, the text of an unquoted token, spaces, in front of a delimiter:
    one text token with the text, at the column of its first character. *)
Lemma scan_token (after : ascii) (sp w sp2 : string) :
  isDelimiter after = true ->
  all_spaces sp = true -> is_word w = true -> all_spaces sp2 = true ->
  len w < 2 ^ 64 ->
  forall i prev toks part col line scol sline,
    all_spaces part = true ->
    Tokenize_loop after i prev (sp ++ w ++ sp2)
      (mkTokState toks part col line scol sline false false false)
    = Ok (mkTokState
            (toks ++ [mkToken Text w (wrap32 (col_after col sp + 1)) line])
            [] (col_after col (sp ++ w ++ sp2)) line
            (wrap32 (col_after col sp + 1)) line false false false).
Proof.
  intros Hafter Hsp Hw Hsp2 Hlen i prev toks part col line scol sline Hpart.
  destruct (is_word_parts w Hw) as (Hplain & Hs & Hq & He & Hne).
  rewrite Tokenize_loop_app, scan_spaces by assumption. cbn [bind].
  destruct w as [|c w]; [contradiction|].
  rewrite (scan_word after ((c :: w) ++ sp2) Hafter) with (t := c :: w);
    try assumption; try discriminate.
  - rewrite (col_after_app sp ((c :: w) ++ sp2) col). reflexivity.
  - unfold plain. apply forallb_app_true; [exact Hplain|].
    now apply all_spaces_plain.
  - apply (Trim_word (part ++ sp) (c :: w) sp2); try assumption.
    now apply all_spaces_app.
Qed.

Lemma Tokenize_paragraph (key sp1 v1 sp2 v2 : string) :
  is_word key = true -> is_word v1 = true -> is_word v2 = true ->
  all_spaces sp1 = true -> all_spaces sp2 = true ->
  len key + 1 + len sp1 + len v1 < 2 ^ 32 ->
  len sp2 + len v2 < 2 ^ 32 ->
  Tokenize (paragraph_doc key sp1 v1 sp2 v2)
  = Ok [mkToken Text key 1 1;
        mkToken Colon [] (len key + 1) 1;
        mkToken Text v1 (len key + 1 + len sp1 + 1) 1;
        mkToken Text v2 (len sp2 + 1) 2].
Proof.
  intros Hkey Hv1 Hv2 Hsp1 Hsp2 Hline1 Hline2.
  pose proof (len_nonneg key). pose proof (len_nonneg sp1).
  pose proof (len_nonneg v1). pose proof (len_nonneg sp2).
  pose proof (len_nonneg v2).
  destruct (is_word_parts key Hkey) as (Hpk & _).
  destruct (is_word_parts v1 Hv1) as (Hp1 & _).
  unfold Tokenize, paragraph_doc, TokState_init.
  (* the key *)
  rewrite Tokenize_loop_app. cbn [hd app].
  replace key with ([] ++ key ++ []) at 1 by now rewrite app_nil_r.
  rewrite scan_token; try reflexivity; try assumption; [|lia].
  cbn [bind app col_after]. rewrite app_nil_r.
  (* its colon *)
  cbn [Tokenize_loop]. rewrite step_colon by reflexivity. cbn [bind].
  cbn [tokens partialToken charCol charLine tokenStartCol tokenStartLine
       tokenHasContent].
  (* the first piece of the value *)
  rewrite Tokenize_loop_app. cbn [hd app].
  replace (sp1 ++ v1) with (sp1 ++ v1 ++ []) at 1 by now rewrite app_nil_r.
  rewrite scan_token; try reflexivity; try assumption; [|lia].
  cbn [bind]. rewrite app_nil_r.
  (* the line feed *)
  cbn [Tokenize_loop]. rewrite step_idle_newline by reflexivity. cbn [bind].
  cbn [tokens partialToken charCol charLine tokenStartCol tokenStartLine
       tokenHasContent].
  (* the second piece *)
  replace (sp2 ++ v2) with (sp2 ++ v2 ++ []) at 1 by now rewrite app_nil_r.
  rewrite scan_token; try reflexivity; try assumption; [|lia].
  cbn [bind tokens app].
  (* columns and lines *)
  rewrite (col_after_no_newline key) by (now apply plain_no_newline || lia).
  rewrite !wrap32_add_l.
  rewrite (col_after_no_newline sp1);
    [| now apply all_spaces_no_newline
     | unfold wrap32; apply Z.mod_pos_bound; lia].
  rewrite (col_after_no_newline sp2) by (now apply all_spaces_no_newline || lia).
  assert (0 < len v1) by now apply is_word_len.
  assert (0 < len v2) by now apply is_word_len.
  rewrite (wrap32_small (0 + 1)), (wrap32_small (0 + len key + 1)),
    (wrap32_small (0 + len sp2)), (wrap32_small (1 + 1)) by lia.
  rewrite (wrap32_small (0 + len key + 1 + len sp1)),
    (wrap32_small (0 + len sp2 + 1)) by lia.
  rewrite wrap32_small by lia.
  repeat f_equal; lia.
Qed.

(** C7: a key or a group whose children are two or more values keeps a
    single child: a node of kind [Value] without children whose text is the
    texts of the children joined by one space each, in order; and a key
    whose value goes on in the next line, right of the colon and without a
    colon of its own, parses to the key with the one value node whose text
    is the two trimmed pieces and a space between them. *)
Theorem values_are_combined :
  (forall ty txt children,
     ty = Key \/ ty = Group ->
     (2 <= length children)%nat ->
     Forall (fun c => m_type c = Value) children ->
     Simplify (mkNode ty txt children)
     = mkNode ty txt
         [mkNode Value (join_with_space (map m_text children)) []])
  /\ (forall key sp1 v1 sp2 v2,
        is_word key = true -> is_word v1 = true -> is_word v2 = true ->
        all_spaces sp1 = true -> all_spaces sp2 = true ->
        len key < len sp2 ->
        len key + 1 + len sp1 + len v1 < 2 ^ 32 ->
        len sp2 + len v2 < 2 ^ 32 ->
        Parse (paragraph_doc key sp1 v1 sp2 v2)
        = Ok (Some (root_of
                      [mkNode Key key
                         [mkNode Value (v1 ++ [SPACE] ++ v2) []]]))).
Proof.
  split; [exact Simplify_all_values|].
  intros key sp1 v1 sp2 v2 Hkey Hv1 Hv2 Hsp1 Hsp2 Hcol Hline1 Hline2.
  pose proof (len_nonneg sp1).
  assert (0 < len key).
  { destruct (is_word_parts key Hkey) as (_ & _ & _ & _ & Hne).
    destruct key; [contradiction|]. rewrite len_cons.
    pose proof (len_nonneg key). lia. }
  rewrite (Parse_of_tokens _ _
             (Tokenize_paragraph key sp1 v1 sp2 v2 Hkey Hv1 Hv2 Hsp1 Hsp2
                Hline1 Hline2)).
  destruct (build_paragraph key v1 v2 1 (len key + 1)
              (len key + 1 + len sp1 + 1) (len sp2 + 1) 1 1 1 2)
    as (raw & -> & Hraw); try lia.
  cbn [bind]. now rewrite Hraw.
Qed.

Lemma values_are_combined_witness :
  Parse (paragraph_doc (lit "desc") (lit " ") (lit "The Midnight")
           (lit "      ") (lit "Deep South"))
  = Ok (Some (root_of
                [mkNode Key (lit "desc")
                   [mkNode Value (lit "The Midnight Deep South") []]])).
Proof.
  apply (proj2 values_are_combined (lit "desc") (lit " ") (lit "The Midnight")
           (lit "      ") (lit "Deep South"));
    solve [reflexivity | vm_compute; reflexivity].
Defined.

(* ------------------------------------------------------------------------- *)
(** ** What a comment does to the tokens *)

Lemma Tokenize_step_lookahead (pc c nc nc' : ascii) (st : TokState) :
  isDelimiter nc = isDelimiter nc' ->
  Tokenize_step pc c nc st = Tokenize_step pc c nc' st.
Proof.
  intros H. destruct st as [toks part col line scol sline q has com].
  unfold Tokenize_step. now rewrite H.
Qed.

Lemma Tokenize_loop_lookahead (after after' : ascii) (data : string) :
  isDelimiter after = isDelimiter after' ->
  forall i prev st,
    Tokenize_loop after i prev data st = Tokenize_loop after' i prev data st.
Proof.
  intros H. induction data as [|c data IH]; intros i prev st; [reflexivity|].
  cbn [Tokenize_loop]. destruct data as [|c2 data].
  - now rewrite (Tokenize_step_lookahead _ c after after').
  - destruct (Tokenize_step _ c c2 st); cbn [bind]; try reflexivity.
    apply IH.
Qed.

Lemma Tokenize_before_comment (pre body : string) (st : TokState) :
  forallb (fun c => negb (eqc c LF)) body = true ->
  Tokenize_loop NUL 0 NUL pre TokState_init = Ok st ->
  inQuotes st = false ->
  Tokenize (pre ++ HASH :: body ++ [LF]) = Tokenize pre.
Proof.
  intros Hbody Hpre Hq. unfold Tokenize.
  rewrite Tokenize_loop_app. cbn [hd].
  rewrite (Tokenize_loop_lookahead HASH NUL) by reflexivity.
  rewrite Hpre. cbn [bind].
  rewrite Tokenize_loop_comment by assumption.
  reflexivity.
Qed.

Lemma Tokenize_word_comment (sp w sp2 body : string) :
  all_spaces sp = true -> is_word w = true -> all_spaces sp2 = true ->
  forallb (fun c => negb (eqc c LF)) body = true ->
  len sp + len w < 2 ^ 32 ->
  Tokenize (sp ++ w ++ sp2 ++ HASH :: body ++ [LF])
  = Ok [mkToken Text w (len sp + 1) 1].
Proof.
  intros Hsp Hw Hsp2 Hbody Hlen.
  pose proof (len_nonneg sp). pose proof (is_word_len w Hw).
  assert (Hscan :
    Tokenize_loop NUL 0 NUL (sp ++ w ++ sp2) TokState_init
    = Ok (mkTokState [mkToken Text w (len sp + 1) 1] []
            (col_after 0 (sp ++ w ++ sp2)) 1 (len sp + 1) 1
            false false false)).
  { unfold TokState_init.
    rewrite scan_token; try reflexivity; try assumption; [|lia].
    rewrite (col_after_no_newline sp)
      by (now apply all_spaces_no_newline || lia).
    rewrite wrap32_add_l, wrap32_small by lia. reflexivity. }
  replace (sp ++ w ++ sp2 ++ HASH :: body ++ [LF])
    with ((sp ++ w ++ sp2) ++ HASH :: body ++ [LF])
    by now rewrite <- !app_assoc.
  rewrite (Tokenize_before_comment _ _ _ Hbody Hscan eq_refl).
  unfold Tokenize. now rewrite Hscan.
Qed.

(** C4, as the code has it: from a [#] outside quotes up to and including
    the next line feed the scan emits nothing and leaves an empty partial
    token; the tokens of an input that ends with such a comment are those of
    the input in front of the [#]; the unquoted text in front of the [#] is
    one of them: [#] is a delimiter, and the text was emitted, trimmed, when
    its last character was read. *)
Theorem comment_is_discarded :
  (forall after body rest i prev st,
     forallb (fun c => negb (eqc c LF)) body = true ->
     inQuotes st = false ->
     Tokenize_loop after i prev (HASH :: body ++ LF :: rest) st
     = Tokenize_loop after (i + len body + 2) LF rest (after_comment st))
  /\ (forall pre body st,
        forallb (fun c => negb (eqc c LF)) body = true ->
        Tokenize_loop NUL 0 NUL pre TokState_init = Ok st ->
        inQuotes st = false ->
        Tokenize (pre ++ HASH :: body ++ [LF]) = Tokenize pre)
  /\ (forall sp w sp2 body,
        all_spaces sp = true -> is_word w = true -> all_spaces sp2 = true ->
        forallb (fun c => negb (eqc c LF)) body = true ->
        len sp + len w < 2 ^ 32 ->
        Tokenize (sp ++ w ++ sp2 ++ HASH :: body ++ [LF])
        = Ok [mkToken Text w (len sp + 1) 1]).
Proof.
  split; [|split].
  - intros. now apply Tokenize_loop_comment.
  - exact Tokenize_before_comment.
  - exact Tokenize_word_comment.
Qed.

Lemma comment_is_discarded_witness :
  Tokenize (lit "  " ++ lit "sparkles lane" ++ lit " "
              ++ HASH :: lit " todo: fix typo" ++ [LF])
  = Ok [mkToken Text (lit "sparkles lane") 3 1].
Proof.
  apply (proj2 (proj2 comment_is_discarded) (lit "  ") (lit "sparkles lane")
           (lit " ") (lit " todo: fix typo"));
    solve [reflexivity | vm_compute; reflexivity].
Defined.

(** C4 as stated fails: the text in front of the [#] is a token. *)
Lemma comment_keeps_preceding_text :
  Tokenize (lit "abc # x" ++ [LF]) = Ok [mkToken Text (lit "abc") 1 1]
  /\ ~ (forall pre body,
          plain pre = true ->
          forallb (fun c => negb (eqc c DQUOTE)) pre = true ->
          forallb (fun c => negb (eqc c LF)) body = true ->
          Tokenize (pre ++ HASH :: body ++ [LF]) = Ok []).
Proof.
  split; [reflexivity|].
  intros H.
  specialize (H (lit "abc ") (lit " x") eq_refl eq_refl eq_refl).
  vm_compute in H. discriminate H.
Qed.

(* ------------------------------------------------------------------------- *)
(** ** Quoted values with line feeds *)




Lemma pad_newlines_app (col : nat) (a b : string) :
  pad_newlines col (a ++ b) = pad_newlines col a ++ pad_newlines col b.
Proof.
  induction a as [|x a IH]; [reflexivity|].
  simpl. destruct (eqc x LF); rewrite IH.
  - simpl. now rewrite app_assoc.
  - reflexivity.
Qed.

Lemma last_snoc (A : Type) (l : list A) (x d : A) : last (l ++ [x]) d = x.
Proof.
  induction l as [|y l IH]; [reflexivity|].
  simpl. destruct (l ++ [x]) eqn:E; [now destruct l | exact IH].
Qed.

(** The padded text ends in a backslash only if the text does. *)
Lemma pad_newlines_last (col : nat) (text : string) :
  ends_with text BACKSLASH = false ->
  eqc (last (pad_newlines col text) DQUOTE) BACKSLASH = false.
Proof.
  intros H. unfold ends_with in H. destruct (rev text) as [|x r] eqn:E.
  - apply (f_equal (@rev ascii)) in E. rewrite rev_involutive in E.
    subst text. reflexivity.
  - apply (f_equal (@rev ascii)) in E. rewrite rev_involutive in E.
    simpl in E. subst text. rewrite pad_newlines_app. simpl.
    destruct (eqc x LF) eqn:Ex.
    + change (LF :: repeat SPACE col ++ [])
        with ([LF] ++ repeat SPACE col ++ []).
      rewrite app_nil_r, app_assoc.
      destruct col as [|col].
      * simpl. rewrite app_nil_r, last_snoc. reflexivity.
      * replace (repeat SPACE (S col)) with (repeat SPACE col ++ [SPACE])
          by (clear; induction col as [|col IH]; [reflexivity|];
              simpl in *; now rewrite IH).
        rewrite !app_assoc, last_snoc. reflexivity.
    + rewrite last_snoc. exact H.
Qed.


Lemma plain_without (s : string) (d : ascii) :
  plain s = true -> isDelimiter d = true ->
  forallb (fun x => negb (eqc x d)) s = true.
Proof.
  unfold plain. rewrite !forallb_forall. intros H Hd x Hx.
  apply H in Hx. apply negb_true_iff in Hx. apply negb_true_iff.
  apply eqc_neq. intros ->. congruence.
Qed.

(** The text of an unquoted token is written as it is. *)
Lemma sanitize_string_word (w : string) (col : Z) :
  is_word w = true -> sanitize_string w col = w.
Proof.
  intros Hw. destruct (is_word_parts w Hw) as (Hplain & Hs & Hq & He & _).
  unfold sanitize_string.
  change w with ([] ++ w) at 1 2 3.
  rewrite !find_behind by reflexivity.
  rewrite !find_aux_absent by now apply plain_without.
  change ([] ++ w) with w. rewrite Hs, Hq, He. reflexivity.
Qed.

Lemma SerializeRecursive_key (depth : Z) (ty : NodeType) (txt key : string)
    (cs : list Node) (out : string) :
  SerializeRecursive depth (mkNode ty txt [mkNode Key key cs]) out
  = SerializeRecursive
      (wrap32 (depth + len (sanitize_string key (wrap32 (depth + 1))) + 2))
      (mkNode Key key cs)
      (out ++ sanitize_string key (wrap32 (depth + 1)) ++ [COLON; SPACE]).
Proof. reflexivity. Qed.

Lemma SerializeRecursive_value (depth : Z) (ty : NodeType) (txt value : string)
    (out : string) :
  SerializeRecursive depth (mkNode ty txt [MakeValue value]) out
  = out ++ sanitize_string value (wrap32 (depth + 1)) ++ [LF].
Proof. reflexivity. Qed.

(** The tokens of a key, its colon and one value build a key with that
    value. *)
Lemma build_scalar (k v : string) (c1 c2 c3 l1 l2 l3 : Z) :
  0 < c1 < c2 -> c2 < c3 ->
  exists raw,
    build [mkToken Text k c1 l1; mkToken Colon [] c2 l2; mkToken Text v c3 l3]
    = Ok (Some raw)
    /\ Simplify raw = root_of [mkNode Key k [MakeValue v]].
Proof.
  intros H12 H23. unfold build. cbn [Parse_loop type column].
  rewrite seekFn_hit by now apply root_frame_matches_text.
  cbn [Parse_loop type column].
  rewrite seekFn_hit
    by (unfold frame_matches; cbn; apply andb_true_intro; split;
        [apply Z.ltb_lt; lia | reflexivity]).
  cbn [Parse_loop type column].
  rewrite seekFn_hit
    by (unfold frame_matches; cbn; apply andb_true_intro; split;
        [apply Z.ltb_lt; lia | reflexivity]).
  eexists. split; reflexivity.
Qed.




(* ------------------------------------------------------------------------- *)
(** ** One more parse of the serialized tree *)

(** C1 fails on the code: [sanitize_string] writes a double quote of a
    quoted value as backslash and double quote, [Tokenize] does not close
    the token at such a quote, but [Trim] keeps the backslash; each round
    of serializing and parsing adds one. *)
Theorem round_trip_adds_backslash :
  Parse escaped_quote_doc
  = Ok (Some (root_of
                [mkNode Key (lit "k")
                   [MakeValue (lit "a" ++ [BACKSLASH; DQUOTE] ++ lit "b:c")]]))
  /\ Serialize
       (root_of
          [mkNode Key (lit "k")
             [MakeValue (lit "a" ++ [BACKSLASH; DQUOTE] ++ lit "b:c")]])
     = lit "k: " ++ [DQUOTE] ++ lit "a" ++ [BACKSLASH; BACKSLASH; DQUOTE]
         ++ lit "b:c" ++ [DQUOTE; LF]
  /\ Parse
       (Serialize
          (root_of
             [mkNode Key (lit "k")
                [MakeValue (lit "a" ++ [BACKSLASH; DQUOTE] ++ lit "b:c")]]))
     = Ok (Some (root_of
                   [mkNode Key (lit "k")
                      [MakeValue
                         (lit "a" ++ [BACKSLASH; BACKSLASH; DQUOTE]
                            ++ lit "b:c")]])).
Proof. repeat split; vm_compute; reflexivity. Qed.

(* ========================================================================= *)
(** * Further properties *)

(* ------------------------------------------------------------------------- *)
(** ** Reading and changing a node *)

Lemma node_eta (n : Node) : mkNode (m_type n) (m_text n) (m_children n) = n.
Proof. now destruct n. Qed.

(** [UpdateValue] followed by [GetValue] gives the new value back when the
    node has a value; kind, text and the kind of the child stay.  On a node
    without a value [UpdateValue] changes nothing and [GetValue] is the text
    of the sentinel, whatever the sentinel holds. *)
Theorem UpdateValue_GetValue (sentinel n : Node) (value : string) :
  (HasValue n = true ->
     GetValue sentinel (UpdateValue n value) = value
     /\ HasValue (UpdateValue n value) = true
     /\ m_type (UpdateValue n value) = m_type n
     /\ m_text (UpdateValue n value) = m_text n)
  /\ (HasValue n = false ->
        UpdateValue n value = n /\ GetValue sentinel n = m_text sentinel).
Proof.
  split; intros H.
  - destruct (HasValue_spec n H) as (v & Hv & Hty).
    unfold UpdateValue. rewrite H, Hv. cbn [update_nth].
    unfold GetValue, HasValue in *. cbn [m_type m_children m_text].
    rewrite Hv in H. cbn [length nth_error m_type] in H |- *.
    rewrite Hty in *. cbn in H |- *.
    destruct (NodeType_eqb (m_type n) Key || NodeType_eqb (m_type n) Group);
      [|discriminate].
    repeat split; reflexivity.
  - unfold UpdateValue, GetValue. rewrite H. split; reflexivity.
Qed.

Lemma UpdateValue_GetValue_witness :
  GetValue INVALID
    (UpdateValue (mkNode Key (lit "k") [MakeValue (lit "a")]) (lit "b"))
  = lit "b".
Proof.
  apply (proj1 (UpdateValue_GetValue INVALID
                  (mkNode Key (lit "k") [MakeValue (lit "a")]) (lit "b"))).
  reflexivity.
Defined.

(** [UpdateKey] followed by [GetKey] gives the new key back on a key node
    and keeps its children; on a node of another kind [UpdateKey] changes
    nothing and [GetKey] is the text of the sentinel, whatever the sentinel
    holds. *)
Theorem UpdateKey_GetKey (sentinel n : Node) (key : string) :
  (m_type n = Key ->
     GetKey sentinel (UpdateKey n key) = key
     /\ m_children (UpdateKey n key) = m_children n
     /\ HasKey (UpdateKey n key) = true)
  /\ (m_type n <> Key ->
        UpdateKey n key = n /\ GetKey sentinel n = m_text sentinel).
Proof.
  unfold UpdateKey, GetKey, HasKey. split; intros H.
  - rewrite H. cbn. repeat split; reflexivity.
  - destruct (NodeType_eqb (m_type n) Key) eqn:E.
    + apply NodeType_eqb_eq in E. contradiction.
    + split; reflexivity.
Qed.

Lemma UpdateKey_GetKey_witness :
  GetKey INVALID (UpdateKey (MakeKey (lit "a")) (lit "b")) = lit "b".
Proof.
  apply (proj1 (UpdateKey_GetKey INVALID (MakeKey (lit "a")) (lit "b"))).
  reflexivity.
Defined.

(** [AddNode] puts the node behind the children there are: the positional
    index finds it at the old number of children and the old children at
    their places; removing at that index undoes the call. *)
Theorem AddNode_index_at (n node : Node) :
  index_at (AddNode n node) (Z.of_nat (length (m_children n))) = Some node
  /\ (forall index, 0 <= index < Z.of_nat (length (m_children n)) ->
        index_at (AddNode n node) index = index_at n index)
  /\ RemoveNodeAtIndex (AddNode n node) (Z.of_nat (length (m_children n)))
     = Ok n.
Proof.
  unfold index_at, RemoveNodeAtIndex, AddNode. cbn [m_children m_type m_text].
  rewrite length_app. cbn [length]. split; [|split].
  - replace (Z.of_nat (length (m_children n))
             <? Z.of_nat (length (m_children n) + 1)) with true
      by (symmetry; apply Z.ltb_lt; lia).
    rewrite Nat2Z.id, nth_error_app2, Nat.sub_diag by lia. reflexivity.
  - intros index H.
    replace (index <? Z.of_nat (length (m_children n) + 1)) with true
      by (symmetry; apply Z.ltb_lt; lia).
    replace (index <? Z.of_nat (length (m_children n))) with true
      by (symmetry; apply Z.ltb_lt; lia).
    apply nth_error_app1. lia.
  - replace (0 <=? Z.of_nat (length (m_children n))) with true
      by (symmetry; apply Z.leb_le; lia).
    replace (Z.of_nat (length (m_children n))
             <? Z.of_nat (length (m_children n) + 1)) with true
      by (symmetry; apply Z.ltb_lt; lia).
    cbn [andb]. rewrite Nat2Z.id.
    rewrite firstn_app, firstn_all, Nat.sub_diag. cbn [firstn].
    rewrite app_nil_r.
    rewrite skipn_all2 by (rewrite length_app; simpl; lia).
    rewrite app_nil_r. now rewrite node_eta.
Qed.

Lemma AddNode_index_at_witness :
  index_at (AddNode (root_of [MakeKey (lit "a")]) (MakeKey (lit "b"))) 0
  = index_at (root_of [MakeKey (lit "a")]) 0.
Proof.
  apply (proj1 (proj2 (AddNode_index_at (root_of [MakeKey (lit "a")])
                         (MakeKey (lit "b"))))).
  simpl. lia.
Defined.

Lemma index_key_loop_app (l1 l2 : list Node) (key : string) :
  index_key_loop (l1 ++ l2) key
  = match index_key_loop l1 key with
    | Some c => Some c
    | None => index_key_loop l2 key
    end.
Proof.
  induction l1 as [|x l1 IH]; [reflexivity|].
  simpl. destruct (NodeType_eqb (m_type x) Key); [|exact IH].
  destruct (list_eq_dec ascii_dec (m_text x) key); [reflexivity | exact IH].
Qed.

(** The lookup by key finds the first key of that name: a key added by
    [AddKey] is found if the name was not there, else the child found is the
    one found before; the lookup of another name and that of a value or a
    group added are not changed. *)
Theorem AddKey_index_key (n : Node) (key : string) :
  index_key (AddKey n key) key
  = match index_key n key with
    | Some c => Some c
    | None => Some (MakeKey key)
    end
  /\ (forall other, other <> key ->
        index_key (AddKey n key) other = index_key n other)
  /\ (forall value other,
        index_key (AddValue n value) other = index_key n other)
  /\ (forall other, index_key (AddGroup n) other = index_key n other).
Proof.
  unfold index_key, AddKey, AddValue, AddGroup, AddNode.
  cbn [m_children]. repeat split; intros; rewrite index_key_loop_app.
  - destruct (index_key_loop (m_children n) key); [reflexivity|].
    simpl. destruct (list_eq_dec ascii_dec key key); [reflexivity|].
    contradiction.
  - destruct (index_key_loop (m_children n) other); [reflexivity|].
    simpl. destruct (list_eq_dec ascii_dec key other); [|reflexivity].
    subst. contradiction.
  - now destruct (index_key_loop (m_children n) other).
  - now destruct (index_key_loop (m_children n) other).
Qed.

Lemma AddKey_index_key_witness :
  index_key (AddKey (root_of [MakeKey (lit "a")]) (lit "b")) (lit "a")
  = index_key (root_of [MakeKey (lit "a")]) (lit "a").
Proof.
  apply (proj1 (proj2 (AddKey_index_key (root_of [MakeKey (lit "a")])
                         (lit "b"))) (lit "a")).
  discriminate.
Defined.

(** Lookups one on the result of the other.  A lookup that misses gives
    the reference to the sentinel, and a lookup on that reference searches
    the children the sentinel has at that time.  While the sentinel has no
    children every further lookup, by key or by place, misses again.  The
    reference is not [const]: after [n[ key ].AddKey( a )] on a lookup that
    misses, the sentinel has the child [a], and the lookup of [a] on the
    result of any lookup that misses finds it. *)
Theorem lookup_on_sentinel (sentinel : Node) :
  (forall keys, m_children sentinel = [] ->
     lookup_path sentinel None keys = None)
  /\ (forall n key keys,
        m_children sentinel = [] -> index_key n key = None ->
        lookup_path sentinel (Some n) (key :: keys) = None)
  /\ (forall index, m_children sentinel = [] ->
        index_at (deref sentinel None) index = None)
  /\ (forall n key a m other,
        index_key n key = None -> index_key m other = None ->
        index_key sentinel a = None ->
        lookup_path (AddKey (deref sentinel (index_key n key)) a) (Some m)
          [other; a]
        = Some (MakeKey a)).
Proof.
  assert (Hnone : forall ks, m_children sentinel = [] ->
                    lookup_path sentinel None ks = None).
  { intros ks Hs. induction ks as [|k ks IH]; [reflexivity|].
    unfold lookup_path in *. cbn [fold_left deref].
    unfold index_key at 2. rewrite Hs. exact IH. }
  split; [exact Hnone|]. split; [|split].
  - intros n key keys Hs Hn. unfold lookup_path. cbn [fold_left deref].
    rewrite Hn. now apply Hnone.
  - intros index Hs. unfold index_at. cbn [deref]. rewrite Hs. cbn.
    destruct (index <? 0); [destruct (Z.to_nat index)|]; reflexivity.
  - intros n key a m other Hn Hm Hs. rewrite Hn.
    unfold lookup_path. cbn [fold_left deref]. rewrite Hm. cbn [deref].
    unfold index_key, AddKey, AddNode in *. cbn [m_children].
    rewrite index_key_loop_app, Hs. simpl.
    destruct (list_eq_dec ascii_dec a a); [reflexivity | contradiction].
Qed.

Lemma lookup_on_sentinel_witness :
  lookup_path
    (AddKey (deref INVALID (index_key (root_of []) (lit "k"))) (lit "a"))
    (Some (MakeValue (lit "v"))) [lit "x"; lit "a"]
  = Some (MakeKey (lit "a")).
Proof.
  apply (proj2 (proj2 (proj2 (lookup_on_sentinel INVALID)))
           (root_of []) (lit "k") (lit "a") (MakeValue (lit "v")) (lit "x"));
    reflexivity.
Defined.

(* ------------------------------------------------------------------------- *)
(** ** The anchor search and the shape of the trees built *)

(** [seekFn] finds the topmost frame that matches: the frames above it do
    not match and are gone, the stack left starts with the frame found.  It
    fails exactly when no frame matches, and leaves the stack empty then. *)
Theorem seekFn_topmost (col flag : Z) (stack : list InternalStackData) :
  (forall p stack',
     seekFn col flag stack = (Some p, stack') ->
     exists above f rest,
       stack = above ++ f :: rest /\ stack' = f :: rest /\ p = node f
       /\ frame_matches col flag f = true
       /\ forallb (fun x => negb (frame_matches col flag x)) above = true)
  /\ (forallb (fun x => negb (frame_matches col flag x)) stack = true ->
      seekFn col flag stack = (None, []))
  /\ (forall stack', seekFn col flag stack = (None, stack') ->
        stack' = []
        /\ forallb (fun x => negb (frame_matches col flag x)) stack = true).
Proof.
  induction stack as [|f stack (IH1 & IH2 & IH3)]; simpl.
  - split; [|split].
    + intros p stack' H. discriminate.
    + reflexivity.
    + intros stack' H. injection H as <-. split; reflexivity.
  - destruct (frame_matches col flag f) eqn:E; simpl; split; [|split| |split].
    + intros p stack' H. injection H as <- <-.
      exists [], f, stack. repeat split; assumption.
    + discriminate.
    + intros stack' H. discriminate.
    + intros p stack' H.
      destruct (IH1 p stack' H) as (above & f' & rest & -> & -> & -> & Hm & Ha).
      exists (f :: above), f', rest. simpl. rewrite E, Ha.
      repeat split; assumption.
    + exact IH2.
    + exact IH3.
Qed.

Lemma seekFn_topmost_witness :
  seekFn 1 colon_anchor_flag
    [mkFrame (mkToken Colon [] 5 1) [0%nat; 0%nat]; root_frame]
  = (None, []).
Proof.
  apply (proj1 (proj2 (seekFn_topmost 1 colon_anchor_flag
                         [mkFrame (mkToken Colon [] 5 1) [0%nat; 0%nat];
                          root_frame]))).
  reflexivity.
Defined.

Lemma well_kinded_unfold (n : Node) :
  well_kinded n
  = forallb (fun c => child_kind_ok (m_type n) (m_type c)) (m_children n)
    && forallb well_kinded (m_children n).
Proof. destruct n. reflexivity. Qed.

Lemma well_kinded_AddNode_at (c : Node) (p : NodePtr) :
  well_kinded c = true ->
  forall root n,
    well_kinded root = true ->
    node_at root p = Some n ->
    child_kind_ok (m_type n) (m_type c) = true ->
    well_kinded (AddNode_at root p c) = true.
Proof.
  intros Hc. induction p as [|j p IH]; intros root n Hroot Hp Hkind.
  - injection Hp as Hp. subst n.
    rewrite well_kinded_unfold in Hroot |- *.
    apply andb_prop in Hroot. destruct Hroot as [Hkinds Hsub].
    simpl. rewrite !forallb_app. simpl.
    now rewrite Hkinds, Hsub, Hkind, Hc.
  - simpl in Hp. destruct (nth_error (m_children root) j) as [child|] eqn:E;
      [|discriminate].
    rewrite well_kinded_unfold in Hroot |- *.
    apply andb_prop in Hroot. destruct Hroot as [Hkinds Hsub].
    apply andb_true_intro. split; simpl.
    + apply forallb_update_nth; [assumption|].
      intros x Hx. rewrite m_type_AddNode_at.
      rewrite forallb_forall in Hkinds. apply Hkinds.
      now apply nth_error_In with j.
    + apply forallb_update_nth; [assumption|].
      intros x Hx. rewrite E in Hx. injection Hx as <-.
      apply (IH child n); try assumption.
      rewrite forallb_forall in Hsub. apply Hsub.
      now apply nth_error_In with j.
Qed.

Lemma Parse_loop_well_kinded (toks : list Token) :
  forall root stack raw,
    well_kinded root = true -> stack_ok root stack ->
    Parse_loop toks root stack = Ok (Some raw) ->
    well_kinded raw = true /\ m_type raw = m_type root.
Proof.
  induction toks as [|t toks IH]; intros root stack raw Hroot Hstack H.
  - simpl in H. injection H as <-. now split.
  - simpl in H. destruct (type t) eqn:Et; [discriminate | |].
    + destruct (seekFn (column t) text_anchor_flag stack) as [[p|] stack']
        eqn:Eseek; [|discriminate].
      destruct (seekFn_found _ _ _ _ _ Eseek)
        as (f & rest & above & -> & -> & Hp & Hm).
      apply Forall_app in Hstack. destruct Hstack as [_ Hstack].
      pose proof Hstack as Hf. apply Forall_inv in Hf.
      destruct Hf as (n & Hn & Hty). rewrite Hp in Hn.
      assert (Hkind : child_kind_ok (m_type n) Key = true).
      { rewrite Hty. unfold frame_matches in Hm.
        apply andb_prop in Hm. destruct Hm as [_ Hm].
        destruct (type (token f)); [reflexivity | discriminate | reflexivity]. }
      apply (IH _ _ _) in H.
      * now rewrite m_type_AddNode_at in H.
      * now apply (well_kinded_AddNode_at (MakeKey (text t)) p eq_refl root n).
      * constructor.
        -- exists (MakeKey (text t)). split.
           ++ now apply node_at_last_child with n.
           ++ simpl. now rewrite Et.
        -- now apply stack_ok_AddNode_at.
    + destruct (seekFn (column t) colon_anchor_flag stack) as [[p|] stack']
        eqn:Eseek; [|discriminate].
      destruct (seekFn_found _ _ _ _ _ Eseek)
        as (f & rest & above & -> & -> & Hp & Hm).
      apply Forall_app in Hstack. destruct Hstack as [_ Hstack].
      pose proof Hstack as Hf. apply Forall_inv in Hf.
      destruct Hf as (n & Hn & Hty). rewrite Hp in Hn.
      assert (Hkind : child_kind_ok (m_type n) Group = true).
      { rewrite Hty. unfold frame_matches in Hm.
        apply andb_prop in Hm. destruct Hm as [_ Hm].
        destruct (type (token f)); [discriminate | reflexivity | discriminate]. }
      apply (IH _ _ _) in H.
      * now rewrite m_type_AddNode_at in H.
      * now apply (well_kinded_AddNode_at MakeGroup p eq_refl root n).
      * constructor.
        -- exists MakeGroup. split.
           ++ now apply node_at_last_child with n.
           ++ simpl. now rewrite Et.
        -- now apply stack_ok_AddNode_at.
Qed.

Lemma build_kinds (toks : list Token) (raw : Node) :
  build toks = Ok (Some raw) ->
  m_type raw = None_ /\ well_kinded raw = true.
Proof.
  intros H.
  destruct (Parse_loop_well_kinded toks (mkNode None_ [] []) [root_frame] raw)
    as [Hk Hty]; [reflexivity | | exact H | now split].
  constructor; [|constructor].
  exists (mkNode None_ [] []). split; reflexivity.
Qed.

(** The raw tree of the builder: a root, keys below the root and below
    groups, groups below keys, and no value at all. *)
Theorem build_well_kinded (toks : list Token) (raw : Node) :
  build toks = Ok (Some raw) ->
  m_type raw = None_ /\ well_kinded raw = true.
Proof. apply build_kinds. Qed.

Lemma build_well_kinded_witness :
  well_kinded
    (root_of [mkNode Key (lit "k") [mkNode Group [] [MakeKey (lit "v")]]])
  = true.
Proof.
  apply (build_well_kinded
           [mkToken Text (lit "k") 1 1; mkToken Colon [] 2 1;
            mkToken Text (lit "v") 4 1]).
  reflexivity.
Defined.

Lemma values_are_leaves_unfold (n : Node) :
  values_are_leaves n
  = (negb (is_type Value n) || no_children n)
    && forallb values_are_leaves (m_children n).
Proof. destruct n. reflexivity. Qed.

Lemma canonical_unfold (n : Node) :
  canonical n
  = (negb (is_type Value n) || no_children n)
    && (negb (is_type Key n) || negb (no_children n))
    && forallb canonical (m_children n).
Proof. destruct n. reflexivity. Qed.

Lemma canonical_children (n : Node) :
  canonical n = true -> forallb canonical (m_children n) = true.
Proof.
  rewrite canonical_unfold. intros H. apply andb_prop in H. now destruct H.
Qed.

(** [Simplify] on a tree whose values are leaves: the values of the result
    are leaves, its keys are not. *)
Lemma Simplify_canonical (n : Node) :
  values_are_leaves n = true -> canonical (Simplify n) = true.
Proof.
  induction n as [ty txt cs IH] using Node_ind_children. intros Hn.
  rewrite values_are_leaves_unfold in Hn. cbn [m_children] in Hn.
  apply andb_prop in Hn. destruct Hn as [Hleaf Hcs].
  assert (Hch : forallb canonical (map Simplify cs) = true).
  { rewrite forallb_forall. intros x Hx. apply in_map_iff in Hx.
    destruct Hx as (c & <- & Hc). rewrite Forall_forall in IH.
    rewrite forallb_forall in Hcs. apply IH; [assumption | now apply Hcs]. }
  assert (Hcol : forallb canonical (collapse_group ty (map Simplify cs)) = true).
  { unfold collapse_group. destruct (map Simplify cs) as [|g [|g2 l]];
      try assumption.
    destruct (NodeType_eqb ty Key && is_type Group g); [|assumption].
    apply canonical_children. simpl in Hch. now rewrite andb_true_r in Hch. }
  assert (Hcomb : forallb canonical
                    (combine_values ty (collapse_group ty (map Simplify cs)))
                  = true).
  { destruct (combine_values_merged ty (collapse_group ty (map Simplify cs)))
      as [E|[[t E] _]]; rewrite E; [assumption | reflexivity]. }
  rewrite Simplify_unfold, canonical_unfold. cbn [m_children].
  rewrite Hcomb, andb_true_r.
  set (ch := combine_values ty (collapse_group ty (map Simplify cs))) in *.
  unfold is_type, no_children, key_to_value. cbn [m_type m_children].
  destruct ty; cbn.
  - reflexivity.
  - reflexivity.
  - destruct ch; reflexivity.
  - unfold is_type, no_children in Hleaf. cbn in Hleaf.
    destruct cs; [|discriminate]. reflexivity.
Qed.

Lemma well_kinded_values_are_leaves (n : Node) :
  well_kinded n = true -> m_type n <> Value -> values_are_leaves n = true.
Proof.
  induction n as [ty txt cs IH] using Node_ind_children. intros Hn Hty.
  rewrite well_kinded_unfold in Hn. cbn [m_children m_type] in *.
  apply andb_prop in Hn. destruct Hn as [Hkinds Hsub].
  rewrite values_are_leaves_unfold. cbn [m_children].
  apply andb_true_intro. split.
  - unfold is_type. cbn. destruct ty; try reflexivity. contradiction.
  - rewrite forallb_forall in *. rewrite Forall_forall in IH.
    intros c Hc. apply IH; [assumption | now apply Hsub |].
    specialize (Hkinds c Hc). intros E. rewrite E in Hkinds.
    destruct ty; discriminate.
Qed.

(** What [Parse] returns: a root whose children are keys and values, in
    which every value is a leaf and every key has a child, and which a
    further [Simplify] leaves as it is. *)
Theorem Parse_canonical (data : string) (t : Node) :
  Parse data = Ok (Some t) ->
  m_type t = None_
  /\ Forall (fun c => m_type c = Key \/ m_type c = Value) (m_children t)
  /\ canonical t = true
  /\ Simplify t = t.
Proof.
  intros H. pose proof (Parse_simplified data t H) as Hfix.
  unfold Parse in H.
  destruct (Tokenize data) as [toks| | | |]; try discriminate.
  cbn [bind] in H.
  destruct (build toks) as [[raw|]| | | |] eqn:Eb; try discriminate.
  cbn [bind] in H. injection H as <-.
  destruct (build_kinds toks raw Eb) as [Hty Hk].
  destruct raw as [ty txt cs]. cbn [m_type] in Hty. subst ty.
  split; [reflexivity|]. split; [|split; [|assumption]].
  - rewrite Simplify_unfold. cbn [m_children].
    rewrite collapse_group_not_key by discriminate.
    unfold combine_values. cbn [NodeType_eqb orb andb].
    rewrite well_kinded_unfold in Hk. cbn [m_children m_type] in Hk.
    apply andb_prop in Hk. destruct Hk as [Hkinds _].
    apply Forall_forall. intros x Hx. apply in_map_iff in Hx.
    destruct Hx as (c & <- & Hc). rewrite forallb_forall in Hkinds.
    specialize (Hkinds c Hc). destruct c as [cty ctxt ccs].
    cbn [m_type] in Hkinds. destruct cty; try discriminate.
    rewrite Simplify_unfold. cbn [m_type]. unfold key_to_value.
    cbn [NodeType_eqb andb].
    destruct (_ =? 0); [now right | now left].
  - apply Simplify_canonical. apply well_kinded_values_are_leaves;
      [assumption | discriminate].
Qed.

Lemma Parse_canonical_witness :
  canonical
    (root_of [mkNode Key (lit "k") [MakeValue (lit "v")]; MakeValue (lit "w")])
  = true.
Proof.
  apply (Parse_canonical (lit "k: v" ++ [LF] ++ lit "w")). reflexivity.
Defined.

(* ------------------------------------------------------------------------- *)
(** ** [Trim] and single tokens *)

(** [Trim] takes the spaces around an unquoted text away and nothing
    else. *)
Theorem Trim_strips_spaces (sp w sp2 : string) (col : Z) :
  all_spaces sp = true -> all_spaces sp2 = true -> is_word w = true ->
  len w < 2 ^ 64 ->
  Trim (sp ++ w ++ sp2) col = Ok w.
Proof. apply Trim_word. Qed.

Lemma Trim_strips_spaces_witness :
  Trim (lit "  " ++ lit "John Doe" ++ lit " ") 3 = Ok (lit "John Doe").
Proof.
  apply (Trim_strips_spaces (lit "  ") (lit "John Doe") (lit " ") 3);
    solve [reflexivity | vm_compute; reflexivity].
Defined.

Lemma Trim_dedent_no_newline (fuel : nat) (col : Z) (out : string) :
  forallb (fun c => negb (eqc c LF)) out = true ->
  Trim_dedent fuel col out (find out LF 0) = Ok out.
Proof.
  intros H. change out with ([] ++ out) at 2.
  rewrite find_behind, find_aux_absent by (reflexivity || assumption).
  destruct fuel; reflexivity.
Qed.

(** [Trim] on a quoted text of one line takes the spaces in front and the
    two quotes away; what is between the quotes stays as it is, spaces,
    colons, hashes and further quotes included. *)
Theorem Trim_quoted_verbatim (sp out : string) (col : Z) :
  all_spaces sp = true ->
  forallb (fun c => negb (eqc c LF)) out = true ->
  len out + 2 < 2 ^ 64 ->
  Trim (sp ++ DQUOTE :: out ++ [DQUOTE]) col = Ok out.
Proof.
  intros Hsp Hout Hlen. rewrite Trim_quoted by assumption.
  now apply Trim_dedent_no_newline.
Qed.

Lemma Trim_quoted_verbatim_witness :
  Trim (lit " " ++ DQUOTE :: lit " Episode: Pilot #1 " ++ [DQUOTE]) 2
  = Ok (lit " Episode: Pilot #1 ").
Proof.
  apply (Trim_quoted_verbatim (lit " ") (lit " Episode: Pilot #1 ") 2);
    solve [reflexivity | vm_compute; reflexivity].
Defined.

Lemma Tokenize_step_tokens_ok (pc c nc : ascii) (st st' : TokState) :
  Forall token_ok (tokens st) ->
  Tokenize_step pc c nc st = Ok st' ->
  Forall token_ok (tokens st').
Proof.
  intros Hok. destruct st as [toks part col line scol sline q has com].
  unfold Tokenize_step. simpl in Hok.
  repeat match goal with
  | |- context [Trim ?t ?k] =>
      let r := fresh "r" in
      let E := fresh "E" in
      destruct (Trim_total t k) as [r E]; rewrite E; clear E; simpl bind
  | |- (if ?b then _ else _) = _ -> _ => destruct b
  end;
  intros H; injection H as <-; simpl; try assumption.
  all: rewrite Forall_app; split; [assumption|].
  all: constructor; [exact I || reflexivity | constructor].
Qed.

Lemma Tokenize_loop_tokens_ok (after : ascii) (data : string) :
  forall i prev st st',
    Forall token_ok (tokens st) ->
    Tokenize_loop after i prev data st = Ok st' ->
    Forall token_ok (tokens st').
Proof.
  induction data as [|c data IH]; intros i prev st st' Hok H.
  - simpl in H. now injection H as <-.
  - cbn [Tokenize_loop] in H.
    destruct (Tokenize_step _ c _ st) as [st1| | | |] eqn:E;
      try discriminate.
    cbn [bind] in H. apply (IH _ _ _ _ (Tokenize_step_tokens_ok _ _ _ _ _ Hok E) H).
Qed.

(** [Tokenize] completes on every input: no exception leaves [Trim], its
    loop ends; the tokens are text tokens and colon tokens without text, so
    the [assert] of [Parse] holds for each. *)
Theorem Tokenize_completes (data : string) :
  exists toks, Tokenize data = Ok toks /\ Forall token_ok toks.
Proof.
  destruct (Tokenize_total data) as (toks & E & _). exists toks.
  split; [assumption|]. unfold Tokenize in E.
  destruct (Tokenize_loop NUL 0 NUL data TokState_init) as [st| | | |] eqn:El;
    try discriminate.
  cbn [bind] in E. injection E as <-.
  apply (Tokenize_loop_tokens_ok NUL data 0 NUL TokState_init st);
    [constructor | assumption].
Qed.

Lemma Tokenize_one_word (sp w sp2 : string) :
  all_spaces sp = true -> is_word w = true -> all_spaces sp2 = true ->
  len sp + len w < 2 ^ 32 ->
  Tokenize (sp ++ w ++ sp2) = Ok [mkToken Text w (len sp + 1) 1].
Proof.
  intros Hsp Hw Hsp2 Hlen.
  pose proof (len_nonneg sp). pose proof (is_word_len w Hw).
  unfold Tokenize, TokState_init.
  rewrite scan_token; try reflexivity; try assumption; [|lia].
  rewrite (col_after_no_newline sp)
    by (now apply all_spaces_no_newline || lia).
  rewrite wrap32_add_l, wrap32_small by lia. reflexivity.
Qed.

(** The one token of an unquoted text between spaces: the text without the
    spaces, at the column of its first character. *)
Theorem Tokenize_word (sp w sp2 : string) :
  all_spaces sp = true -> is_word w = true -> all_spaces sp2 = true ->
  len sp + len w < 2 ^ 32 ->
  Tokenize (sp ++ w ++ sp2) = Ok [mkToken Text w (len sp + 1) 1].
Proof. apply Tokenize_one_word. Qed.

Lemma Tokenize_word_witness :
  Tokenize (lit "   " ++ lit "a b" ++ lit "  ")
  = Ok [mkToken Text (lit "a b") (len (lit "   ") + 1) 1].
Proof.
  apply (Tokenize_word (lit "   ") (lit "a b") (lit "  "));
    solve [reflexivity | vm_compute; reflexivity].
Defined.

Lemma last_not_backslash (out : string) :
  ends_with out BACKSLASH = false ->
  eqc (last out DQUOTE) BACKSLASH = false.
Proof.
  intros H. unfold ends_with in H. destruct (rev out) as [|x r] eqn:E.
  - apply (f_equal (@rev ascii)) in E. rewrite rev_involutive in E.
    subst out. reflexivity.
  - apply (f_equal (@rev ascii)) in E. rewrite rev_involutive in E.
    simpl in E. subst out. now rewrite last_snoc.
Qed.

(** The one token of a quoted text of one line: what is between the quotes,
    delimiters included, at the column of the opening quote. *)
Theorem Tokenize_quoted (sp out : string) :
  all_spaces sp = true ->
  forallb (fun c => negb (eqc c DQUOTE)) out = true ->
  forallb (fun c => negb (eqc c LF)) out = true ->
  ends_with out BACKSLASH = false ->
  len sp + 1 < 2 ^ 32 -> len out + 2 < 2 ^ 64 ->
  Tokenize (sp ++ DQUOTE :: out ++ [DQUOTE])
  = Ok [mkToken Text out (len sp + 1) 1].
Proof.
  intros Hsp Hdq Hlf Hbs Hcol Hlen. pose proof (len_nonneg sp).
  unfold Tokenize, TokState_init.
  rewrite Tokenize_loop_app, scan_spaces by assumption. cbn [bind app].
  rewrite (scan_quoted NUL out eq_refl) with (t := out);
    try assumption.
  - cbn [bind tokens app].
    rewrite (col_after_no_newline sp)
      by (now apply all_spaces_no_newline || lia).
    rewrite wrap32_add_l, wrap32_small by lia. reflexivity.
  - now apply last_not_backslash.
  - rewrite Trim_quoted by assumption. now apply Trim_dedent_no_newline.
Qed.

Lemma Tokenize_quoted_witness :
  Tokenize (lit " " ++ DQUOTE :: lit "a: b # c" ++ [DQUOTE])
  = Ok [mkToken Text (lit "a: b # c") (len (lit " ") + 1) 1].
Proof.
  apply (Tokenize_quoted (lit " ") (lit "a: b # c"));
    solve [reflexivity | vm_compute; reflexivity].
Defined.

(** A quote that is opened between two tokens and not closed: all that
    follows it is dropped without a token and without an error. *)
Theorem Tokenize_unterminated_quote (pre out : string) (st : TokState) :
  Tokenize_loop DQUOTE 0 NUL pre TokState_init = Ok st ->
  idle st ->
  forallb (fun c => negb (eqc c DQUOTE)) out = true ->
  Tokenize (pre ++ DQUOTE :: out) = Ok (tokens st).
Proof.
  intros Hpre (Hq & Hcom & Hhas) Hout. unfold Tokenize.
  rewrite Tokenize_loop_app. cbn [hd]. rewrite Hpre. cbn [bind].
  rewrite Tokenize_loop_cons, step_open_quote by assumption. cbn [bind].
  rewrite scan_in_quote by assumption. reflexivity.
Qed.

Lemma Tokenize_unterminated_quote_witness :
  Tokenize (lit "a: " ++ DQUOTE :: lit "b: c")
  = Ok [mkToken Text (lit "a") 1 1; mkToken Colon [] 2 1].
Proof.
  apply (Tokenize_unterminated_quote (lit "a: ") (lit "b: c")
           (mkTokState [mkToken Text (lit "a") 1 1; mkToken Colon [] 2 1]
              (lit " ") 3 1 2 1 false false false));
    [reflexivity | repeat split | reflexivity].
Defined.

(* ------------------------------------------------------------------------- *)
(** ** Documents of keys with one value or a list of values *)

Lemma is_word_not_spaces (w : string) :
  is_word w = true -> all_spaces w = false.
Proof.
  intros H. destruct (is_word_parts w H) as (_ & Hs & _ & _ & Hne).
  destruct w as [|c w]; [contradiction|].
  unfold starts_with in Hs. simpl in Hs. simpl. now rewrite Hs.
Qed.

(** The scan of the colon of a line and of what follows it. *)
Lemma scan_colon_value (after : ascii) (gap value : string) :
  all_spaces gap = true -> is_word value = true ->
  forall i prev toks part col line scol sline,
    0 <= col -> col + 1 + len gap + len value < 2 ^ 32 ->
    exists scol' sline',
      Tokenize_loop after i prev ([COLON] ++ (gap ++ value) ++ [LF])
        (mkTokState toks part col line scol sline false false false)
      = Ok (mkTokState
              (toks ++ [mkToken Colon [] (col + 1) line;
                        mkToken Text value (col + 1 + len gap + 1) line])
              [] 0 (wrap32 (line + 1)) scol' sline' false false false).
Proof.
  intros Hgap Hv i prev toks part col line scol sline Hcol Hlen.
  pose proof (len_nonneg gap). pose proof (is_word_len value Hv).
  cbn [app]. rewrite Tokenize_loop_cons, step_colon by reflexivity.
  cbn [bind tokens partialToken charCol charLine tokenStartCol tokenStartLine
       tokenHasContent].
  rewrite Tokenize_loop_app. cbn [hd].
  assert (Hv64 : len value < 2 ^ 64) by lia.
  pose proof (scan_token LF gap value [] eq_refl Hgap Hv eq_refl Hv64
                (i + 1) COLON
                (toks ++ [mkToken Colon [] (wrap32 (col + 1)) line]) []
                (wrap32 (col + 1)) line (wrap32 (col + 1)) line eq_refl)
    as E.
  rewrite !app_nil_r in E. rewrite E. clear E. cbn [bind].
  rewrite Tokenize_loop_cons, step_idle_newline by reflexivity.
  cbn [bind tokens partialToken charCol charLine tokenStartCol tokenStartLine
       tokenHasContent Tokenize_loop].
  rewrite (wrap32_small (col + 1)) by lia.
  rewrite (col_after_no_newline gap);
    [| now apply all_spaces_no_newline | lia].
  rewrite wrap32_add_l, (wrap32_small (col + 1 + len gap + 1)) by lia.
  rewrite <- app_assoc. cbn [app]. eexists _, _. reflexivity.
Qed.

Lemma scan_line (after : ascii) (l : Line) :
  line_ok l = true ->
  forall i prev toks line scol sline,
    exists scol' sline',
      Tokenize_loop after i prev (line_text l)
        (mkTokState toks [] 0 line scol sline false false false)
      = Ok (mkTokState (toks ++ line_tokens line l) [] 0 (wrap32 (line + 1))
              scol' sline' false false false).
Proof.
  destruct l as [[head gap] value]. intros Hok i prev toks line scol sline.
  cbn [line_ok] in Hok.
  apply andb_prop in Hok. destruct Hok as [Hok Hlen].
  apply andb_prop in Hok. destruct Hok as [Hok Hv].
  apply andb_prop in Hok. destruct Hok as [Hhead Hgap].
  apply Z.ltb_lt in Hlen.
  pose proof (len_nonneg head). pose proof (len_nonneg gap).
  pose proof (is_word_len value Hv).
  cbn [line_text line_tokens]. rewrite Tokenize_loop_app.
  replace (hd after ([COLON] ++ (gap ++ value) ++ [LF])) with COLON
    by reflexivity.
  destruct (all_spaces head) eqn:Hsp.
  - rewrite scan_spaces by assumption. cbn [bind app].
    rewrite (col_after_no_newline head);
      [| now apply all_spaces_no_newline | lia].
    rewrite (wrap32_small (0 + len head)) by lia.
    destruct (scan_colon_value after gap value Hgap Hv (i + len head)
                (last head prev) toks head (0 + len head) line scol sline) as (scol' & sline' & E); [lia | lia |].
    change (COLON :: (gap ++ value) ++ [LF])
      with ([COLON] ++ (gap ++ value) ++ [LF]).
    rewrite E. exists scol', sline'. repeat f_equal; lia.
  - rewrite orb_false_r in Hhead.
    assert (Hh64 : len head < 2 ^ 64) by lia.
    pose proof (scan_token COLON [] head [] eq_refl eq_refl Hhead eq_refl
                  Hh64 i prev toks [] 0 line scol sline eq_refl) as E.
    cbn [app col_after] in E. rewrite !app_nil_r in E. rewrite E. clear E.
    cbn [bind].
    rewrite (col_after_no_newline head);
      [| apply plain_no_newline; now destruct (is_word_parts head Hhead)
       | lia].
    rewrite (wrap32_small (0 + len head)), (wrap32_small (0 + 1)) by lia.
    destruct (scan_colon_value after gap value Hgap Hv
                (i + len (head ++ [])) (last (head ++ []) prev)
                (toks ++ [mkToken Text head (0 + 1) line]) []
                (0 + len head) line (0 + 1) line)
      as (scol' & sline' & E); [lia | lia |].
    rewrite app_nil_r in E.
    change (COLON :: (gap ++ value) ++ [LF])
      with ([COLON] ++ (gap ++ value) ++ [LF]).
    rewrite E. exists scol', sline'. rewrite <- app_assoc.
    repeat f_equal; lia.
Qed.

Lemma Tokenize_loop_lines (ls : list Line) :
  Forall (fun l => line_ok l = true) ls ->
  forall i prev toks line scol sline,
    exists st',
      Tokenize_loop NUL i prev (doc_text ls)
        (mkTokState toks [] 0 line scol sline false false false)
      = Ok st'
      /\ tokens st' = toks ++ lines_tokens line ls.
Proof.
  induction 1 as [|l ls Hl _ IH]; intros i prev toks line scol sline.
  - eexists. split; [reflexivity|]. simpl. now rewrite app_nil_r.
  - change (doc_text (l :: ls)) with (line_text l ++ doc_text ls).
    rewrite Tokenize_loop_app.
    destruct (scan_line (hd NUL (doc_text ls)) l Hl i prev toks line
                scol sline) as (scol' & sline' & E).
    rewrite E. cbn [bind].
    destruct (IH (i + len (line_text l)) (last (line_text l) prev)
                (toks ++ line_tokens line l) (wrap32 (line + 1))
                scol' sline') as (st' & E' & Ht).
    exists st'. split; [assumption|].
    rewrite Ht. cbn [lines_tokens]. now rewrite app_assoc.
Qed.

Lemma Tokenize_loop_lines_tokens (ls : list Line) :
  Forall (fun l => line_ok l = true) ls ->
  Tokenize (doc_text ls) = Ok (lines_tokens 1 ls).
Proof.
  intros H. unfold Tokenize, TokState_init.
  destruct (Tokenize_loop_lines ls H 0 NUL [] 1 0 0) as (st' & E & Ht).
  rewrite E. cbn [bind]. now rewrite Ht.
Qed.

(** The tokens of a document of lines [head: value]: for each line the key,
    when the line begins with one, then the colon and the value, each at
    the column of its first character. *)
Theorem Tokenize_lines (ls : list Line) :
  Forall (fun l => line_ok l = true) ls ->
  Tokenize (doc_text ls) = Ok (lines_tokens 1 ls).
Proof. apply Tokenize_loop_lines_tokens. Qed.

Lemma Tokenize_lines_witness :
  Tokenize (doc_text [(lit "tags", lit " ", lit "red");
                      (lit "    ", lit " ", lit "dark blue")])
  = Ok (lines_tokens 1 [(lit "tags", lit " ", lit "red");
                        (lit "    ", lit " ", lit "dark blue")]).
Proof.
  apply (Tokenize_lines [(lit "tags", lit " ", lit "red");
                         (lit "    ", lit " ", lit "dark blue")]).
  repeat constructor.
Defined.

Lemma AddNode_at_last (ty : NodeType) (txt : string) (l : list Node)
    (x : Node) (p : NodePtr) (c : Node) :
  AddNode_at (mkNode ty txt (l ++ [x])) (length l :: p) c
  = mkNode ty txt (l ++ [AddNode_at x p c]).
Proof.
  cbn [AddNode_at m_type m_text m_children]. f_equal.
  induction l as [|y l IH]; simpl; [reflexivity | now f_equal].
Qed.

Lemma last_child_ptr_last (ty : NodeType) (txt : string) (l : list Node)
    (x : Node) (p : NodePtr) :
  last_child_ptr (mkNode ty txt (l ++ [x])) (length l :: p)
  = length l :: last_child_ptr x p.
Proof.
  unfold last_child_ptr. cbn [node_at m_children].
  rewrite nth_error_app2, Nat.sub_diag by apply Nat.le_refl. simpl.
  now destruct (node_at x p).
Qed.

Lemma frames_right_of_first_column (above : list InternalStackData) :
  Forall (fun f => 1 <= column (token f)) above ->
  forallb (fun f => negb (frame_matches 1 text_anchor_flag f)) above = true.
Proof.
  induction 1 as [|f above Hf _ IH]; [reflexivity|].
  simpl. rewrite IH, andb_true_r. unfold frame_matches.
  apply negb_true_iff, andb_false_intro1, Z.ltb_ge. assumption.
Qed.

Lemma AddNode_mk (ty : NodeType) (txt : string) (cs : list Node) (c : Node) :
  AddNode (mkNode ty txt cs) c = mkNode ty txt (cs ++ [c]).
Proof. reflexivity. Qed.

(** One turn of the loop of [Parse] on a colon and on a text token. *)
Lemma Parse_loop_colon (tok : Token) (toks : list Token) (root : Node)
    (stack stack' : list InternalStackData) (p : NodePtr) :
  type tok = Colon ->
  seekFn (column tok) colon_anchor_flag stack = (Some p, stack') ->
  Parse_loop (tok :: toks) root stack
  = Parse_loop toks (AddNode_at root p MakeGroup)
      (mkFrame tok (last_child_ptr root p) :: stack').
Proof. intros Ht Hs. cbn [Parse_loop]. now rewrite Ht, Hs. Qed.

Lemma Parse_loop_text (tok : Token) (toks : list Token) (root : Node)
    (stack stack' : list InternalStackData) (p : NodePtr) :
  type tok = Text ->
  seekFn (column tok) text_anchor_flag stack = (Some p, stack') ->
  Parse_loop (tok :: toks) root stack
  = Parse_loop toks (AddNode_at root p (MakeKey (text tok)))
      (mkFrame tok (last_child_ptr root p) :: stack').
Proof. intros Ht Hs. cbn [Parse_loop]. now rewrite Ht, Hs. Qed.

Ltac frame_hit :=
  unfold frame_matches; cbn; apply andb_true_intro; split;
  [apply Z.ltb_lt; lia | reflexivity].

(** The builder on the lines of the further values of a key: each colon
    finds the key, each value the colon in front of it. *)
Lemma Parse_loop_more (more : list Line) :
  forall rest line done key groups tv cv lv pv tc cc lc pc tk lk,
    more_ok cv more = true -> 1 <= cv -> 1 <= cc ->
    exists line' above,
      Forall (fun f => 1 <= column (token f)) above
      /\ Parse_loop (lines_tokens line (more ++ rest))
           (root_of (done ++ [mkNode Key key groups]))
           [mkFrame (mkToken Text tv cv lv) pv;
            mkFrame (mkToken Colon tc cc lc) pc;
            mkFrame (mkToken Text tk 1 lk) [length done];
            root_frame]
         = Parse_loop (lines_tokens line' rest)
             (root_of
                (done ++ [mkNode Key key
                            (groups
                             ++ map (fun l => group_raw (line_value l))
                                  more)]))
             (above ++ [root_frame]).
Proof.
  induction more as [|[[head gap] value] more IH];
    intros rest line done key groups tv cv lv pv tc cc lc pc tk lk
      Hok Hcv Hcc.
  - exists line,
      [mkFrame (mkToken Text tv cv lv) pv;
       mkFrame (mkToken Colon tc cc lc) pc;
       mkFrame (mkToken Text tk 1 lk) [length done]].
    split; [repeat constructor; simpl; lia|].
    simpl. now rewrite app_nil_r.
  - cbn [more_ok] in Hok.
    apply andb_prop in Hok. destruct Hok as [Hok Hmore].
    apply andb_prop in Hok. destruct Hok as [Hok Hline].
    apply andb_prop in Hok. destruct Hok as [Hok Hle].
    apply andb_prop in Hok. destruct Hok as [Hsp Hone].
    apply Z.leb_le in Hle. apply Z.leb_le in Hone.
    pose proof (len_nonneg gap).
    cbn [app lines_tokens line_tokens]. rewrite Hsp. cbn [app].
    unfold root_of.
    (* the colon *)
    erewrite Parse_loop_colon; [| reflexivity |].
    2:{ cbn [column].
        rewrite seekFn_miss
          by (unfold frame_matches; cbn;
              apply andb_false_intro1, Z.ltb_ge; lia).
        rewrite seekFn_miss
          by (unfold frame_matches; cbn; apply andb_false_intro2;
              reflexivity).
        rewrite seekFn_hit by frame_hit. reflexivity. }
    cbn [node].
    rewrite last_child_ptr_last, AddNode_at_last.
    cbn [last_child_ptr node_at AddNode_at m_children app].
    rewrite AddNode_mk.
    (* the value *)
    erewrite Parse_loop_text;
      [| reflexivity
       | cbn [column]; rewrite seekFn_hit by frame_hit; reflexivity].
    cbn [node].
    rewrite AddNode_at_last, AddNode_at_last.
    cbn [AddNode_at text].
    change (AddNode MakeGroup (MakeKey value)) with (group_raw value).
    match goal with
    | |- context [mkFrame (mkToken Text value _ _) ?p] =>
        generalize p; intros pv'
    end.
    destruct (IH rest (wrap32 (line + 1)) done key
                (groups ++ [group_raw value])
                value (len head + 1 + len gap + 1) line pv'
                [] (len head + 1) line [length done; length groups]
                tk lk Hmore ltac:(lia) ltac:(lia))
      as (line' & above & Habove & E).
    exists line', above. split; [assumption|].
    unfold root_of in E.
    rewrite E. cbn [map line_value snd]. now rewrite <- app_assoc.
Qed.

Lemma Parse_loop_entries (entries : list Entry) :
  Forall (fun e => entry_ok e = true) entries ->
  forall line done above,
    Forall (fun f => 1 <= column (token f)) above ->
    Parse_loop (lines_tokens line (doc_lines entries)) (root_of done)
      (above ++ [root_frame])
    = Ok (Some (root_of (done ++ map entry_raw entries))).
Proof.
  induction 1 as [|[key gap value more] entries He _ IH];
    intros line done above Habove.
  - simpl. now rewrite app_nil_r.
  - unfold entry_ok in He. cbn [e_key e_gap e_value e_more] in He.
    apply andb_prop in He. destruct He as [He Hmore].
    apply andb_prop in He. destruct He as [Hkey Hline].
    pose proof (is_word_len key Hkey). pose proof (len_nonneg gap).
    change (doc_lines (mkEntry key gap value more :: entries))
      with (((key, gap, value) :: more) ++ doc_lines entries).
    cbn [app lines_tokens line_tokens].
    rewrite (is_word_not_spaces key Hkey). cbn [app].
    unfold root_of.
    (* the key *)
    erewrite Parse_loop_text; [| reflexivity |].
    2:{ cbn [column].
        rewrite seekFn_skip by now apply frames_right_of_first_column.
        rewrite seekFn_hit by (apply root_frame_matches_text; lia).
        reflexivity. }
    cbn [node root_frame].
    cbn [last_child_ptr node_at AddNode_at m_children app text].
    rewrite AddNode_mk. unfold MakeKey at 1.
    (* the colon *)
    erewrite Parse_loop_colon;
      [| reflexivity
       | cbn [column]; rewrite seekFn_hit by frame_hit; reflexivity].
    cbn [node].
    rewrite last_child_ptr_last, AddNode_at_last.
    cbn [last_child_ptr node_at AddNode_at m_children app length].
    rewrite AddNode_mk. cbn [app].
    (* the value *)
    erewrite Parse_loop_text;
      [| reflexivity
       | cbn [column]; rewrite seekFn_hit by frame_hit; reflexivity].
    cbn [node].
    rewrite AddNode_at_last.
    rewrite (AddNode_at_last Key key [] MakeGroup).
    cbn [AddNode_at text].
    change (AddNode MakeGroup (MakeKey value)) with (group_raw value).
    match goal with
    | |- context [mkFrame (mkToken Text value _ _) ?p] =>
        generalize p; intros pv'
    end.
    destruct (Parse_loop_more more (doc_lines entries) (wrap32 (line + 1))
                done key [group_raw value]
                value (len key + 1 + len gap + 1) line pv'
                [] (len key + 1) line [length done; 0%nat]
                key line Hmore ltac:(lia) ltac:(lia))
      as (line' & above' & Habove' & E).
    unfold root_of in E. cbn [app].
    etransitivity; [exact E|].
    pose proof (IH line' (done ++ [entry_raw (mkEntry key gap value more)])
                  above' Habove') as E'.
    unfold root_of in E'. unfold entry_raw at 1 in E'.
    cbn [e_key e_value e_more map] in E'. rewrite map_map in E'.
    cbn [app]. rewrite E'. cbn [map app]. now rewrite <- app_assoc.
Qed.

Lemma Simplify_entry_raw (e : Entry) : Simplify (entry_raw e) = entry_node e.
Proof.
  destruct e as [key gap value more]. unfold entry_raw, entry_node, list_node.
  cbn [e_key e_value e_more]. rewrite Simplify_unfold, map_map.
  rewrite (map_ext (fun x => Simplify (group_raw x)) group_of)
    by reflexivity.
  destruct (map line_value more) as [|w ws]; [reflexivity|].
  cbn [map collapse_group]. unfold combine_values, key_to_value.
  cbn [NodeType_eqb orb andb forallb is_type group_of m_type].
  destruct (1 <? _); reflexivity.
Qed.

Lemma Simplify_root_of (cs : list Node) :
  Simplify (root_of cs) = root_of (map Simplify cs).
Proof.
  unfold root_of. rewrite Simplify_unfold.
  now rewrite collapse_group_not_key by discriminate.
Qed.

Lemma more_ok_lines (ls : list Line) :
  forall prev_col,
    more_ok prev_col ls = true -> Forall (fun l => line_ok l = true) ls.
Proof.
  induction ls as [|[[head gap] value] ls IH]; intros prev_col H;
    [constructor|].
  cbn [more_ok] in H.
  apply andb_prop in H. destruct H as [H Hmore].
  apply andb_prop in H. destruct H as [_ Hline].
  constructor; [assumption | now apply (IH _ Hmore)].
Qed.

Lemma entries_lines_ok (entries : list Entry) :
  Forall (fun e => entry_ok e = true) entries ->
  Forall (fun l => line_ok l = true) (doc_lines entries).
Proof.
  induction 1 as [|e entries He _ IH]; [constructor|].
  change (doc_lines (e :: entries)) with (entry_lines e ++ doc_lines entries).
  apply Forall_app. split; [|assumption].
  unfold entry_ok in He.
  apply andb_prop in He. destruct He as [He Hmore].
  apply andb_prop in He. destruct He as [_ Hline].
  constructor; [assumption | now apply (more_ok_lines _ _ Hmore)].
Qed.

Lemma Parse_doc_lines (entries : list Entry) :
  Forall (fun e => entry_ok e = true) entries ->
  Parse (doc_text (doc_lines entries))
  = Ok (Some (root_of (map entry_node entries))).
Proof.
  intros H.
  rewrite (Parse_of_tokens _ _
             (Tokenize_loop_lines_tokens (doc_lines entries)
                (entries_lines_ok entries H))).
  unfold build. change (mkNode None_ [] []) with (root_of []).
  pose proof (Parse_loop_entries entries H 1 [] [] (Forall_nil _)) as E.
  cbn [app] in E. rewrite E. cbn [bind]. rewrite Simplify_root_of, map_map.
  now rewrite (map_ext _ _ Simplify_entry_raw).
Qed.

(** A document of keys, each with a value on its line and, on the lines
    below, further values behind a colon that stands right of the first
    column and not right of the value above: [Parse] gives a root with one
    key node for each key, in order; the key has a single value child when
    it has one value and one group for each value, in order, when it has
    more. *)
Theorem Parse_entries (entries : list Entry) :
  Forall (fun e => entry_ok e = true) entries ->
  Parse (doc_text (doc_lines entries))
  = Ok (Some (root_of (map entry_node entries))).
Proof. apply Parse_doc_lines. Qed.

Lemma Parse_entries_witness :
  Parse (doc_text (doc_lines
           [mkEntry (lit "name") (lit " ") (lit "Dust Bunny") [];
            mkEntry (lit "tags") (lit " ") (lit "red")
              [(lit "    ", lit " ", lit "dark blue");
               (lit "  ", lit "   ", lit "green")]]))
  = Ok (Some (root_of
                [mkNode Key (lit "name") [MakeValue (lit "Dust Bunny")];
                 mkNode Key (lit "tags")
                   [group_of (lit "red"); group_of (lit "dark blue");
                    group_of (lit "green")]])).
Proof.
  apply (Parse_entries
           [mkEntry (lit "name") (lit " ") (lit "Dust Bunny") [];
            mkEntry (lit "tags") (lit " ") (lit "red")
              [(lit "    ", lit " ", lit "dark blue");
               (lit "  ", lit "   ", lit "green")]]).
  repeat constructor.
Defined.

(* ------------------------------------------------------------------------- *)
(** ** [Serialize] on keys with one value or a list of values *)

Lemma SerializeRecursive_children (depth : Z) (n : Node) (out : string) :
  SerializeRecursive depth n out
  = Serialize_children depth (m_children n) 0 out.
Proof.
  destruct n as [ty txt cs]. cbn [m_children].
  change (SerializeRecursive depth (mkNode ty txt cs) out)
    with ((fix children_loop (children : list Node) (child_count : Z)
             (out : string) {struct children} : string :=
             match children with
             | [] => out
             | child :: children' =>
                 children_loop children' (wrap32 (child_count + 1))
                   (Serialize_children depth [child] child_count out)
             end) cs 0 out).
  generalize 0. revert out.
  induction cs as [|c cs IH]; intros out count; [reflexivity|].
  cbn fix match beta. rewrite IH. reflexivity.
Qed.

Lemma add_spaces_fn_zero (out : string) : add_spaces_fn out 0 = out.
Proof. unfold add_spaces_fn. simpl. apply app_nil_r. Qed.

Lemma Simplify_list_node (key value : string) (more : list string) :
  Simplify (list_node key value more) = list_node key value more.
Proof.
  unfold list_node. destruct more as [|w ws]; [reflexivity|].
  apply Simplify_fixed_node.
  - rewrite map_map. now apply map_ext.
  - reflexivity.
  - unfold combine_values.
    cbn [NodeType_eqb orb andb forallb is_type group_of m_type map].
    now destruct (1 <? _).
  - reflexivity.
Qed.

Lemma Serialize_children_group (depth : Z) (w : string) (cs : list Node)
    (count : Z) (out : string) :
  Serialize_children depth (group_of w :: cs) count out
  = Serialize_children depth cs (wrap32 (count + 1))
      (SerializeRecursive depth (group_of w)
         (if negb (count =? 0)
          then add_spaces_fn out (wrap32 (depth - 2)) ++ [COLON; SPACE]
          else out)).
Proof. reflexivity. Qed.

Lemma SerializeRecursive_group_of (depth : Z) (w : string) (out : string) :
  is_word w = true ->
  SerializeRecursive depth (group_of w) out = out ++ w ++ [LF].
Proof.
  intros Hw. unfold group_of.
  now rewrite SerializeRecursive_value, sanitize_string_word.
Qed.

(** The groups of a list behind the first one: each on a line of its own,
    the colon under the colon of the key. *)
Lemma Serialize_children_groups (depth : Z) (ws : list string) :
  2 <= depth < 2 ^ 32 ->
  forallb is_word ws = true ->
  forall count out,
    0 < count -> count + Z.of_nat (length ws) < 2 ^ 32 ->
    Serialize_children depth (map group_of ws) count out
    = out ++ doc_text
               (map (fun w => (repeat SPACE (Z.to_nat (depth - 2)),
                               [SPACE], w)) ws).
Proof.
  intros Hd. induction ws as [|w ws IH]; intros Hws count out Hc Hlen.
  - simpl. now rewrite app_nil_r.
  - cbn [forallb] in Hws. apply andb_prop in Hws. destruct Hws as [Hw Hws].
    cbn [length] in Hlen. rewrite Nat2Z.inj_succ in Hlen.
    cbn [map]. rewrite Serialize_children_group.
    replace (count =? 0) with false by (symmetry; apply Z.eqb_neq; lia).
    cbn [negb]. rewrite SerializeRecursive_group_of by assumption.
    rewrite (wrap32_small (depth - 2)), (wrap32_small (count + 1)) by lia.
    rewrite IH by (assumption || lia).
    unfold add_spaces_fn, doc_text. cbn [map concat line_text].
    rewrite <- !app_assoc. reflexivity.
Qed.

Lemma SerializeRecursive_list_node (depth : Z) (key value : string)
    (more : list string) (out : string) :
  2 <= depth < 2 ^ 32 ->
  forallb is_word (value :: more) = true ->
  Z.of_nat (length more) + 1 < 2 ^ 32 ->
  SerializeRecursive depth (list_node key value more) out
  = out ++ value ++ [LF]
        ++ doc_text
             (map (fun w => (repeat SPACE (Z.to_nat (depth - 2)),
                             [SPACE], w)) more).
Proof.
  intros Hd Hws Hlen. cbn [forallb] in Hws.
  apply andb_prop in Hws. destruct Hws as [Hv Hws].
  unfold list_node. destruct more as [|w ws].
  - rewrite SerializeRecursive_value, sanitize_string_word by assumption.
    reflexivity.
  - rewrite SerializeRecursive_children.
    cbn [m_children]. set (rest := w :: ws) in *.
    cbn [map]. rewrite Serialize_children_group.
    cbn [Z.eqb negb]. rewrite SerializeRecursive_group_of by assumption.
    rewrite (wrap32_small (0 + 1)) by lia.
    rewrite Serialize_children_groups by (assumption || lia).
    now rewrite <- !app_assoc.
Qed.

Lemma doc_text_app (a b : list Line) :
  doc_text (a ++ b) = doc_text a ++ doc_text b.
Proof. unfold doc_text. now rewrite map_app, concat_app. Qed.

Lemma item_ok_parts (key value : string) (more : list string) :
  item_ok (key, value, more) = true ->
  is_word key = true
  /\ forallb is_word (value :: more) = true
  /\ Forall (fun v => len key + 2 + len v < 2 ^ 32) (value :: more)
  /\ Z.of_nat (length more) + 1 < 2 ^ 32.
Proof.
  unfold item_ok. intros H.
  apply andb_prop in H. destruct H as [H Hlen].
  apply andb_prop in H. destruct H as [Hkey Hall].
  apply Z.ltb_lt in Hlen. repeat split; try assumption.
  - rewrite forallb_forall in Hall |- *. intros v Hv.
    specialize (Hall v Hv). now apply andb_prop in Hall.
  - apply Forall_forall. intros v Hv. rewrite forallb_forall in Hall.
    specialize (Hall v Hv). apply andb_prop in Hall.
    now apply Z.ltb_lt.
Qed.

Lemma Serialize_children_items (items : list Item) :
  Forall (fun it => item_ok it = true) items ->
  forall count out,
    Serialize_children 0 (map item_node items) count out
    = out ++ doc_text (doc_lines (map item_entry items)).
Proof.
  induction 1 as [|[[key value] more] items Hit _ IH]; intros count out.
  - simpl. now rewrite app_nil_r.
  - destruct (item_ok_parts key value more Hit)
      as (Hkey & Hws & Hlens & Hlen).
    pose proof (is_word_len key Hkey).
    pose proof (Forall_inv Hlens) as Hv. cbn beta in Hv.
    pose proof (len_nonneg value).
    cbn [map item_node].
    change (Serialize_children 0 (list_node key value more
                                  :: map item_node items) count out)
      with (Serialize_children 0 (map item_node items) (wrap32 (count + 1))
              (SerializeRecursive
                 (wrap32 (0 + len (sanitize_string key (wrap32 (0 + 1))) + 2))
                 (list_node key value more)
                 ((if negb (count =? 0) then add_spaces_fn out 0 else out)
                  ++ sanitize_string key (wrap32 (0 + 1))
                  ++ [COLON; SPACE]))).
    rewrite IH, add_spaces_fn_zero, sanitize_string_word by assumption.
    destruct (count =? 0); cbn [negb].
    all: rewrite (wrap32_small (0 + len key + 2)) by lia.
    all: rewrite SerializeRecursive_list_node by (assumption || lia).
    all: replace (Z.to_nat (0 + len key + 2 - 2)) with (length key)
           by (unfold len; lia).
    all: change (doc_lines (item_entry (key, value, more)
                            :: map item_entry items))
           with (entry_lines (item_entry (key, value, more))
                 ++ doc_lines (map item_entry items)).
    all: rewrite doc_text_app; unfold entry_lines, item_entry.
    all: cbn [e_key e_gap e_value e_more].
    all: change (doc_text ((key, [SPACE], value) :: ?l))
           with (line_text (key, [SPACE], value) ++ doc_text l).
    all: cbn [line_text]; rewrite <- !app_assoc; reflexivity.
Qed.

Lemma Simplify_item_nodes (items : list Item) :
  Simplify (root_of (map item_node items)) = root_of (map item_node items).
Proof.
  rewrite Simplify_root_of, map_map. f_equal. apply map_ext.
  intros [[key value] more]. apply Simplify_list_node.
Qed.

Lemma Serialize_item_nodes (items : list Item) :
  Forall (fun it => item_ok it = true) items ->
  Serialize (root_of (map item_node items))
  = doc_text (doc_lines (map item_entry items)).
Proof.
  intros H. unfold Serialize, SimplifyCopy.
  rewrite Simplify_item_nodes, SerializeRecursive_children.
  cbn [root_of m_children].
  now rewrite (Serialize_children_items items H 0 []).
Qed.

Lemma all_spaces_repeat (n : nat) : all_spaces (repeat SPACE n) = true.
Proof. induction n as [|n IH]; [reflexivity | simpl; now rewrite IH]. Qed.

Lemma len_repeat (c : ascii) (n : nat) : len (repeat c n) = Z.of_nat n.
Proof. unfold len. now rewrite repeat_length. Qed.

Lemma item_entry_ok (it : Item) :
  item_ok it = true -> entry_ok (item_entry it) = true.
Proof.
  destruct it as [[key value] more]. intros H.
  destruct (item_ok_parts key value more H) as (Hkey & Hws & Hlens & _).
  pose proof (is_word_len key Hkey).
  cbn [forallb] in Hws. apply andb_prop in Hws. destruct Hws as [Hv Hws].
  pose proof (Forall_inv Hlens) as Hlv. cbn beta in Hlv.
  pose proof (Forall_inv_tail Hlens) as Hlm. clear Hlens H.
  unfold entry_ok, item_entry. cbn [e_key e_gap e_value e_more line_ok].
  rewrite Hkey, Hv. cbn [orb andb all_spaces forallb].
  change (eqc SPACE SPACE) with true. cbn [andb].
  change (len [SPACE]) with 1.
  replace (len key + 1 + 1 + len value <? 2 ^ 32) with true
    by (symmetry; apply Z.ltb_lt; lia).
  cbn [andb].
  induction more as [|w ws IH]; [reflexivity|].
  cbn [forallb] in Hws. apply andb_prop in Hws. destruct Hws as [Hw Hws'].
  pose proof (Forall_inv Hlm) as Hlw. cbn beta in Hlw.
  cbn [map more_ok line_ok].
  rewrite all_spaces_repeat, len_repeat, Hw. fold (len key).
  change (len [SPACE]) with 1. rewrite orb_true_r.
  cbn [all_spaces forallb]. change (eqc SPACE SPACE) with true.
  replace (1 <=? len key) with true by (symmetry; apply Z.leb_le; lia).
  replace (len key + 1 <=? len key + 1 + 1 + 1) with true
    by (symmetry; apply Z.leb_le; lia).
  replace (len key + 1 + 1 + len w <? 2 ^ 32) with true
    by (symmetry; apply Z.ltb_lt; lia).
  cbn [andb]. apply IH; [assumption | now apply Forall_inv_tail in Hlm].
Qed.

Lemma item_entry_node (it : Item) : entry_node (item_entry it) = item_node it.
Proof.
  destruct it as [[key value] more]. unfold entry_node, item_entry, item_node.
  cbn [e_key e_value e_more]. rewrite map_map. cbn [line_value snd].
  now rewrite map_id.
Qed.

(** [Serialize] on a root of keys with one value or a list of values, keys
    and values being texts that need no quotes: one line [key: value] for
    each key and, for a list, one line for each further value: as many
    spaces as the key has characters, so that the colon behind them stands
    under the colon of the key, then a space and the value. *)
Theorem Serialize_items (items : list Item) :
  Forall (fun it => item_ok it = true) items ->
  Serialize (root_of (map item_node items))
  = doc_text (doc_lines (map item_entry items)).
Proof. apply Serialize_item_nodes. Qed.

Lemma Serialize_items_witness :
  Serialize (root_of (map item_node
               [(lit "name", lit "Dust Bunny", []);
                (lit "tags", lit "red", [lit "dark blue"])]))
  = lit "name: Dust Bunny" ++ [LF]
    ++ lit "tags: red" ++ [LF]
    ++ lit "    : dark blue" ++ [LF].
Proof.
  apply (Serialize_items
           [(lit "name", lit "Dust Bunny", []);
            (lit "tags", lit "red", [lit "dark blue"])]).
  repeat constructor.
Defined.

(** Round trip: the text [Serialize] writes for a root of keys with one
    value or a list of values, keys and values being texts that need no
    quotes, is parsed back to that root. *)
Theorem Parse_Serialize_items (items : list Item) :
  Forall (fun it => item_ok it = true) items ->
  Parse (Serialize (root_of (map item_node items)))
  = Ok (Some (root_of (map item_node items))).
Proof.
  intros H. rewrite (Serialize_item_nodes items H).
  rewrite Parse_doc_lines.
  - rewrite map_map. now rewrite (map_ext _ _ item_entry_node).
  - apply Forall_map. revert H. apply Forall_impl. apply item_entry_ok.
Qed.

Lemma Parse_Serialize_items_witness :
  Parse (Serialize (root_of (map item_node
           [(lit "name", lit "Dust Bunny", []);
            (lit "tags", lit "red", [lit "dark blue"; lit "green"])])))
  = Ok (Some (root_of (map item_node
           [(lit "name", lit "Dust Bunny", []);
            (lit "tags", lit "red", [lit "dark blue"; lit "green"])]))).
Proof.
  apply (Parse_Serialize_items
           [(lit "name", lit "Dust Bunny", []);
            (lit "tags", lit "red", [lit "dark blue"; lit "green"])]).
  repeat constructor.
Defined.

(* ------------------------------------------------------------------------- *)
(** ** Values written between quotes *)

Lemma sanitize_string_quoted (text : string) (col : Z) :
  needs_quotes text = true ->
  forallb (fun c => negb (eqc c DQUOTE)) text = true ->
  sanitize_string text col
  = DQUOTE :: pad_newlines (Z.to_nat col) text ++ [DQUOTE].
Proof.
  intros Hq Hdq. unfold sanitize_string. fold (needs_quotes text).
  rewrite Hq. now rewrite sanitize_loop_pad.
Qed.

Lemma pad_newlines_no_quote (col : nat) (text : string) :
  forallb (fun c => negb (eqc c DQUOTE)) text = true ->
  forallb (fun c => negb (eqc c DQUOTE)) (pad_newlines col text) = true.
Proof.
  induction text as [|c text IH]; intros H; [reflexivity|].
  simpl in H. apply andb_prop in H. destruct H as [Hc H].
  simpl. destruct (eqc c LF) eqn:Ec.
  - simpl. rewrite forallb_app, IH by assumption. rewrite andb_true_r.
    clear. induction col as [|n IHn]; [reflexivity | exact IHn].
  - simpl. now rewrite Hc, IH.
Qed.

Lemma Trim_padded (sp text : string) (col : Z) :
  0 <= col -> all_spaces sp = true ->
  len (pad_newlines (Z.to_nat col) text) + 2 < 2 ^ 64 ->
  Trim (sp ++ DQUOTE :: pad_newlines (Z.to_nat col) text ++ [DQUOTE]) col
  = Ok text.
Proof.
  intros Hcol Hsp Hlen. rewrite Trim_quoted by assumption.
  pose proof (pad_newlines_length (Z.to_nat col) text) as Hpad.
  apply (Trim_dedent_pad col _ Hcol [] text).
  - lia.
  - unfold npos, len in *. cbn [app]. lia.
Qed.

(** Round trip of a key that is a text of one line that needs no quotes,
    with one value that [Serialize] writes between quotes (a colon, a hash
    or a line feed in it, or a space at either end): when the value has no
    double quote and does not end in a backslash, and the columns stay
    below [2 ^ 32], the text written is parsed back to the same tree. *)
Theorem Parse_Serialize_quoted (key text : string) :
  is_word key = true ->
  needs_quotes text = true ->
  forallb (fun c => negb (eqc c DQUOTE)) text = true ->
  ends_with text BACKSLASH = false ->
  len key + 3 < 2 ^ 32 ->
  len (pad_newlines (Z.to_nat (len key + 3)) text) + 2 < 2 ^ 64 ->
  Parse (Serialize (root_of [mkNode Key key [MakeValue text]]))
  = Ok (Some (root_of [mkNode Key key [MakeValue text]])).
Proof.
  intros Hkey Hq Hdq Hbs Hcol Hlen.
  pose proof (is_word_len key Hkey) as Hk.
  destruct (is_word_parts key Hkey) as (Hplain & _).
  set (depth := len key + 2).
  set (out := pad_newlines (Z.to_nat (depth + 1)) text).
  assert (Hout : out = pad_newlines (Z.to_nat (len key + 3)) text).
  { unfold out, depth. do 2 f_equal. lia. }
  assert (Hsan : sanitize_string text (wrap32 (depth + 1))
                 = DQUOTE :: out ++ [DQUOTE]).
  { unfold depth. rewrite wrap32_small by lia.
    now apply sanitize_string_quoted. }
  assert (Eser :
    Serialize (root_of [mkNode Key key [MakeValue text]])
    = key ++ [COLON] ++ [SPACE] ++ (DQUOTE :: out ++ [DQUOTE]) ++ [LF]).
  { unfold Serialize, SimplifyCopy.
    change (Simplify (root_of [mkNode Key key [MakeValue text]]))
      with (root_of [mkNode Key key [MakeValue text]]).
    unfold root_of. rewrite SerializeRecursive_key.
    rewrite sanitize_string_word by assumption.
    replace (wrap32 (0 + len key + 2)) with depth
      by (unfold depth; rewrite wrap32_small; lia).
    rewrite SerializeRecursive_value, Hsan.
    cbn [app]. rewrite <- !app_assoc. reflexivity. }
  rewrite Eser.
  assert (Etok :
    Tokenize (key ++ [COLON] ++ [SPACE] ++ (DQUOTE :: out ++ [DQUOTE]) ++ [LF])
    = Ok [mkToken Text key 1 1; mkToken Colon [] (len key + 1) 1;
          mkToken Text text (depth + 1) 1]).
  { unfold Tokenize, TokState_init.
    rewrite Tokenize_loop_app. cbn [hd app].
    assert (Hk64 : len key < 2 ^ 64) by lia.
    pose proof (scan_token COLON [] key [] eq_refl eq_refl Hkey eq_refl
                  Hk64 0 NUL [] [] 0 1 0 0 eq_refl) as E.
    cbn [app col_after] in E. rewrite !app_nil_r in E. rewrite E. clear E.
    cbn [bind].
    rewrite Tokenize_loop_cons, step_colon by reflexivity. cbn [bind].
    rewrite Tokenize_loop_cons, step_idle_space by reflexivity. cbn [bind].
    cbn [tokens partialToken charCol charLine tokenStartCol tokenStartLine
         tokenHasContent app].
    rewrite (col_after_no_newline key)
      by (now apply plain_no_newline || lia).
    rewrite !wrap32_add_l.
    rewrite (wrap32_small (0 + 1)), (wrap32_small (0 + len key + 1)),
      (wrap32_small (0 + len key + 1 + 1)) by lia.
    change (DQUOTE :: (out ++ [DQUOTE]) ++ [LF])
      with ((DQUOTE :: out ++ [DQUOTE]) ++ [LF]).
    rewrite Tokenize_loop_app. cbn [hd].
    rewrite (scan_quoted LF out eq_refl) with (t := text).
    - cbn [bind Tokenize_loop]. rewrite step_idle_newline by reflexivity.
      cbn [bind tokens]. rewrite wrap32_small by lia.
      unfold depth. rewrite !Z.add_0_l.
      replace (len key + 1 + 1 + 1) with (len key + 2 + 1) by lia.
      reflexivity.
    - unfold out. now apply pad_newlines_no_quote.
    - unfold out. now apply pad_newlines_last.
    - rewrite wrap32_small by lia.
      replace (0 + len key + 1 + 1 + 1) with (depth + 1)
        by (unfold depth; lia).
      apply (Trim_padded [SPACE] text (depth + 1));
        [unfold depth; lia | reflexivity | fold out; rewrite Hout; lia]. }
  rewrite (Parse_of_tokens _ _ Etok).
  destruct (build_scalar key text 1 (len key + 1) (depth + 1) 1 1 1)
    as (raw & -> & Hraw); try (unfold depth; lia).
  cbn [bind]. now rewrite Hraw.
Qed.

Lemma Parse_Serialize_quoted_witness :
  Parse (Serialize (root_of [mkNode Key (lit "title")
                               [MakeValue (lit " Episode: Pilot #1 ")]]))
  = Ok (Some (root_of [mkNode Key (lit "title")
                         [MakeValue (lit " Episode: Pilot #1 ")]])).
Proof.
  apply (Parse_Serialize_quoted (lit "title") (lit " Episode: Pilot #1 "));
    solve [reflexivity | vm_compute; reflexivity].
Defined.

(* ------------------------------------------------------------------------- *)
(** ** A text without a value, a key without a value *)

(** A document that is one unquoted text: a root with one value node. *)
Theorem Parse_bare_text (sp w sp2 : string) :
  all_spaces sp = true -> is_word w = true -> all_spaces sp2 = true ->
  len sp + len w < 2 ^ 32 ->
  Parse (sp ++ w ++ sp2) = Ok (Some (root_of [MakeValue w])).
Proof.
  intros Hsp Hw Hsp2 Hlen. pose proof (len_nonneg sp).
  rewrite (Parse_of_tokens _ _ (Tokenize_one_word sp w sp2 Hsp Hw Hsp2 Hlen)).
  unfold build. cbn [Parse_loop type column].
  rewrite seekFn_hit by (apply root_frame_matches_text; lia).
  reflexivity.
Qed.

Lemma Parse_bare_text_witness :
  Parse (lit "  " ++ lit "hello world" ++ lit " ")
  = Ok (Some (root_of [MakeValue (lit "hello world")])).
Proof.
  apply (Parse_bare_text (lit "  ") (lit "hello world") (lit " "));
    solve [reflexivity | vm_compute; reflexivity].
Defined.

(** A key whose value is the empty text does not come back: [Serialize]
    writes the key, a colon and a space, and [Parse] reads that line as a
    value that has the text of the key. *)
Theorem Parse_Serialize_empty_value (key : string) :
  is_word key = true -> len key + 2 < 2 ^ 32 ->
  Serialize (root_of [mkNode Key key [MakeValue []]])
  = key ++ [COLON; SPACE; LF]
  /\ Parse (Serialize (root_of [mkNode Key key [MakeValue []]]))
     = Ok (Some (root_of [MakeValue key])).
Proof.
  intros Hkey Hlen. pose proof (is_word_len key Hkey) as Hk.
  destruct (is_word_parts key Hkey) as (Hplain & _).
  assert (Eser : Serialize (root_of [mkNode Key key [MakeValue []]])
                 = key ++ [COLON; SPACE; LF]).
  { unfold Serialize, SimplifyCopy.
    change (Simplify (root_of [mkNode Key key [MakeValue []]]))
      with (root_of [mkNode Key key [MakeValue []]]).
    unfold root_of. rewrite SerializeRecursive_key.
    rewrite sanitize_string_word by assumption.
    rewrite SerializeRecursive_value. cbn [app].
    rewrite <- app_assoc. reflexivity. }
  split; [exact Eser|]. rewrite Eser.
  assert (Etok : Tokenize (key ++ [COLON; SPACE; LF])
                 = Ok [mkToken Text key 1 1;
                       mkToken Colon [] (len key + 1) 1]).
  { unfold Tokenize, TokState_init.
    rewrite Tokenize_loop_app. cbn [hd].
    assert (Hk64 : len key < 2 ^ 64) by lia.
    pose proof (scan_token COLON [] key [] eq_refl eq_refl Hkey eq_refl
                  Hk64 0 NUL [] [] 0 1 0 0 eq_refl) as E.
    cbn [app col_after] in E. rewrite !app_nil_r in E. rewrite E. clear E.
    cbn [bind].
    rewrite Tokenize_loop_cons, step_colon by reflexivity. cbn [bind].
    rewrite Tokenize_loop_cons, step_idle_space by reflexivity. cbn [bind].
    rewrite Tokenize_loop_cons, step_idle_newline by reflexivity.
    cbn [bind Tokenize_loop tokens charCol charLine app].
    rewrite (col_after_no_newline key)
      by (now apply plain_no_newline || lia).
    rewrite !wrap32_add_l.
    rewrite (wrap32_small (0 + 1)), (wrap32_small (0 + len key + 1)) by lia.
    now rewrite !Z.add_0_l. }
  rewrite (Parse_of_tokens _ _ Etok).
  unfold build. cbn [Parse_loop type column].
  rewrite seekFn_hit by (apply root_frame_matches_text; lia).
  cbn [Parse_loop type column].
  rewrite seekFn_hit
    by (unfold frame_matches; cbn; apply andb_true_intro; split;
        [apply Z.ltb_lt; lia | reflexivity]).
  reflexivity.
Qed.

Lemma Parse_Serialize_empty_value_witness :
  Serialize (root_of [mkNode Key (lit "name") [MakeValue []]])
  = lit "name" ++ [COLON; SPACE; LF]
  /\ Parse (Serialize (root_of [mkNode Key (lit "name") [MakeValue []]]))
     = Ok (Some (root_of [MakeValue (lit "name")])).
Proof.
  apply (Parse_Serialize_empty_value (lit "name"));
    solve [reflexivity | vm_compute; reflexivity].
Defined.

(* ------------------------------------------------------------------------- *)
(** ** Trees of keys and values: what [Serialize] writes *)

Lemma Tree_ind_groups (P : Tree -> Prop) :
  (forall v, P (TValue v)) ->
  (forall k gs, Forall (Forall P) gs -> P (TKey k gs)) ->
  forall t, P t.
Proof.
  intros Hv Hk. fix IH 1. intros [v|k gs]; [apply Hv|].
  apply Hk. induction gs as [|g gs IHgs]; constructor; [|exact IHgs].
  induction g as [|t g IHg]; constructor; [apply IH | exact IHg].
Qed.

Lemma wf_tree_value (d : Z) (v : string) :
  wf_tree d (TValue v) = true -> is_word v = true /\ d + len v < 2 ^ 32.
Proof.
  cbn [wf_tree]. intros H. apply andb_prop in H. destruct H as [Hv Hd].
  apply Z.ltb_lt in Hd. now split.
Qed.

Lemma wf_tree_key (d : Z) (k : string) (gs : list (list Tree)) :
  wf_tree d (TKey k gs) = true ->
  is_word k = true /\ d + len k + 2 < 2 ^ 32
  /\ gs <> [] /\ Z.of_nat (length gs) < 2 ^ 32
  /\ Forall (fun g => group_ok g = true
                      /\ Forall (fun t => wf_tree (d + len k + 2) t = true) g)
       gs.
Proof.
  cbn [wf_tree]. intros H.
  apply andb_prop in H. destruct H as [H Hgs].
  apply andb_prop in H. destruct H as [H Hlen].
  apply andb_prop in H. destruct H as [H Hne].
  apply andb_prop in H. destruct H as [Hk Hd].
  apply Z.ltb_lt in Hd. apply Z.ltb_lt in Hlen. apply Z.ltb_lt in Hne.
  repeat split; try assumption.
  - intros ->. simpl in Hne. lia.
  - apply Forall_forall. intros g Hg. rewrite forallb_forall in Hgs.
    specialize (Hgs g Hg). apply andb_prop in Hgs. destruct Hgs as [Hok Hts].
    split; [assumption|]. apply Forall_forall. intros t Ht.
    rewrite forallb_forall in Hts. now apply Hts.
Qed.

Lemma group_ok_length (g : list Tree) :
  group_ok g = true -> g <> [] /\ Z.of_nat (length g) < 2 ^ 32.
Proof.
  unfold group_ok. intros H.
  apply andb_prop in H. destruct H as [H _].
  apply andb_prop in H. destruct H as [Hne Hlen].
  apply Z.ltb_lt in Hne. apply Z.ltb_lt in Hlen.
  split; [|assumption]. intros ->. simpl in Hne. lia.
Qed.

Lemma Serialize_children_value (d : Z) (v : string) (rest : list Node)
    (count : Z) (out : string) :
  Serialize_children d (MakeValue v :: rest) count out
  = Serialize_children d rest (wrap32 (count + 1))
      ((if negb (count =? 0) then add_spaces_fn out d else out)
       ++ sanitize_string v (wrap32 (d + 1)) ++ [LF]).
Proof. reflexivity. Qed.

Lemma Serialize_children_key (d : Z) (k : string) (cs rest : list Node)
    (count : Z) (out : string) :
  Serialize_children d (mkNode Key k cs :: rest) count out
  = Serialize_children d rest (wrap32 (count + 1))
      (SerializeRecursive
         (wrap32 (d + len (sanitize_string k (wrap32 (d + 1))) + 2))
         (mkNode Key k cs)
         ((if negb (count =? 0) then add_spaces_fn out d else out)
          ++ sanitize_string k (wrap32 (d + 1)) ++ [COLON; SPACE])).
Proof. reflexivity. Qed.

Lemma Serialize_children_group_node (d : Z) (txt : string)
    (cs rest : list Node) (count : Z) (out : string) :
  Serialize_children d (mkNode Group txt cs :: rest) count out
  = Serialize_children d rest (wrap32 (count + 1))
      (SerializeRecursive d (mkNode Group txt cs)
         (if negb (count =? 0)
          then add_spaces_fn out (wrap32 (d - 2)) ++ [COLON; SPACE]
          else out)).
Proof. reflexivity. Qed.

(** The text in front of the child with number [count]. *)
Lemma indent_child (d count : Z) (out : string) :
  (if negb (count =? 0) then add_spaces_fn out d else out)
  = out ++ child_indent d count.
Proof.
  unfold child_indent. destruct (count =? 0); simpl;
    [now rewrite app_nil_r | reflexivity].
Qed.

Lemma child_indent_spaces (d count : Z) :
  d = 0 \/ 0 < count -> child_indent d count = repeat SPACE (Z.to_nat d).
Proof.
  unfold child_indent. intros [-> | Hc].
  - now destruct (count =? 0).
  - replace (count =? 0) with false by (symmetry; apply Z.eqb_neq; lia).
    reflexivity.
Qed.

(** The children from number [count] on, none of them the first. *)
Lemma Serialize_children_from (d : Z) (ts : list Tree) :
  Forall (ser_step d) ts ->
  forall count out,
    d = 0 \/ (0 < count /\ count + Z.of_nat (length ts) <= 2 ^ 32) ->
    Serialize_children d (map node_of ts) count out
    = out ++ concat (map (fun t => repeat SPACE (Z.to_nat d) ++ ser_tree d t)
                       ts).
Proof.
  induction 1 as [|t ts Ht _ IH]; intros count out Hc.
  - simpl. now rewrite app_nil_r.
  - cbn [map concat]. rewrite Ht.
    rewrite child_indent_spaces by (destruct Hc as [?|[? _]]; auto).
    destruct ts as [|t' ts].
    + simpl. now rewrite !app_nil_r.
    + rewrite IH.
      * now rewrite <- !app_assoc.
      * destruct Hc as [Hd | [Hc Hlen]]; [now left | right].
        cbn [length] in Hlen |- *. rewrite !Nat2Z.inj_succ in Hlen.
        rewrite Nat2Z.inj_succ. rewrite wrap32_small by lia. lia.
Qed.

(** The children of a node, the first of them on the line the text ends
    with. *)
Lemma Serialize_children_first (d : Z) (ts : list Tree) :
  Forall (ser_step d) ts ->
  forall out,
    d = 0 \/ Z.of_nat (length ts) < 2 ^ 32 ->
    Serialize_children d (map node_of ts) 0 out
    = out ++ ser_seq (repeat SPACE (Z.to_nat d)) (map (ser_tree d) ts).
Proof.
  intros Hstep out Hlen. destruct ts as [|t ts].
  - simpl. now rewrite app_nil_r.
  - cbn [map ser_seq]. rewrite (Forall_inv Hstep).
    unfold child_indent. cbn [Z.eqb app].
    rewrite (Serialize_children_from d ts (Forall_inv_tail Hstep)).
    + rewrite map_map, <- app_assoc. reflexivity.
    + destruct Hlen as [Hd | Hlen]; [now left | right].
      cbn [length] in Hlen. rewrite Nat2Z.inj_succ in Hlen.
      rewrite wrap32_small by lia. lia.
Qed.

(** The group nodes of a key from number [count] on, none of them the
    first. *)
Lemma Serialize_children_groups_from (d : Z) (gs : list (list Tree)) :
  2 <= d < 2 ^ 32 ->
  Forall (fun g => group_ok g = true /\ Forall (ser_step d) g) gs ->
  forall count out,
    0 < count -> count + Z.of_nat (length gs) <= 2 ^ 32 ->
    Serialize_children d (map (fun g => mkNode Group [] (map node_of g)) gs)
      count out
    = out ++ concat
               (map (fun g =>
                       repeat SPACE (Z.to_nat (d - 2))
                       ++ [COLON; SPACE]
                       ++ ser_seq (repeat SPACE (Z.to_nat d))
                            (map (ser_tree d) g))
                  gs).
Proof.
  intros Hd. induction 1 as [|g gs [Hok Hg] _ IH]; intros count out Hc Hlen.
  - simpl. now rewrite app_nil_r.
  - destruct (group_ok_length g Hok) as [_ Hglen].
    cbn [map concat]. rewrite Serialize_children_group_node.
    replace (count =? 0) with false by (symmetry; apply Z.eqb_neq; lia).
    cbn [negb]. rewrite SerializeRecursive_children. cbn [m_children].
    rewrite (Serialize_children_first d g Hg) by now right.
    rewrite (wrap32_small (d - 2)) by lia. unfold add_spaces_fn.
    cbn [length] in Hlen. rewrite Nat2Z.inj_succ in Hlen.
    destruct gs as [|g' gs].
    + simpl. now rewrite !app_nil_r, <- !app_assoc.
    + rewrite IH.
      * now rewrite <- !app_assoc.
      * rewrite wrap32_small by (cbn [length] in Hlen;
                                 rewrite Nat2Z.inj_succ in Hlen; lia).
        lia.
      * rewrite wrap32_small by (cbn [length] in Hlen;
                                 rewrite Nat2Z.inj_succ in Hlen; lia).
        lia.
Qed.

Lemma groups_facts (Q : Z -> Tree -> Prop) (d : Z) (gs : list (list Tree)) :
  Forall (Forall (fun t => forall d, 0 <= d -> wf_tree d t = true -> Q d t))
    gs ->
  0 <= d ->
  Forall (fun g => group_ok g = true
                   /\ Forall (fun t => wf_tree d t = true) g) gs ->
  Forall (fun g => group_ok g = true /\ Forall (Q d) g) gs.
Proof.
  intros IH Hd Hgs. rewrite Forall_forall in *. intros g Hin.
  destruct (Hgs g Hin) as [Hok Hg]. split; [assumption|].
  specialize (IH g Hin). rewrite Forall_forall in *. intros t Ht.
  apply (IH t Ht); [assumption | now apply Hg].
Qed.

Lemma ser_step_tree (t : Tree) :
  forall d, 0 <= d -> wf_tree d t = true -> ser_step d t.
Proof.
  induction t as [v|k gs IH] using Tree_ind_groups; intros d Hd Hwf.
  - destruct (wf_tree_value d v Hwf) as [Hv _].
    intros count out rest. change (node_of (TValue v)) with (MakeValue v).
    rewrite Serialize_children_value, indent_child,
      sanitize_string_word by assumption.
    cbn [ser_tree]. now rewrite <- !app_assoc.
  - destruct (wf_tree_key d k gs Hwf) as (Hk & Hd' & Hne & Hlen & Hgs).
    pose proof (is_word_len k Hk) as Hlk.
    assert (Hsteps :
      Forall (fun g => group_ok g = true
                       /\ Forall (ser_step (d + len k + 2)) g) gs).
    { apply (groups_facts ser_step _ gs IH); [lia | assumption]. }
    intros count out rest.
    change (node_of (TKey k gs))
      with (mkNode Key k
              match gs with
              | [g] => map node_of g
              | _ => map (fun g => mkNode Group [] (map node_of g)) gs
              end).
    rewrite Serialize_children_key, indent_child,
      sanitize_string_word by assumption.
    rewrite (wrap32_small (d + len k + 2)) by lia.
    rewrite SerializeRecursive_children. cbn [m_children ser_tree].
    f_equal.
    destruct gs as [|g1 [|g2 gs]]; [contradiction| |].
    + pose proof (Forall_inv Hsteps) as [Hok Hg].
      destruct (group_ok_length g1 Hok) as [_ Hglen].
      rewrite (Serialize_children_first _ g1 Hg) by now right.
      cbn [map ser_seq concat]. rewrite app_nil_r.
      now rewrite <- !app_assoc.
    + pose proof (Forall_inv Hsteps) as [Hok Hg].
      destruct (group_ok_length g1 Hok) as [_ Hglen].
      set (rest2 := g2 :: gs) in *.
      cbn [map]. rewrite Serialize_children_group_node.
      cbn [Z.eqb negb]. rewrite SerializeRecursive_children.
      cbn [m_children].
      rewrite (Serialize_children_first _ g1 Hg) by now right.
      rewrite (Serialize_children_groups_from _ rest2);
        [| lia | exact (Forall_inv_tail Hsteps)
         | rewrite wrap32_small; lia
         | rewrite wrap32_small by lia;
           cbn [length] in Hlen; rewrite Nat2Z.inj_succ in Hlen; lia].
      cbn [ser_seq]. rewrite map_map. now rewrite <- !app_assoc.
Qed.

Lemma SerializeRecursive_trees (ts : list Tree) :
  forallb (wf_tree 0) ts = true ->
  SerializeRecursive 0 (root_of (map node_of ts)) [] = ser_doc ts.
Proof.
  intros Hwf. rewrite SerializeRecursive_children. cbn [root_of m_children].
  assert (Hsteps : Forall (ser_step 0) ts).
  { apply Forall_forall. intros t Ht. apply ser_step_tree; [lia|].
    rewrite forallb_forall in Hwf. now apply Hwf. }
  rewrite (Serialize_children_first 0 ts Hsteps) by now left.
  reflexivity.
Qed.

(* ------------------------------------------------------------------------- *)
(** ** Trees of keys and values: the builder *)

Lemma update_nth_last (f : Node -> Node) (l : list Node) (x : Node) :
  update_nth (length l) f (l ++ [x]) = l ++ [f x].
Proof. induction l as [|y l IH]; simpl; [reflexivity | now f_equal]. Qed.

Lemma update_nth_twice (f g : Node -> Node) (l : list Node) :
  forall i, update_nth i g (update_nth i f l)
            = update_nth i (fun x => g (f x)) l.
Proof.
  induction l as [|y l IH]; intros [|i]; simpl; try reflexivity.
  now f_equal.
Qed.

Lemma update_nth_at (f g : Node -> Node) (l : list Node) :
  forall i x, nth_error l i = Some x -> f x = g x ->
              update_nth i f l = update_nth i g l.
Proof.
  induction l as [|y l IH]; intros [|i] x H E; simpl in *; try discriminate.
  - injection H as ->. now f_equal.
  - f_equal. now apply (IH i x).
Qed.

Lemma last_child_ptr_cons (root child nd : Node) (i : nat) (p : NodePtr) :
  nth_error (m_children root) i = Some child ->
  node_at child p = Some nd ->
  last_child_ptr root (i :: p) = i :: last_child_ptr child p.
Proof.
  intros Hi Hp. unfold last_child_ptr. cbn [node_at]. now rewrite Hi, Hp.
Qed.

(** A node added below the node that was added last. *)
Lemma AddNode_at_last_child (x c : Node) (p : NodePtr) :
  forall root nd,
    node_at root p = Some nd ->
    AddNode_at (AddNode_at root p x) (last_child_ptr root p) c
    = AddNode_at root p (AddNode x c).
Proof.
  induction p as [|i p IH]; intros root nd H.
  - destruct root as [ty txt cs]. unfold last_child_ptr. cbn [node_at app].
    cbn [AddNode_at AddNode m_type m_text m_children].
    now rewrite update_nth_last.
  - cbn [node_at] in H.
    destruct (nth_error (m_children root) i) as [child|] eqn:Hi;
      [|discriminate].
    rewrite (last_child_ptr_cons root child nd i p Hi H).
    cbn [AddNode_at m_type m_text m_children]. f_equal.
    rewrite update_nth_twice.
    apply (update_nth_at _ _ _ i child Hi). now apply (IH child nd).
Qed.

Lemma fold_AddNode_at_last_child (p : NodePtr) (root nd : Node)
    (cs : list Node) :
  node_at root p = Some nd ->
  forall x,
    fold_left (fun r c => AddNode_at r (last_child_ptr root p) c) cs
      (AddNode_at root p x)
    = AddNode_at root p (mkNode (m_type x) (m_text x) (m_children x ++ cs)).
Proof.
  intros H. induction cs as [|c cs IH]; intros x.
  - simpl. rewrite app_nil_r. now destruct x.
  - cbn [fold_left]. rewrite (AddNode_at_last_child x c p root nd H).
    rewrite IH. unfold AddNode. cbn [m_type m_text m_children].
    now rewrite <- app_assoc.
Qed.

Lemma node_at_fold (p : NodePtr) (cs : list Node) :
  forall root nd,
    node_at root p = Some nd ->
    exists nd',
      node_at (fold_left (fun r c => AddNode_at r p c) cs root) p = Some nd'.
Proof.
  induction cs as [|c cs IH]; intros root nd H; [now exists nd|].
  cbn [fold_left].
  destruct (node_at_AddNode_at c p root p nd H) as (n' & Hn' & _).
  apply (IH _ n' Hn').
Qed.

Lemma right_of_misses (bound col flag : Z) (above : list InternalStackData) :
  col <= bound -> right_of bound above ->
  forallb (fun f => negb (frame_matches col flag f)) above = true.
Proof.
  intros Hc H. induction H as [|f above Hf _ IH]; [reflexivity|].
  simpl. rewrite IH, andb_true_r. unfold frame_matches.
  apply negb_true_iff, andb_false_intro1, Z.ltb_ge. lia.
Qed.

Lemma right_of_weaken (b1 b2 : Z) (above : list InternalStackData) :
  b2 <= b1 -> right_of b1 above -> right_of b2 above.
Proof.
  intros Hb H. unfold right_of in *. revert H. apply Forall_impl.
  intros f Hf. lia.
Qed.

Lemma adds_nil (bound : Z) (anchor_ok : InternalStackData -> Prop) :
  adds bound anchor_ok [] [].
Proof.
  intros rest root above anchor below nd Habove _ _.
  exists above. split; [assumption | reflexivity].
Qed.

Lemma adds_app (bound : Z) (anchor_ok : InternalStackData -> Prop)
    (new1 new2 : list Token) (cs1 cs2 : list Node) :
  adds bound anchor_ok new1 cs1 -> adds bound anchor_ok new2 cs2 ->
  adds bound anchor_ok (new1 ++ new2) (cs1 ++ cs2).
Proof.
  intros H1 H2 rest root above anchor below nd Habove Hanchor Hnode.
  destruct (H1 (new2 ++ rest) root above anchor below nd Habove Hanchor Hnode)
    as (above1 & Habove1 & E1).
  destruct (node_at_fold (node anchor) cs1 root nd Hnode) as (nd1 & Hnode1).
  destruct (H2 rest _ above1 anchor below nd1 Habove1 Hanchor Hnode1)
    as (above2 & Habove2 & E2).
  exists above2. split; [assumption|].
  rewrite <- app_assoc, E1, E2. now rewrite fold_left_app.
Qed.

(** A text token at depth [d] adds a key node. *)
Lemma adds_text (d : Z) (t : Token) :
  type t = Text -> column t = d + 1 ->
  adds (d + 1) (text_anchor d) [t] [MakeKey (text t)].
Proof.
  intros Hty Hcol rest root above anchor below nd Habove [Hc Hnt] Hnode.
  exists [mkFrame t (last_child_ptr root (node anchor))].
  split; [repeat constructor; cbn [token]; lia|].
  cbn [app fold_left].
  apply Parse_loop_text; [assumption|].
  rewrite seekFn_skip by (apply (right_of_misses (d + 1)); [lia | assumption]).
  apply seekFn_hit. unfold frame_matches.
  apply andb_true_intro. split; [apply Z.ltb_lt; lia|].
  destruct (type (token anchor)); [reflexivity | contradiction | reflexivity].
Qed.

(** A colon and the tokens of the nodes behind it add a group. *)
Lemma adds_group (d : Z) (colon : Token) (new : list Token)
    (children : list Node) :
  type colon = Colon -> column colon = d - 1 ->
  adds (d + 1) (text_anchor d) new children ->
  adds (d - 1) (colon_anchor d) (colon :: new) [mkNode Group [] children].
Proof.
  intros Hty Hcol Hnew rest root above anchor below nd Habove [Hc Ht] Hnode.
  set (frame := mkFrame colon (last_child_ptr root (node anchor))).
  destruct (Hnew rest (AddNode_at root (node anchor) MakeGroup) [] frame
              (anchor :: below) MakeGroup)
    as (above' & Habove' & E).
  - constructor.
  - split; cbn [frame token]; [lia | now rewrite Hty].
  - apply (node_at_last_child MakeGroup (node anchor) root nd Hnode).
  - exists (above' ++ [frame]). split.
    + apply Forall_app. split.
      * apply (right_of_weaken (d + 1)); [lia | assumption].
      * repeat constructor. cbn [frame token]. lia.
    + cbn [app fold_left] in E |- *.
      rewrite (Parse_loop_colon colon (new ++ rest) root
                 (above ++ anchor :: below) (anchor :: below) (node anchor)
                 Hty).
      * fold frame. rewrite E. rewrite <- app_assoc. cbn [app].
        cbn [frame node].
        now rewrite (fold_AddNode_at_last_child (node anchor) root nd
                       children Hnode MakeGroup).
      * rewrite seekFn_skip
          by (apply (right_of_misses (d - 1)); [lia | assumption]).
        apply seekFn_hit. unfold frame_matches.
        apply andb_true_intro. split; [apply Z.ltb_lt; lia|].
        now rewrite Ht.
Qed.

(** A key and the tokens of its groups add a key node with the groups. *)
Lemma adds_key (d : Z) (key : Token) (new : list Token)
    (groups : list Node) :
  type key = Text -> column key = d + 1 ->
  forall d', d + 3 <= d' ->
  adds (d' - 1) (colon_anchor d') new groups ->
  adds (d + 1) (text_anchor d) (key :: new)
    [mkNode Key (text key) groups].
Proof.
  intros Hty Hcol d' Hd' Hnew rest root above anchor below nd Habove
    [Hc Hnt] Hnode.
  set (frame := mkFrame key (last_child_ptr root (node anchor))).
  destruct (Hnew rest (AddNode_at root (node anchor) (MakeKey (text key))) []
              frame (anchor :: below) (MakeKey (text key)))
    as (above' & Habove' & E).
  - constructor.
  - split; cbn [frame token]; [lia | assumption].
  - apply (node_at_last_child _ (node anchor) root nd Hnode).
  - exists (above' ++ [frame]). split.
    + apply Forall_app. split.
      * apply (right_of_weaken (d' - 1)); [lia | assumption].
      * repeat constructor. cbn [frame token]. lia.
    + cbn [app fold_left] in E |- *.
      rewrite (Parse_loop_text key (new ++ rest) root
                 (above ++ anchor :: below) (anchor :: below) (node anchor)
                 Hty).
      * fold frame. rewrite E. rewrite <- app_assoc. cbn [app].
        cbn [frame node].
        now rewrite (fold_AddNode_at_last_child (node anchor) root nd
                       groups Hnode (MakeKey (text key))).
      * rewrite seekFn_skip
          by (apply (right_of_misses (d + 1)); [lia | assumption]).
        apply seekFn_hit. unfold frame_matches.
        apply andb_true_intro. split; [apply Z.ltb_lt; lia|].
        destruct (type (token anchor));
          [reflexivity | contradiction | reflexivity].
Qed.

(* ------------------------------------------------------------------------- *)
(** ** Trees of keys and values: the tokens of the text written *)

Lemma scans_impl (text : string) (col : Z) (P Q : list Token -> Prop) :
  (forall new, P new -> Q new) -> scans text col P -> scans text col Q.
Proof.
  intros HPQ H after i prev toks part line scol sline Hpart.
  destruct (H after i prev toks part line scol sline Hpart)
    as (new & part' & line' & scol' & sline' & Hp' & E & HP).
  exists new, part', line', scol', sline'. auto.
Qed.

Lemma scans_nil (P : list Token -> Prop) : P [] -> scans [] 0 P.
Proof.
  intros HP after i prev toks part line scol sline Hpart.
  exists [], part, line, scol, sline.
  split; [assumption|]. split; [|assumption].
  simpl. now rewrite app_nil_r.
Qed.

Lemma scans_app (t1 t2 : string) (col : Z) (P1 P2 P : list Token -> Prop) :
  scans t1 col P1 -> scans t2 0 P2 ->
  (forall n1 n2, P1 n1 -> P2 n2 -> P (n1 ++ n2)) ->
  scans (t1 ++ t2) col P.
Proof.
  intros H1 H2 HP after i prev toks part line scol sline Hpart.
  rewrite Tokenize_loop_app.
  destruct (H1 (hd after t2) i prev toks part line scol sline Hpart)
    as (n1 & part1 & line1 & scol1 & sline1 & Hp1 & E1 & HP1).
  rewrite E1. cbn [bind].
  destruct (H2 after (i + len t1) (last t1 prev) (toks ++ n1) part1 line1
              scol1 sline1 Hp1)
    as (n2 & part2 & line2 & scol2 & sline2 & Hp2 & E2 & HP2).
  rewrite E2. exists (n1 ++ n2), part2, line2, scol2, sline2.
  split; [assumption|]. split; [now rewrite app_assoc | now apply HP].
Qed.

Lemma scans_indent (ind text : string) (col : Z) (P : list Token -> Prop) :
  all_spaces ind = true -> 0 <= col -> col + len ind < 2 ^ 32 ->
  scans text (col + len ind) P -> scans (ind ++ text) col P.
Proof.
  intros Hind Hcol Hlen H after i prev toks part line scol sline Hpart.
  pose proof (len_nonneg ind).
  rewrite Tokenize_loop_app, scan_spaces by assumption. cbn [bind].
  rewrite (col_after_no_newline ind)
    by (now apply all_spaces_no_newline || lia).
  rewrite wrap32_small by lia.
  apply H. now apply all_spaces_app.
Qed.

(** A value and the line feed behind it. *)
Lemma scans_value (v : string) (d : Z) :
  is_word v = true -> 0 <= d -> d + len v < 2 ^ 32 ->
  scans (v ++ [LF]) d
    (fun new => exists t, new = [t] /\ type t = Text /\ text t = v
                          /\ column t = d + 1).
Proof.
  intros Hv Hd Hlen after i prev toks part line scol sline Hpart.
  pose proof (is_word_len v Hv) as Hlv.
  destruct (is_word_parts v Hv) as (Hplain & _).
  rewrite Tokenize_loop_app. cbn [hd].
  assert (Hv64 : len v < 2 ^ 64) by lia.
  pose proof (scan_token LF [] v [] eq_refl eq_refl Hv eq_refl Hv64
                i prev toks part d line scol sline Hpart) as E.
  cbn [app col_after] in E. rewrite !app_nil_r in E. rewrite E. clear E.
  cbn [bind].
  rewrite Tokenize_loop_cons, step_idle_newline by reflexivity.
  cbn [bind Tokenize_loop tokens partialToken charLine tokenStartCol
       tokenStartLine].
  eexists [_], [], _, _, _. split; [reflexivity|].
  split; [reflexivity|].
  eexists. split; [reflexivity|]. cbn [type text column].
  repeat split. rewrite wrap32_small by lia. reflexivity.
Qed.

(** A colon, a space and what follows them. *)
Lemma scans_colon (body : string) (c : Z) (P : list Token -> Prop) :
  0 <= c -> c + 2 < 2 ^ 32 ->
  scans body (c + 2) P ->
  scans ([COLON; SPACE] ++ body) c
    (fun new => exists colon nb,
                  new = colon :: nb /\ type colon = Colon
                  /\ column colon = c + 1 /\ P nb).
Proof.
  intros Hc Hlen H after i prev toks part line scol sline Hpart.
  cbn [app].
  rewrite Tokenize_loop_cons, step_colon by reflexivity. cbn [bind].
  rewrite Tokenize_loop_cons, step_idle_space by reflexivity. cbn [bind].
  cbn [tokens partialToken charCol charLine tokenStartCol tokenStartLine
       tokenHasContent app].
  rewrite wrap32_add_l, (wrap32_small (c + 1)),
    (wrap32_small (c + 1 + 1)) by lia.
  replace (c + 1 + 1) with (c + 2) by lia.
  destruct (H after (i + 1 + 1) SPACE
              (toks ++ [mkToken Colon [] (c + 1) line]) [SPACE] line
              (c + 1) line eq_refl)
    as (nb & part' & line' & scol' & sline' & Hp' & E & HP).
  rewrite E. rewrite <- app_assoc. cbn [app].
  eexists (_ :: nb), part', line', scol', sline'.
  split; [assumption|]. split; [reflexivity|].
  eexists _, nb. repeat split. assumption.
Qed.

(** A key and what follows it, which begins with a colon. *)
Lemma scans_key (k rest : string) (d : Z) (P : list Token -> Prop) :
  is_word k = true -> 0 <= d -> d + len k < 2 ^ 32 ->
  scans (COLON :: rest) (d + len k) P ->
  scans (k ++ COLON :: rest) d
    (fun new => exists key ng,
                  new = key :: ng /\ type key = Text /\ text key = k
                  /\ column key = d + 1 /\ P ng).
Proof.
  intros Hk Hd Hlen H after i prev toks part line scol sline Hpart.
  pose proof (is_word_len k Hk) as Hlk.
  destruct (is_word_parts k Hk) as (Hplain & _).
  rewrite Tokenize_loop_app. cbn [hd].
  assert (Hk64 : len k < 2 ^ 64) by lia.
  pose proof (scan_token COLON [] k [] eq_refl eq_refl Hk eq_refl Hk64
                i prev toks part d line scol sline Hpart) as E.
  cbn [app col_after] in E. rewrite !app_nil_r in E. rewrite E. clear E.
  cbn [bind].
  rewrite (col_after_no_newline k) by (now apply plain_no_newline || lia).
  rewrite (wrap32_small (d + len k)), (wrap32_small (d + 1)) by lia.
  destruct (H after (i + len k) (last k prev)
              (toks ++ [mkToken Text k (d + 1) line]) [] line (d + 1) line
              eq_refl)
    as (ng & part' & line' & scol' & sline' & Hp' & E & HP).
  rewrite E. rewrite <- app_assoc. cbn [app].
  eexists (_ :: ng), part', line', scol', sline'.
  split; [assumption|]. split; [reflexivity|].
  eexists _, ng. repeat split. assumption.
Qed.

(** Texts one below the other, each behind the spaces [ind]. *)
Lemma scans_concat (X : Type) (text : X -> string) (child : X -> Node)
    (ind : string) (c b : Z) (anchor_ok : InternalStackData -> Prop)
    (xs : list X) :
  all_spaces ind = true -> c = len ind -> c < 2 ^ 32 ->
  Forall (fun x => scans (text x) c
                     (fun new => adds b anchor_ok new [child x])) xs ->
  scans (concat (map (fun x => ind ++ text x) xs)) 0
    (fun new => adds b anchor_ok new (map child xs)).
Proof.
  intros Hind Hc Hlen. induction 1 as [|x xs Hx _ IH].
  - apply scans_nil, adds_nil.
  - cbn [map concat].
    assert (Hx0 : scans (ind ++ text x) 0
                    (fun new => adds b anchor_ok new [child x])).
    { apply scans_indent; [assumption | lia | lia |].
      now rewrite Z.add_0_l, <- Hc. }
    apply (scans_app _ _ 0 _ _ _ Hx0 IH).
    intros n1 n2 H1 H2. apply (adds_app _ _ n1 n2 [child x] _ H1 H2).
Qed.

(** The same, the first text on the line the scan is in. *)
Lemma scans_seq (X : Type) (text : X -> string) (child : X -> Node)
    (ind : string) (c b : Z) (anchor_ok : InternalStackData -> Prop)
    (xs : list X) :
  all_spaces ind = true -> c = len ind -> c < 2 ^ 32 -> xs <> [] ->
  Forall (fun x => scans (text x) c
                     (fun new => adds b anchor_ok new [child x])) xs ->
  scans (ser_seq ind (map text xs)) c
    (fun new => adds b anchor_ok new (map child xs)).
Proof.
  intros Hind Hc Hlen Hne H. destruct xs as [|x xs]; [contradiction|].
  cbn [map ser_seq]. rewrite map_map.
  apply (scans_app _ _ c _ _ _ (Forall_inv H)
           (scans_concat X text child ind c b anchor_ok xs Hind Hc Hlen
              (Forall_inv_tail H))).
  intros n1 n2 H1 H2. apply (adds_app _ _ n1 n2 [child x] _ H1 H2).
Qed.

(* ------------------------------------------------------------------------- *)
(** ** Trees of keys and values: the round trip *)

Lemma len_spaces (n : Z) : 0 <= n -> len (repeat SPACE (Z.to_nat n)) = n.
Proof. intros H. rewrite len_repeat. lia. Qed.

Lemma reads_group (d : Z) (g : list Tree) :
  2 <= d < 2 ^ 32 ->
  group_ok g = true -> Forall (reads_tree d) g ->
  scans ([COLON; SPACE]
         ++ ser_seq (repeat SPACE (Z.to_nat d)) (map (ser_tree d) g))
    (d - 2)
    (fun new => adds (d - 1) (colon_anchor d) new
                  [mkNode Group [] (map raw_of g)]).
Proof.
  intros Hd Hok Hg. destruct (group_ok_length g Hok) as [Hne _].
  assert (Hbody :
    scans (ser_seq (repeat SPACE (Z.to_nat d)) (map (ser_tree d) g))
      (d - 2 + 2)
      (fun new => adds (d + 1) (text_anchor d) new (map raw_of g))).
  { replace (d - 2 + 2) with d by lia.
    apply (scans_seq Tree (ser_tree d) raw_of); try assumption.
    - apply all_spaces_repeat.
    - rewrite len_spaces; lia.
    - lia. }
  eapply scans_impl;
    [| apply (scans_colon _ (d - 2)); [lia | lia | exact Hbody]].
  intros new (colon & nb & -> & Hty & Hcol & Hnb).
  apply adds_group; [assumption | lia | assumption].
Qed.

Lemma reads_tree_wf (t : Tree) :
  forall d, 0 <= d -> wf_tree d t = true -> reads_tree d t.
Proof.
  induction t as [v|k gs IH] using Tree_ind_groups; intros d Hd Hwf.
  - destruct (wf_tree_value d v Hwf) as [Hv Hlen].
    unfold reads_tree. cbn [ser_tree raw_of].
    eapply scans_impl; [| now apply scans_value].
    intros new (t & -> & Hty & Htx & Hcol). rewrite <- Htx.
    now apply adds_text.
  - destruct (wf_tree_key d k gs Hwf) as (Hk & Hd' & Hne & Hlen & Hgs).
    pose proof (is_word_len k Hk) as Hlk.
    set (d' := d + len k + 2) in *.
    assert (Hreads :
      Forall (fun g => group_ok g = true /\ Forall (reads_tree d') g) gs).
    { apply (groups_facts reads_tree _ gs IH); [lia | assumption]. }
    assert (Hgroups :
      scans (ser_seq (repeat SPACE (Z.to_nat (d' - 2)))
               (map (fun g =>
                       [COLON; SPACE]
                       ++ ser_seq (repeat SPACE (Z.to_nat d'))
                            (map (ser_tree d') g)) gs))
        (d' - 2)
        (fun new => adds (d' - 1) (colon_anchor d') new
                      (map (fun g => mkNode Group [] (map raw_of g)) gs))).
    { apply (scans_seq (list Tree)
               (fun g => [COLON; SPACE]
                         ++ ser_seq (repeat SPACE (Z.to_nat d'))
                              (map (ser_tree d') g))
               (fun g => mkNode Group [] (map raw_of g))).
      - apply all_spaces_repeat.
      - rewrite len_spaces; lia.
      - lia.
      - assumption.
      - revert Hreads. apply Forall_impl. intros g [Hok Hg].
        apply reads_group; [lia | assumption | assumption]. }
    unfold reads_tree.
    change (ser_tree d (TKey k gs))
      with (k ++ ser_seq (repeat SPACE (Z.to_nat (d' - 2)))
                   (map (fun g =>
                           [COLON; SPACE]
                           ++ ser_seq (repeat SPACE (Z.to_nat d'))
                                (map (ser_tree d') g)) gs)).
    change (raw_of (TKey k gs))
      with (mkNode Key k (map (fun g => mkNode Group [] (map raw_of g)) gs)).
    remember (ser_seq (repeat SPACE (Z.to_nat (d' - 2)))
                (map (fun g =>
                        [COLON; SPACE]
                        ++ ser_seq (repeat SPACE (Z.to_nat d'))
                             (map (ser_tree d') g)) gs)) as gtxt eqn:Egtxt.
    assert (Hhead : exists rest, gtxt = COLON :: rest).
    { subst gtxt. destruct gs as [|g1 more]; [contradiction|].
      cbn [map ser_seq app]. eexists. reflexivity. }
    destruct Hhead as (rest & ->).
    eapply scans_impl;
      [| apply (scans_key k rest d); [assumption | lia | lia |];
         replace (d + len k) with (d' - 2) by (unfold d'; lia);
         exact Hgroups].
    intros new (key & ng & -> & Hty & Htx & Hcol & Hng). rewrite <- Htx.
    apply (adds_key d key ng _ Hty Hcol d'); [unfold d'; lia | assumption].
Qed.

Lemma is_type_Value_node_of (t : Tree) :
  is_type Value (node_of t) = is_TValue t.
Proof. now destruct t. Qed.

Lemma forallb_Value_node_of (g : list Tree) :
  forallb (is_type Value) (map node_of g) = forallb is_TValue g.
Proof.
  induction g as [|t g IH]; [reflexivity|].
  cbn [map forallb]. now rewrite is_type_Value_node_of, IH.
Qed.

Lemma combine_values_group_ok (ty : NodeType) (g : list Tree) :
  group_ok g = true ->
  combine_values ty (map node_of g) = map node_of g.
Proof.
  unfold group_ok, combine_values. intros H.
  apply andb_prop in H. destruct H as [_ H]. apply negb_true_iff in H.
  rewrite length_map, forallb_Value_node_of.
  destruct (1 <? Z.of_nat (length g)); destruct (forallb is_TValue g);
    simpl in H; try discriminate;
    destruct (NodeType_eqb ty Key || NodeType_eqb ty Group); reflexivity.
Qed.

Lemma Simplify_raw_of (t : Tree) :
  forall d, 0 <= d -> wf_tree d t = true -> Simplify (raw_of t) = node_of t.
Proof.
  induction t as [v|k gs IH] using Tree_ind_groups; intros d Hd Hwf;
    [reflexivity|].
  destruct (wf_tree_key d k gs Hwf) as (Hk & Hd' & Hne & Hlen & Hgs).
  pose proof (len_nonneg k) as Hlk.
  change (raw_of (TKey k gs))
    with (mkNode Key k (map (fun g => mkNode Group [] (map raw_of g)) gs)).
  rewrite Simplify_unfold, map_map.
  assert (Hfacts :
    Forall (fun g => group_ok g = true
                     /\ Forall (fun t => Simplify (raw_of t) = node_of t) g)
      gs).
  { apply (groups_facts (fun _ t => Simplify (raw_of t) = node_of t)
             (d + len k + 2) gs IH); [lia | assumption]. }
  assert (Hgroups :
    map (fun g => Simplify (mkNode Group [] (map raw_of g))) gs
    = map (fun g => mkNode Group [] (map node_of g)) gs).
  { apply map_ext_in. intros g Hin. rewrite Forall_forall in Hfacts.
    destruct (Hfacts g Hin) as [Hok Hg].
    rewrite Simplify_unfold, map_map.
    assert (Hmap : map (fun t => Simplify (raw_of t)) g = map node_of g).
    { apply map_ext_in. intros t Ht. rewrite Forall_forall in Hg.
      now apply Hg. }
    rewrite Hmap, collapse_group_not_key by discriminate.
    now rewrite combine_values_group_ok. }
  rewrite Hgroups.
  destruct gs as [|g1 [|g2 more]]; [contradiction| |].
  - pose proof (Forall_inv Hgs) as [Hok _].
    destruct (group_ok_length g1 Hok) as [Hne1 _].
    cbn [map collapse_group NodeType_eqb is_type m_type andb m_children].
    rewrite combine_values_group_ok by assumption.
    cbn [node_of]. f_equal.
    destruct g1 as [|t1 g1]; [contradiction | reflexivity].
  - cbn [map collapse_group]. unfold combine_values, key_to_value.
    cbn [NodeType_eqb orb andb forallb is_type m_type].
    destruct (1 <? _); reflexivity.
Qed.

Lemma fold_AddNode_at_root (cs : list Node) :
  forall ty txt l,
    fold_left (fun r c => AddNode_at r [] c) cs (mkNode ty txt l)
    = mkNode ty txt (l ++ cs).
Proof.
  induction cs as [|c cs IH]; intros ty txt l.
  - simpl. now rewrite app_nil_r.
  - cbn [fold_left AddNode_at]. rewrite AddNode_mk, IH.
    now rewrite <- app_assoc.
Qed.

Lemma Parse_ser_doc (ts : list Tree) :
  forallb (wf_tree 0) ts = true ->
  Parse (ser_doc ts) = Ok (Some (root_of (map node_of ts))).
Proof.
  intros Hwf. destruct ts as [|t0 ts0] eqn:Ets; [reflexivity|].
  rewrite <- Ets in *. assert (Hne : ts <> []) by (subst ts; discriminate).
  clear Ets.
  assert (Hall : Forall (fun t => wf_tree 0 t = true) ts).
  { apply Forall_forall. intros t Ht. rewrite forallb_forall in Hwf.
    now apply Hwf. }
  assert (Hscan : scans (ser_doc ts) 0
                    (fun new => adds (0 + 1) (text_anchor 0) new
                                  (map raw_of ts))).
  { apply (scans_seq Tree (ser_tree 0) raw_of []);
      [reflexivity | reflexivity | lia | assumption |].
    revert Hall. apply Forall_impl. intros t Ht.
    now apply reads_tree_wf. }
  destruct (Hscan NUL 0 NUL [] [] 1 0 0 eq_refl)
    as (new & part' & line' & scol' & sline' & _ & E & Hadds).
  assert (Etok : Tokenize (ser_doc ts) = Ok new).
  { unfold Tokenize, TokState_init. now rewrite E. }
  rewrite (Parse_of_tokens _ _ Etok). unfold build.
  destruct (Hadds [] (mkNode None_ [] []) [] root_frame []
              (mkNode None_ [] []))
    as (above' & _ & Eb).
  - constructor.
  - split; [apply Z.le_refl | discriminate].
  - reflexivity.
  - rewrite app_nil_r in Eb. cbn [app] in Eb. rewrite Eb.
    cbn [Parse_loop bind root_frame node].
    rewrite fold_AddNode_at_root. cbn [app].
    fold (root_of (map raw_of ts)).
    rewrite Simplify_root_of, map_map. do 3 f_equal.
    clear - Hall. induction Hall as [|t ts Ht _ IH]; [reflexivity|].
    cbn [map]. f_equal; [apply (Simplify_raw_of t 0); [lia | assumption] | exact IH].
Qed.

Lemma Serialize_node_of (ts : list Tree) :
  forallb (wf_tree 0) ts = true ->
  Serialize (root_of (map node_of ts)) = ser_doc ts.
Proof.
  intros Hwf. unfold Serialize, SimplifyCopy.
  rewrite (Parse_simplified _ _ (Parse_ser_doc ts Hwf)).
  now apply SerializeRecursive_trees.
Qed.

(** What [Serialize] writes for trees of keys and values as [wf_tree]
    has them (every key has a group, every group has a node and is not two
    or more values only, the texts need no quotes, sizes and columns are
    below [2 ^ 32]): a key, a colon, a space and the first node below the
    key on one line; the further nodes of the group below the first one;
    for a key with more groups, each further group behind a colon that
    stands below the colon of the key. *)
Theorem Serialize_trees (ts : list Tree) :
  forallb (wf_tree 0) ts = true ->
  Serialize (root_of (map node_of ts)) = ser_doc ts.
Proof. apply Serialize_node_of. Qed.

Lemma Serialize_trees_witness :
  Serialize (root_of (map node_of
               [TKey (lit "pet")
                  [[TKey (lit "name") [[TValue (lit "Rex")]];
                    TKey (lit "toys")
                      [[TValue (lit "ball")]; [TValue (lit "old shoe")]]]];
                TValue (lit "end")]))
  = lit "pet: name: Rex" ++ [LF]
    ++ lit "     toys: ball" ++ [LF]
    ++ lit "         : old shoe" ++ [LF]
    ++ lit "end" ++ [LF].
Proof.
  apply (Serialize_trees
           [TKey (lit "pet")
              [[TKey (lit "name") [[TValue (lit "Rex")]];
                TKey (lit "toys")
                  [[TValue (lit "ball")]; [TValue (lit "old shoe")]]]];
            TValue (lit "end")]).
  reflexivity.
Defined.

(** Round trip: for trees of keys and values as [wf_tree] has them (every
    key has a group, every group has a node and is not two or more values
    only, the texts need no quotes, sizes and columns are below [2 ^ 32]),
    nested to any depth, [Parse] of the text [Serialize] writes is that
    tree. *)
Theorem Parse_Serialize_trees (ts : list Tree) :
  forallb (wf_tree 0) ts = true ->
  Parse (Serialize (root_of (map node_of ts)))
  = Ok (Some (root_of (map node_of ts))).
Proof.
  intros Hwf. rewrite (Serialize_node_of ts Hwf). now apply Parse_ser_doc.
Qed.

Lemma Parse_Serialize_trees_witness :
  Parse (Serialize (root_of (map node_of
           [TKey (lit "pet")
              [[TKey (lit "name") [[TValue (lit "Rex")]];
                TKey (lit "toys")
                  [[TValue (lit "ball")]; [TValue (lit "old shoe")]]]];
            TValue (lit "end")])))
  = Ok (Some (root_of (map node_of
           [TKey (lit "pet")
              [[TKey (lit "name") [[TValue (lit "Rex")]];
                TKey (lit "toys")
                  [[TValue (lit "ball")]; [TValue (lit "old shoe")]]]];
            TValue (lit "end")]))).
Proof.
  apply (Parse_Serialize_trees
           [TKey (lit "pet")
              [[TKey (lit "name") [[TValue (lit "Rex")]];
                TKey (lit "toys")
                  [[TValue (lit "ball")]; [TValue (lit "old shoe")]]]];
            TValue (lit "end")]).
  reflexivity.
Defined.

(* ------------------------------------------------------------------------- *)
(** ** Reading a parsed document *)

Lemma index_key_entries (before after : list Entry) (e : Entry) :
  Forall (fun b => e_key b <> e_key e) before ->
  index_key (root_of (map entry_node (before ++ e :: after))) (e_key e)
  = Some (entry_node e).
Proof.
  intros Hbefore. unfold index_key, root_of. cbn [m_children].
  rewrite map_app, index_key_loop_app. cbn [map].
  assert (Hmiss : index_key_loop (map entry_node before) (e_key e) = None).
  { apply index_key_loop_miss. apply Forall_map. revert Hbefore.
    apply Forall_impl. intros b Hb [_ Htext]. now apply Hb. }
  rewrite Hmiss. cbn [index_key_loop entry_node list_node m_type m_text
                      NodeType_eqb].
  destruct (list_eq_dec ascii_dec (e_key e) (e_key e)) as [_|Hne];
    [reflexivity | contradiction].
Qed.

(** Reading a value by its key: in a parsed document of keys with values
    the lookup of a key gives the node of the first line with that key;
    when the key has one value, [HasValue] holds for the node and
    [GetValue] is the value, [GetKey] the key, whatever the sentinel
    holds. *)
Theorem Parse_lookup_value (sentinel : Node) (before after : list Entry)
    (e : Entry) :
  Forall (fun x => entry_ok x = true) (before ++ e :: after) ->
  Forall (fun b => e_key b <> e_key e) before ->
  e_more e = [] ->
  exists t,
    Parse (doc_text (doc_lines (before ++ e :: after))) = Ok (Some t)
    /\ HasValue (deref sentinel (index_key t (e_key e))) = true
    /\ GetValue sentinel (deref sentinel (index_key t (e_key e)))
       = e_value e
    /\ GetKey sentinel (deref sentinel (index_key t (e_key e))) = e_key e.
Proof.
  intros Hok Hbefore Hmore.
  exists (root_of (map entry_node (before ++ e :: after))).
  split; [now apply Parse_doc_lines|].
  rewrite (index_key_entries before after e Hbefore). cbn [deref].
  unfold entry_node. rewrite Hmore. repeat split; reflexivity.
Qed.

Lemma Parse_lookup_value_witness :
  exists t,
    Parse (doc_text (doc_lines
             ([mkEntry (lit "name") (lit " ") (lit "Rex") []]
              ++ mkEntry (lit "age") (lit "  ") (lit "3") []
                 :: [mkEntry (lit "age") (lit " ") (lit "4") []])))
    = Ok (Some t)
    /\ HasValue (deref INVALID (index_key t (lit "age"))) = true
    /\ GetValue INVALID (deref INVALID (index_key t (lit "age"))) = lit "3"
    /\ GetKey INVALID (deref INVALID (index_key t (lit "age"))) = lit "age".
Proof.
  apply (Parse_lookup_value INVALID
           [mkEntry (lit "name") (lit " ") (lit "Rex") []]
           [mkEntry (lit "age") (lit " ") (lit "4") []]
           (mkEntry (lit "age") (lit "  ") (lit "3") [])).
  - repeat constructor.
  - repeat constructor. discriminate.
  - reflexivity.
Defined.

(** Reading an entry of a list: when a key has two or more values, the
    lookup of the key followed by the positional index gives the group of
    the value at that place, and [GetValue] on it is the value. *)
Theorem Parse_lookup_list (sentinel : Node) (before after : list Entry)
    (e : Entry) (i : nat) (v : string) :
  Forall (fun x => entry_ok x = true) (before ++ e :: after) ->
  Forall (fun b => e_key b <> e_key e) before ->
  e_more e <> [] ->
  nth_error (e_value e :: map line_value (e_more e)) i = Some v ->
  exists t,
    Parse (doc_text (doc_lines (before ++ e :: after))) = Ok (Some t)
    /\ index_at (deref sentinel (index_key t (e_key e))) (Z.of_nat i)
       = Some (group_of v)
    /\ GetValue sentinel
         (deref sentinel
            (index_at (deref sentinel (index_key t (e_key e))) (Z.of_nat i)))
       = v.
Proof.
  intros Hok Hbefore Hmore Hi.
  exists (root_of (map entry_node (before ++ e :: after))).
  split; [now apply Parse_doc_lines|].
  rewrite (index_key_entries before after e Hbefore). cbn [deref].
  assert (Hat : index_at (entry_node e) (Z.of_nat i) = Some (group_of v)).
  { unfold entry_node, list_node, index_at. cbn [m_children].
    destruct (e_more e) as [|l ls] eqn:El; [contradiction|].
    set (vs := e_value e :: map line_value (l :: ls)) in *.
    change (match map line_value (l :: ls) with
            | [] => [MakeValue (e_value e)]
            | _ :: _ => map group_of vs
            end) with (map group_of vs).
    rewrite length_map.
    assert (Hlt : (i < length vs)%nat)
      by (apply nth_error_Some; now rewrite Hi).
    replace (Z.of_nat i <? Z.of_nat (length vs)) with true
      by (symmetry; apply Z.ltb_lt; lia).
    rewrite Nat2Z.id, nth_error_map, Hi. reflexivity. }
  rewrite Hat. split; reflexivity.
Qed.

Lemma Parse_lookup_list_witness :
  exists t,
    Parse (doc_text (doc_lines
             ([] ++ mkEntry (lit "tags") (lit " ") (lit "red")
                      [(lit "    ", lit " ", lit "dark blue")]
                 :: [])))
    = Ok (Some t)
    /\ index_at (deref INVALID (index_key t (lit "tags"))) (Z.of_nat 1)
       = Some (group_of (lit "dark blue"))
    /\ GetValue INVALID
         (deref INVALID
            (index_at (deref INVALID (index_key t (lit "tags")))
               (Z.of_nat 1)))
       = lit "dark blue".
Proof.
  apply (Parse_lookup_list INVALID [] []
           (mkEntry (lit "tags") (lit " ") (lit "red")
              [(lit "    ", lit " ", lit "dark blue")])
           1 (lit "dark blue")).
  - repeat constructor.
  - constructor.
  - discriminate.
  - reflexivity.
Defined.
